(** * Miski ECS core: a shallow embedding and its verified properties

    The development follows the TypeScript sources module by module:
    [BooleanArray] (bit sets over 32-bit words), [JSNumber] (the numbers
    that component fields hold, as IEEE 754 binary64 values), [TypedArray]
    and [StorageProxy] (component storage and the change-tracking proxy),
    [Archetype], [Query] ([isQueryMatch]), [EntityManager],
    [ComponentManager], [ArchetypeManager], [QueryCache], [QueryManager]
    and [World].  Mutable objects that the program shares by reference
    (archetypes, query instances, bit sets owned by a manager) live in the
    state of the manager that owns them and are referred to by their key. *)

From stdpp Require Import gmap strings list fin_maps.
From Stdlib Require Import ZArith Lia.
From Stdlib Require SpecFloat.

Local Open Scope Z_scope.

(** ** JavaScript values: 32-bit integers, arrays, maps and plain objects *)

Module JS.
(** [ToInt32]: the value modulo 2^32, read as a signed 32-bit integer. *)
Definition toInt32 (z : Z) : Z :=
  let m := z mod 2 ^ 32 in
  if 2 ^ 31 <=? m then m - 2 ^ 32 else m.

(** The operator [a & b]: both operands go through [ToInt32] and the
    result is a signed 32-bit integer. *)
Definition band (a b : Z) : Z := Z.land (toInt32 a) (toInt32 b).

(** A value as an element of a [Uint32Array]. *)
Definition uint32 (z : Z) : Prop := 0 <= z < 2 ^ 32.

(** [a[i] = v] on a JavaScript array: a write past the end extends the
    array, the slots in between stay empty ([None]). *)
Definition array_set {A} (l : list (option A)) (i : nat) (v : A) : list (option A) :=
  if (i <? length l)%nat then <[i := Some v]> l
  else l ++ replicate (i - length l) None ++ [Some v].

(** [a[i]] on a JavaScript array: [None] is [undefined]. *)
Definition array_get {A} (l : list (option A)) (i : nat) : option A :=
  mjoin (l !! i).

(** A [Map] whose iteration order the program relies on: the entries in
    insertion order.  [map_set] replaces the value of a present key in
    place and appends a new key. *)
Fixpoint map_get {K V} `{EqDecision K} (k : K) (m : list (K * V)) : option V :=
  match m with
  | [] => None
  | (k', v) :: m' => if decide (k = k') then Some v else map_get k m'
  end.

Fixpoint map_set {K V} `{EqDecision K} (k : K) (v : V) (m : list (K * V)) : list (K * V) :=
  match m with
  | [] => [(k, v)]
  | (k', v') :: m' => if decide (k = k') then (k, v) :: m' else (k', v') :: map_set k v m'
  end.

(** The string keys that every plain object inherits from
    [Object.prototype].  Reading one of them from an object that has no
    own property of that name yields the inherited value, which is a
    function (an object for [__proto__]) and never [undefined]. *)
Definition objectPrototypeKeys : list string :=
  ["constructor"; "__defineGetter__"; "__defineSetter__"; "hasOwnProperty";
   "__lookupGetter__"; "__lookupSetter__"; "isPrototypeOf";
   "propertyIsEnumerable"; "toString"; "valueOf"; "__proto__";
   "toLocaleString"]%string.

Definition inheritedKey (name : string) : bool :=
  bool_decide (name ∈ objectPrototypeKeys).
End JS.

(** ** JavaScript numbers *)

Module JSNumber.
(** A number is an IEEE 754 binary64 value: a signed zero, a signed
    infinity, NaN, or [(-1)^s * m * 2^e] ([S754_finite s m e]), with the
    operations of [SpecFloat] at precision 53 and exponent bound 1024. *)
Abbreviation t := SpecFloat.spec_float.

Definition NaN : t := SpecFloat.S754_nan.

(** The number nearest to an integer (round to nearest, ties to even). *)
Definition ofZ (z : Z) : t := SpecFloat.binary_normalize 53 1024 z 0 false.

(** [x === y] on two numbers: NaN equals nothing, the two zeros are equal. *)
Definition strictEq (x y : t) : bool := SpecFloat.SFeqb x y.

(** The integral part of a finite number, towards zero; 0 for NaN and
    the infinities (the first step of the integer conversions). *)
Definition trunc (x : t) : Z :=
  match x with
  | SpecFloat.S754_finite s m e =>
      SpecFloat.cond_Zopp s
        (if 0 <=? e then Z.shiftl (Z.pos m) e else Z.shiftr (Z.pos m) (- e))
  | _ => 0
  end.

(** [Math.fround]: the nearest binary32 value (precision 24, exponent
    bound 128; overflow gives an infinity), as a number. *)
Definition fround (x : t) : t :=
  match x with
  | SpecFloat.S754_finite s m e =>
      match SpecFloat.binary_round 24 128 s m e with
      | SpecFloat.S754_finite s' m' e' => SpecFloat.binary_round 53 1024 s' m' e'
      | y => y
      end
  | _ => x
  end.
End JSNumber.

(** ** Errors (errors.ts) *)

Inductive MiskiError : Type :=
| SpecError
| EntityNotFoundError
| WorldStateError
| ComponentNotFoundError
| NoComponentsFoundError
| NotRegisteredError
| RangeError
| TypeError
| GenericError.

Inductive Result (A : Type) : Type :=
| Ok (a : A)
| Throw (e : MiskiError).
Arguments Ok {A} a.
Arguments Throw {A} e.

Definition rbind {A B} (r : Result A) (k : A → Result B) : Result B :=
  match r with
  | Ok a => k a
  | Throw e => Throw e
  end.

Notation "x ← r ;;; k" := (rbind r (λ x, k))
  (at level 20, r at level 100, k at level 200, right associativity, only parsing).

(** ** BooleanArray *)

Module BooleanArray.
(** Modelled from the spec: the bit set of package
    [@phughesmcr/booleanarray] is not part of the sources.  Section 4.1:
    a fixed-size bit array over [size] bits packed into 32-bit words,
    with [get], [set], [clear], popcount ([getTruthyCount]), ascending
    iteration of the set indices ([truthyIndices]), direct access to the
    words ([buffer]) and [clone].  Out-of-range accesses are left
    undefined by the spec; here a write past the last word changes
    nothing and a read past it sees the word 0. *)
Record t : Type := mk { size : nat; buffer : list Z }.

Definition BITS_PER_INT : nat := 32.

Definition wordCount (n : nat) : nat := (n + 31) / 32.

Definition new (n : nat) : t := mk n (replicate (wordCount n) 0).

(** The number of words. *)
Definition length (a : t) : nat := List.length (buffer a).

(** [buffer[i] ?? 0] *)
Definition word (a : t) (i : nat) : Z := default 0 (buffer a !! i).

Definition get (a : t) (i : nat) : bool :=
  Z.testbit (word a (i / 32)) (Z.of_nat (i mod 32)).

Definition set (a : t) (i : nat) (b : bool) : t :=
  let w := word a (i / 32) in
  let k := Z.of_nat (i mod 32) in
  mk (size a) (<[(i / 32)%nat := if b then Z.setbit w k else Z.clearbit w k]> (buffer a)).

Definition clear (a : t) : t :=
  mk (size a) (replicate (List.length (buffer a)) 0).

Definition popcount32 (w : Z) : nat :=
  List.length (filter (λ k : nat, Z.testbit w (Z.of_nat k) = true) (seq 0 32)).

Definition getTruthyCount (a : t) : nat :=
  foldr (λ w n, (popcount32 w + n)%nat) 0%nat (buffer a).

Definition truthyIndices (a : t) : list nat :=
  filter (λ i, get a i = true) (seq 0 (size a)).

Definition clone (a : t) : t := a.

(** [from_ids(size, ids)]: the bit set with exactly the given bits. *)
Definition fromIds (n : nat) (ids : list nat) : t :=
  foldl (λ a i, set a i true) (new n) ids.

(** A bit set of [n] bits as the constructor builds it and [set] and
    [clear] keep it. *)
Definition wf (n : nat) (a : t) : Prop :=
  size a = n ∧ List.length (buffer a) = wordCount n.
End BooleanArray.

(** ** Components (component.ts, component-instance.ts) *)

(** The eight element kinds of a schema field. *)
Inductive ElemKind : Type := I8 | U8 | I16 | U16 | I32 | U32 | F32 | F64.

(** A component descriptor.  Descriptors are objects compared by
    identity ([Map<Component, _>]); [c_ref] is that identity.  A
    descriptor without schema is a tag. *)
Record Component : Type := mkComponent {
  c_ref : nat;
  c_name : string;
  c_schema : option (list (string * ElemKind))
}.

(** The world-local binding of a descriptor.  The instance's storage and
    proxy are the partition and the proxy that the component manager keeps
    under the descriptor; [storage !== null] iff the descriptor has a
    schema. *)
Record ComponentInstance : Type := mkInstance {
  ci_id : nat;
  ci_type : Component
}.

Definition ci_name (i : ComponentInstance) : string := c_name (ci_type i).
Definition ci_hasStorage (i : ComponentInstance) : bool := bool_decide (is_Some (c_schema (ci_type i))).

(** ** Queries (query.ts) *)

(** A query instance id is the string [and:or:not] of the three masks;
    it is kept as the three word lists that the string spells out. *)
Abbreviation QueryId := (list Z * list Z * list Z)%type.

(** An archetype id is [bitfield.buffer.toString()], the decimal words
    separated by commas; it is kept as the word list it spells out. *)
Abbreviation ArchId := (list Z).

Record QueryInstance : Type := mkQueryInstance {
  q_and : BooleanArray.t;
  q_or : BooleanArray.t;
  q_not : BooleanArray.t;
  q_archetypes : gset ArchId;
  q_components : gmap string ComponentInstance;
  q_isDirty : bool;
  q_id : QueryId
}.

Definition isQueryMatch (target : BooleanArray.t) (query : QueryInstance) : bool :=
  let idx := seq 0 (BooleanArray.length target) in
  (* Empty targets should never match *)
  if (BooleanArray.getTruthyCount target =? 0)%nat then false
  (* Check AND components *)
  else if negb (forallb (λ i,
            let t := BooleanArray.word target i in
            let and := BooleanArray.word (q_and query) i in
            JS.band t and =? and) idx) then false
  (* Check NOT components *)
  else if negb (forallb (λ i,
            let t := BooleanArray.word target i in
            let not := BooleanArray.word (q_not query) i in
            JS.band t not =? 0) idx) then false
  (* Check OR components *)
  else if (0 <? BooleanArray.getTruthyCount (q_or query))%nat then
    existsb (λ i,
      let t := BooleanArray.word target i in
      let or := BooleanArray.word (q_or query) i in
      negb (JS.band t or =? 0)) idx
  else true.

(** ** Typed views of the partitioned buffer *)

Module TypedArray.
(** Component fields hold JavaScript numbers.  A typed array converts
    every value it stores to its element kind: an integer kind truncates
    the number and wraps it modulo 2^bits, [Float32Array] rounds it to
    binary32, [Float64Array] keeps it. *)
Definition wrapU (bits v : Z) : Z := v mod 2 ^ bits.

Definition wrapS (bits v : Z) : Z :=
  let m := v mod 2 ^ bits in
  if 2 ^ (bits - 1) <=? m then m - 2 ^ bits else m.

Definition convert (k : ElemKind) (v : JSNumber.t) : JSNumber.t :=
  match k with
  | I8 => JSNumber.ofZ (wrapS 8 (JSNumber.trunc v))
  | U8 => JSNumber.ofZ (wrapU 8 (JSNumber.trunc v))
  | I16 => JSNumber.ofZ (wrapS 16 (JSNumber.trunc v))
  | U16 => JSNumber.ofZ (wrapU 16 (JSNumber.trunc v))
  | I32 => JSNumber.ofZ (wrapS 32 (JSNumber.trunc v))
  | U32 => JSNumber.ofZ (wrapU 32 (JSNumber.trunc v))
  | F32 => JSNumber.fround v
  | F64 => v
  end.

Record t : Type := mk { kind : ElemKind; elems : list JSNumber.t }.

Definition new (k : ElemKind) (capacity : nat) : t :=
  mk k (replicate capacity (JSNumber.ofZ 0)).

(** [a[i]]; [None] is [undefined]. *)
Definition get (a : t) (i : nat) : option JSNumber.t := elems a !! i.

(** [a[i] = v]; a typed array ignores a write past its end. *)
Definition set (a : t) (i : nat) (v : JSNumber.t) : t :=
  mk (kind a) (<[i := convert (kind a) v]> (elems a)).
End TypedArray.

(** The [partitions] record of one component: field name to typed view. *)
Abbreviation Storage := (gmap string TypedArray.t).

(** ** StorageProxy (storage-proxy.ts) *)

Module StorageProxy.
(** The proxy's own state is its cursor [#entity] and [#capacity]; the
    [storage] and the [changed] bit set it was built over belong to the
    component manager and are passed to the accessors. *)
Record t : Type := mk { entity : nat; capacity : nat }.

Definition new (capacity : nat) : t := mk 0 capacity.

(** [set entity(value)]: the outcome and the proxy after the call. *)
Definition set_entity (p : t) (value : Z) : Result unit * t :=
  if (value <? 0) || (value >=? Z.of_nat (capacity p)) then (Throw EntityNotFoundError, p)
  else (Ok tt, mk (Z.to_nat value) (capacity p)).

(** The getter installed for the schema field [key]. *)
Definition getField (p : t) (storage : Storage) (key : string) : option JSNumber.t :=
  store ← storage !! key; TypedArray.get store (entity p).

(** [stored !== value], where [stored] is an element of a typed view or
    [undefined]. *)
Definition differs (stored : option JSNumber.t) (value : JSNumber.t) : bool :=
  match stored with
  | Some s => negb (JSNumber.strictEq s value)
  | None => true
  end.

(** The setter installed for the schema field [key].  (A key outside
    the schema has no accessor; storage and [changed] are not touched.) *)
Definition setField (p : t) (storage : Storage) (changed : BooleanArray.t)
    (key : string) (value : JSNumber.t) : Storage * BooleanArray.t :=
  match storage !! key with
  | Some store =>
      if differs (TypedArray.get store (entity p)) value then
        (<[key := TypedArray.set store (entity p) value]> storage,
         BooleanArray.set changed (entity p) true)
      else (storage, changed)
  | None => (storage, changed)
  end.
End StorageProxy.

(** ** Archetype *)

Module Archetype.
Record t : Type := mk {
  candidateCache : gmap QueryId bool;
  entered : BooleanArray.t;
  entities : BooleanArray.t;
  exited : BooleanArray.t;
  entityCapacity : nat;
  bitfield : BooleanArray.t;
  components : list ComponentInstance;
  id : ArchId
}.

Definition new (capacity : nat) (components : list ComponentInstance)
    (bitfield : option BooleanArray.t) : t :=
  let bitfield :=
    match bitfield with
    | Some b => b
    | None =>
        if (0 <? List.length components)%nat
        then BooleanArray.fromIds (List.length components) (ci_id <$> components)
        else BooleanArray.new capacity
    end in
  mk ∅ (BooleanArray.new capacity) (BooleanArray.new capacity) (BooleanArray.new capacity)
     capacity bitfield components (BooleanArray.buffer bitfield).

Definition addEntity (a : t) (entity : nat) : t :=
  if BooleanArray.get (entities a) entity then a
  else
    mk (candidateCache a)
       (BooleanArray.set (entered a) entity true)
       (BooleanArray.set (entities a) entity true)
       (exited a) (entityCapacity a) (bitfield a) (components a) (id a).

Definition getPopulationCount (a : t) : nat := BooleanArray.getTruthyCount (entities a).
Definition getEntered (a : t) : list nat := BooleanArray.truthyIndices (entered a).
Definition getEntities (a : t) : list nat := BooleanArray.truthyIndices (entities a).
Definition getExited (a : t) : list nat := BooleanArray.truthyIndices (exited a).

(** Memoised candidacy test: the result and the archetype with its cache filled. *)
Definition isCandidate (a : t) (query : QueryInstance) : bool * t :=
  match candidateCache a !! q_id query with
  | Some cached => (cached, a)
  | None =>
      let result := isQueryMatch (bitfield a) query in
      (result,
       mk (<[q_id query := result]> (candidateCache a))
          (entered a) (entities a) (exited a) (entityCapacity a)
          (bitfield a) (components a) (id a))
  end.

Definition isDirty (a : t) : bool :=
  (0 <? BooleanArray.getTruthyCount (entered a))%nat
  || (0 <? BooleanArray.getTruthyCount (exited a))%nat.

Definition isEmpty (a : t) : bool :=
  (BooleanArray.getTruthyCount (entities a) =? 0)%nat.

Definition refresh (a : t) : t :=
  mk (candidateCache a)
     (BooleanArray.clear (entered a))
     (entities a)
     (BooleanArray.clear (exited a))
     (entityCapacity a) (bitfield a) (components a) (id a).

Definition removeEntity (a : t) (entity : nat) : t :=
  if negb (BooleanArray.get (entities a) entity) then a
  else
    mk (candidateCache a)
       (BooleanArray.set (entered a) entity false)
       (BooleanArray.set (entities a) entity false)
       (BooleanArray.set (exited a) entity true)
       (entityCapacity a) (bitfield a) (components a) (id a).
End Archetype.

(** ** Entity ids (the id pool and entity-manager) *)

Module BitPool.
(** Modelled from the spec: the id pool of package [BitPool] is not part
    of the sources.  Sections 1 and 2: a bitset-backed pool over the ids
    [0 .. size-1] with [acquire] (an unoccupied id becomes occupied and is
    returned; [-1] when every id is occupied), [release], the count of
    occupied ids and the iteration of the occupied ids.  [acquire] takes
    the lowest unoccupied id. *)
Record t : Type := mk { size : nat; occupied : list bool }.

Definition new (n : nat) : t := mk n (replicate n false).

Definition firstFree (p : t) : option nat :=
  fst <$> list_find (λ b, b = false) (occupied p).

Definition acquire (p : t) : Z * t :=
  match firstFree p with
  | Some i => (Z.of_nat i, mk (size p) (<[i := true]> (occupied p)))
  | None => (-1, p)
  end.

Definition release (p : t) (i : nat) : t :=
  mk (size p) (<[i := false]> (occupied p)).

Definition occupiedCount (p : t) : nat :=
  List.length (filter (λ b, b = true) (occupied p)).

Definition isOccupied (p : t) (i : nat) : bool :=
  default false (occupied p !! i).

Definition occupiedIndices (p : t) : list nat :=
  filter (λ i, isOccupied p i = true) (seq 0 (size p)).

Definition wf (p : t) : Prop := List.length (occupied p) = size p.
End BitPool.

Module EntityManager.
Record t : Type := mk { pool : BitPool.t }.

(** [MAX_CAPACITY] is [BitPool.MAX_SAFE_SIZE], a constant of the pool
    package; the constructor takes it as an argument here. *)
Definition new (MAX_CAPACITY capacity : nat) : Result t :=
  if (capacity <=? 0)%nat || (MAX_CAPACITY <? capacity)%nat then Throw RangeError
  else Ok (mk (BitPool.new capacity)).

Definition capacity (m : t) : nat := BitPool.size (pool m).

(** [create]: [None] is [undefined]. *)
Definition create (m : t) : option nat * t :=
  let '(entity, p) := BitPool.acquire (pool m) in
  if entity =? -1 then (None, mk p)
  else (Some (Z.to_nat entity), mk p).

Definition isEntity (m : t) (entity : nat) : bool :=
  (entity <? capacity m)%nat.

Definition destroy (m : t) (entity : nat) : Result t :=
  if negb (isEntity m entity) then Throw EntityNotFoundError
  else Ok (mk (BitPool.release (pool m) entity)).

Definition getActive (m : t) : list nat := BitPool.occupiedIndices (pool m).

Definition getActiveCount (m : t) : nat := BitPool.occupiedCount (pool m).

Definition getAvailableCount (m : t) : nat :=
  (capacity m - BitPool.occupiedCount (pool m))%nat.

Definition isActive (m : t) (entity : nat) : bool :=
  isEntity m entity && BitPool.isOccupied (pool m) entity.
End EntityManager.

(** ** ComponentManager *)

(** A component argument of the public API: a descriptor or its name. *)
Inductive ComponentArg : Type :=
| ByName (name : string)
| ByRef (component : Component).

(** What [getInstance] returns when it does not return [undefined]: a
    component instance, or, for a name that is no own key of
    [#registryByName] but a key of [Object.prototype], the inherited
    value, which is truthy and has none of the fields of an instance
    (its [type], [storage] and [id] are [undefined]). *)
Inductive Lookup : Type :=
| Found (instance : ComponentInstance)
| Inherited.

(** The value as a component instance, where it is one. *)
Definition instanceOf (l : Lookup) : option ComponentInstance :=
  match l with
  | Found instance => Some instance
  | Inherited => None
  end.

Module ComponentManager.
(** [#changed] and [#owners] are keyed by descriptor identity;
    [#registry] keeps its insertion order, which the component lists
    follow.  [#registryByName] is a plain object: [registryByName] holds
    its own properties, and a read of it goes on to [Object.prototype]
    (see [getInstance]); a descriptor named [__proto__], whose
    registration would replace that prototype, is left out of the
    embedding.  [storages] is the partitioned buffer: the
    partition of each non-tag component; [proxies] holds the cursor of
    each partition's proxy. *)
Record t : Type := mk {
  changed : gmap nat BooleanArray.t;
  owners : gmap nat BooleanArray.t;
  registry : list (nat * ComponentInstance);
  registryByName : gmap string ComponentInstance;
  storages : gmap nat Storage;
  proxies : gmap nat StorageProxy.t
}.

(** Modelled from the spec: [PartitionedBuffer.addPartition] is not part
    of the sources.  Section 4.2: the partition of a non-tag component
    holds, for each schema field, a typed view over [capacity] elements
    of the field's element kind; a tag has no partition. *)
Definition addPartition (capacity : nat) (component : Component) : option Storage :=
  schema ← c_schema component;
  Some (list_to_map ((λ '(field, k), (field, TypedArray.new k capacity)) <$> schema)).

Definition register (capacity : nat) (cm : t) (component : Component) : t :=
  let key := c_ref component in
  let instanceOwners := BooleanArray.new capacity in
  let instanceChanged := BooleanArray.new capacity in
  let storage := addPartition capacity component in
  let instance := mkInstance (List.length (registry cm)) component in
  mk (<[key := instanceChanged]> (changed cm))
     (<[key := instanceOwners]> (owners cm))
     (JS.map_set key instance (registry cm))
     (<[c_name component := instance]> (registryByName cm))
     (match storage with
      | Some s => <[key := s]> (storages cm)
      | None => delete key (storages cm)
      end)
     (match storage with
      | Some _ => <[key := StorageProxy.new capacity]> (proxies cm)
      | None => delete key (proxies cm)
      end).

Definition new (capacity : nat) (components : list Component) : t :=
  foldl (register capacity) (mk ∅ ∅ [] ∅ ∅ ∅) components.

Definition count (cm : t) : nat := List.length (registry cm).

(** [this.#registryByName[component]] for a string, [this.#registry.get(component)]
    for a descriptor; [None] is [undefined]. *)
Definition getInstance (cm : t) (component : ComponentArg) : option Lookup :=
  match component with
  | ByName name =>
      match registryByName cm !! name with
      | Some instance => Some (Found instance)
      | None => if JS.inheritedKey name then Some Inherited else None
      end
  | ByRef c => Found <$> JS.map_get (c_ref c) (registry cm)
  end.

(** [array.map(this.getInstance)] on an array of descriptors: each
    element is the instance that [#registry] holds, or [undefined]. *)
Definition getInstances (cm : t) (array : list Component) : list (option ComponentInstance) :=
  (λ c, getInstance cm (ByRef c) ≫= instanceOf) <$> array.

Definition isRegistered (cm : t) (component : ComponentArg) : bool :=
  bool_decide (is_Some (getInstance cm component)).

Definition ownerBit (cm : t) (proto : nat) (entity : nat) : bool :=
  match owners cm !! proto with
  | Some o => BooleanArray.get o entity
  | None => false
  end.

Definition changedBit (cm : t) (proto : nat) (entity : nat) : bool :=
  match changed cm !! proto with
  | Some c => BooleanArray.get c entity
  | None => false
  end.

(** [#getEntityComponentsDirect] *)
Definition getEntityComponentsDirect (cm : t) (entity : nat) : list ComponentInstance :=
  snd <$> filter (λ pi, ownerBit cm (fst pi) entity = true) (registry cm).

(** The loop [for (const key in data) if (key in storage) storage[key][entity] = data[key]]. *)
Definition copyData (storage : Storage) (entity : nat) (data : list (string * JSNumber.t)) : Storage :=
  foldl (λ st kv,
           match st !! fst kv with
           | Some view => <[fst kv := TypedArray.set view entity (snd kv)]> st
           | None => st
           end) storage data.

(** For an inherited value [type] is [undefined]: no owner bit set is
    found under it, and building the message of the error from
    [type.name] throws a [TypeError]. *)
Definition addToEntity (cm : t) (component : ComponentArg) (entity : nat)
    (data : option (list (string * JSNumber.t))) : Result (list ComponentInstance * t) :=
  match getInstance cm component with
  | None => Throw NotRegisteredError
  | Some Inherited => Throw TypeError
  | Some (Found instance) =>
      let type := c_ref (ci_type instance) in
      (* Set ownership *)
      match owners cm !! type with
      | None => Throw GenericError
      | Some o =>
          let owners' := <[type := BooleanArray.set o entity true]> (owners cm) in
          (* Set changed *)
          match changed cm !! type with
          | None => Throw GenericError
          | Some c =>
              let changed' := <[type := BooleanArray.set c entity true]> (changed cm) in
              (* Set data if provided *)
              let storages' :=
                match data, storages cm !! type with
                | Some d, Some storage => <[type := copyData storage entity d]> (storages cm)
                | _, _ => storages cm
                end in
              let cm' := mk changed' owners' (registry cm) (registryByName cm) storages' (proxies cm) in
              Ok (getEntityComponentsDirect cm' entity, cm')
          end
      end
  end.

Definition entityHas (cm : t) (component : ComponentArg) (entity : nat) : bool :=
  let proto :=
    match component with
    | ByName _ => ci_type <$> (getInstance cm component ≫= instanceOf)
    | ByRef c => Some c
    end in
  match proto with
  | Some p => ownerBit cm (c_ref p) entity
  | None => false
  end.

(** [this.#changed.get(instance.type)?.truthyIndices()]; no bit set is
    kept under the [undefined] type of an inherited value. *)
Definition getChanged (cm : t) (component : ComponentArg) : option (list nat) :=
  instance ← getInstance cm component ≫= instanceOf;
  BooleanArray.truthyIndices <$> changed cm !! c_ref (ci_type instance).

Definition getOwners (cm : t) (component : ComponentArg) : option (list nat) :=
  instance ← getInstance cm component ≫= instanceOf;
  BooleanArray.truthyIndices <$> owners cm !! c_ref (ci_type instance).

Definition refresh (cm : t) : t :=
  mk (BooleanArray.clear <$> changed cm) (owners cm) (registry cm)
     (registryByName cm) (storages cm) (proxies cm).

Definition removeFromEntity (cm : t) (component : ComponentArg) (entity : nat)
    : list ComponentInstance * t :=
  match getInstance cm component with
  | None => (getEntityComponentsDirect cm entity, cm)
  | Some Inherited => (getEntityComponentsDirect cm entity, cm)
  | Some (Found instance) =>
      let type := c_ref (ci_type instance) in
      let owners' := alter (λ o, BooleanArray.set o entity false) type (owners cm) in
      let changed' := alter (λ c, BooleanArray.set c entity false) type (changed cm) in
      let cm' := mk changed' owners' (registry cm) (registryByName cm) (storages cm) (proxies cm) in
      (getEntityComponentsDirect cm' entity, cm')
  end.

(** [instance.proxy.entity = value] for the instance of [proto]. *)
Definition proxySetEntity (cm : t) (proto : nat) (value : Z) : Result t :=
  match proxies cm !! proto with
  | None => Throw TypeError
  | Some p =>
      let '(r, p') := StorageProxy.set_entity p value in
      _ ← r ;;;
      Ok (mk (changed cm) (owners cm) (registry cm) (registryByName cm)
             (storages cm) (<[proto := p']> (proxies cm)))
  end.

(** [instance.proxy[key]] for the instance of [proto]. *)
Definition proxyGet (cm : t) (proto : nat) (key : string) : option JSNumber.t :=
  p ← proxies cm !! proto;
  storage ← storages cm !! proto;
  StorageProxy.getField p storage key.

(** [instance.proxy[key] = value] for the instance of [proto]. *)
Definition proxySet (cm : t) (proto : nat) (key : string) (value : JSNumber.t) : t :=
  match proxies cm !! proto, storages cm !! proto, changed cm !! proto with
  | Some p, Some storage, Some c =>
      let '(storage', c') := StorageProxy.setField p storage c key value in
      mk (<[proto := c']> (changed cm)) (owners cm) (registry cm) (registryByName cm)
         (<[proto := storage']> (storages cm)) (proxies cm)
  | _, _, _ => cm
  end.
End ComponentManager.

(** ** ArchetypeManager *)

Module ArchetypeManager.
(** Archetypes are objects shared between the registry, the
    entity-to-archetype array and the query sets.  The registry, which is
    keyed by archetype id, is their store; every other reference to an
    archetype is its id.  Reference equality of two archetypes is
    equality of their ids.  [capacity] is the constructor argument that
    the closures [init] and [update] capture. *)
Record t : Type := mk {
  registry : gmap ArchId Archetype.t;
  entityArchetypes : list (option ArchId);
  queryArchetypes : gmap QueryId (gset ArchId);
  root : ArchId;
  componentCount : nat;
  capacity : nat
}.

Definition new (capacity componentCount : nat) : t :=
  let rootBitfield := BooleanArray.new componentCount in
  let root := Archetype.new capacity [] (Some rootBitfield) in
  mk {[ Archetype.id root := root ]} (replicate capacity None) ∅
     (Archetype.id root) componentCount capacity.

Definition getEntityArchetype (m : t) (entity : nat) : option ArchId :=
  JS.array_get (entityArchetypes m) entity.

Definition has (m : t) (archetype : ArchId) : bool :=
  bool_decide (is_Some (registry m !! archetype)).

Definition isEntityInRoot (m : t) (entity : nat) : bool :=
  bool_decide (getEntityArchetype m entity = Some (root m)).

Definition query (m : t) (query : QueryInstance) : option (gset ArchId) :=
  queryArchetypes m !! q_id query.

(** [currentArchetype?.removeEntity(entity)] *)
Definition removeFrom (current : option ArchId) (entity : nat)
    (reg : gmap ArchId Archetype.t) : gmap ArchId Archetype.t :=
  match current with
  | Some c => alter (λ a, Archetype.removeEntity a entity) c reg
  | None => reg
  end.

Definition set (m : t) (archetype : ArchId) (entity : nat) : Result (ArchId * t) :=
  if negb (has m archetype) then Throw NotRegisteredError
  else if (List.length (entityArchetypes m) <=? entity)%nat then Throw RangeError
  else
    let currentArchetype := JS.array_get (entityArchetypes m) entity in
    if bool_decide (currentArchetype = Some archetype) then Ok (archetype, m)
    else
      let reg := removeFrom currentArchetype entity (registry m) in
      let entityArchetypes' := JS.array_set (entityArchetypes m) entity archetype in
      let reg := alter (λ a, Archetype.addEntity a entity) archetype reg in
      Ok (archetype,
          mk reg entityArchetypes' (queryArchetypes m) (root m) (componentCount m) (capacity m)).

Definition reset (m : t) (entity : nat) : Result t :=
  r ← set m (root m) entity ;;; Ok (snd r).

(** [init]: the array gets length [capacity], then every slot is seated
    in the root archetype. *)
Definition init (m : t) : Result t :=
  let m0 := mk (registry m) (resize (capacity m) None (entityArchetypes m))
               (queryArchetypes m) (root m) (componentCount m) (capacity m) in
  foldl (λ r i,
           m ← r ;;;
           s ← set m (root m) i ;;;
           let m' := snd s in
           Ok (mk (registry m') (JS.array_set (entityArchetypes m') i (fst s))
                  (queryArchetypes m') (root m') (componentCount m') (capacity m')))
        (Ok m0) (seq 0 (capacity m)).

(** The scratch bit field of [update] after [bitfield.clear()] and the loop
    that sets the bit of every component id. *)
Definition scratch (m : t) (components : list ComponentInstance) : BooleanArray.t :=
  foldl (λ b c, BooleanArray.set b (ci_id c) true)
        (BooleanArray.clear (BooleanArray.new (componentCount m))) components.

Definition update (m : t) (entity : nat) (components : list ComponentInstance) : ArchId * t :=
  let oldArchetype := JS.array_get (entityArchetypes m) entity in
  (* Reset and update bitfield *)
  let bitfield := scratch m components in
  (* Get or create archetype for these components *)
  let archetypeId := BooleanArray.buffer bitfield in
  if bool_decide (oldArchetype = Some archetypeId) then (archetypeId, m)
  else
    let reg :=
      match registry m !! archetypeId with
      | Some _ => registry m
      | None =>
          <[archetypeId := Archetype.new (capacity m) components (Some (BooleanArray.clone bitfield))]>
            (registry m)
      end in
    (* Move entity to new archetype *)
    let reg := removeFrom oldArchetype entity reg in
    let reg := alter (λ a, Archetype.addEntity a entity) archetypeId reg in
    (archetypeId,
     mk reg (JS.array_set (entityArchetypes m) entity archetypeId)
        (queryArchetypes m) (root m) (componentCount m) (capacity m)).

(** The archetypes that [refresh] records for [query]: the candidates
    with at least one entity. *)
Definition matching (reg : gmap ArchId Archetype.t) (query : QueryInstance) : gset ArchId :=
  dom (filter (λ ka, fst (Archetype.isCandidate (snd ka) query) = true
                     ∧ (0 < Archetype.getPopulationCount (snd ka))%nat) reg).

(** One archetype after the inner loop of [refresh]: every query's
    candidacy is memoised, then [archetype.refresh()] runs. *)
Definition refreshArchetype (queryArray : list QueryInstance) (a : Archetype.t) : Archetype.t :=
  Archetype.refresh (foldl (λ a q, snd (Archetype.isCandidate a q)) a queryArray).

(** [refresh].  [queries] is [instancesByID], whose values are the query
    instances, each stored under its own id; the result carries the
    instances with their [archetypes] sets rebuilt.  The loops run over
    every archetype and every query; the sets they build do not depend
    on the iteration order. *)
Definition refresh (m : t) (queries : gmap QueryId QueryInstance)
    : t * gmap QueryId QueryInstance :=
  let queryArray := snd <$> map_to_list queries in
  let sets := matching (registry m) <$> queries in
  let queries' :=
    (λ q, mkQueryInstance (q_and q) (q_or q) (q_not q) (matching (registry m) q)
                          (q_components q) (q_isDirty q) (q_id q)) <$> queries in
  (mk (refreshArchetype queryArray <$> registry m) (entityArchetypes m) sets
      (root m) (componentCount m) (capacity m),
   queries').

Definition destroy (m : t) : t :=
  mk ∅ [] ∅ (root m) (componentCount m) (capacity m).
End ArchetypeManager.

(** ** Query results: pool and cache (query-pool.ts, query-cache.ts) *)

Module QueryResultPool.
Record t : Type := mk { entityArrays : list BooleanArray.t; size : nat }.

Definition new (size : nat) : t := mk [] size.

(** [this.#entityArrays.pop() ?? new BooleanArray(this.#size)] *)
Definition acquireEntityArray (p : t) : BooleanArray.t * t :=
  match last (entityArrays p) with
  | Some a => (a, mk (removelast (entityArrays p)) (size p))
  | None => (BooleanArray.new (size p), p)
  end.

Definition releaseEntityArray (p : t) (array : BooleanArray.t) : t :=
  mk (entityArrays p ++ [BooleanArray.clear array]) (size p).
End QueryResultPool.

Module QueryCache.
(** The cache shares its pool with the query manager; the pool is
    passed in and handed back by the operations that use it. *)
Record t : Type := mk {
  componentCache : gmap QueryId (gmap string ComponentInstance);
  entityCache : gmap QueryId BooleanArray.t;
  globalVersion : nat
}.

Definition new : t := mk ∅ ∅ 0.

Definition version (c : t) : nat := globalVersion c.

Definition invalidate (c : t) : t :=
  mk (componentCache c) (entityCache c) (S (globalVersion c)).

Definition getComponents (c : t) (queryId : QueryId)
    (compute : gmap string ComponentInstance) (lastVersion : nat)
    : gmap string ComponentInstance * t :=
  let cc := if (lastVersion <? globalVersion c)%nat
            then delete queryId (componentCache c) else componentCache c in
  let cc := match cc !! queryId with
            | Some _ => cc
            | None => <[queryId := compute]> cc
            end in
  (default compute (cc !! queryId), mk cc (entityCache c) (globalVersion c)).

(** [compute] is a closure over the query manager; [env] is the part
    of the manager's state, besides the pool, that the closure updates. *)
Definition getEntities {E : Type} (c : t) (pool : QueryResultPool.t) (env : E)
    (queryId : QueryId)
    (compute : QueryResultPool.t → E → BooleanArray.t * QueryResultPool.t * E)
    (lastVersion : nat) : BooleanArray.t * t * QueryResultPool.t * E :=
  let '(ec, pool) :=
    if (lastVersion <? globalVersion c)%nat then
      (* Release the old array back to the pool before removing *)
      (delete queryId (entityCache c),
       match entityCache c !! queryId with
       | Some oldArray => QueryResultPool.releaseEntityArray pool oldArray
       | None => pool
       end)
    else (entityCache c, pool) in
  match ec !! queryId with
  | Some cached => (cached, mk (componentCache c) ec (globalVersion c), pool, env)
  | None =>
      let '(result, pool, env) := compute pool env in
      (result, mk (componentCache c) (<[queryId := result]> ec) (globalVersion c), pool, env)
  end.
End QueryCache.

(** ** QueryManager (query-manager.ts) *)

(** A query: three lists of component descriptors.  Queries are keys of
    [idsByQuery] by identity; [query_ref] is that identity. *)
Record Query : Type := mkQuery {
  query_ref : nat;
  q_all : list Component;
  q_any : list Component;
  q_none : list Component
}.

Module QueryManager.
Record t : Type := mk {
  cache : QueryCache.t;
  lastQueryVersion : gmap QueryId nat;
  pool : QueryResultPool.t;
  instancesByID : gmap QueryId QueryInstance;
  idsByQuery : gmap nat QueryId;
  visited : BooleanArray.t
}.

Definition new (capacity : nat) : t :=
  mk QueryCache.new ∅ (QueryResultPool.new capacity) ∅ ∅ (BooleanArray.new capacity).

(** The mask of the instances that [getInstances] finds (unknown
    components are filtered out). *)
Definition maskOf (size : nat) (instances : list ComponentInstance) : BooleanArray.t :=
  foldl (λ b i, BooleanArray.set b (ci_id i) true) (BooleanArray.new size) instances.

Definition createQueryInstance
    (getInstances : list Component → list (option ComponentInstance))
    (size : nat) (query : Query) : QueryInstance :=
  let andInstances := omap id (getInstances (q_all query)) in
  let and := maskOf size andInstances in
  let orInstances := omap id (getInstances (q_any query)) in
  let or := maskOf size orInstances in
  let notInstances := omap id (getInstances (q_none query)) in
  let not := maskOf size notInstances in
  let components :=
    foldl (λ cs i, <[ci_name i := i]> cs) (∅ : gmap string ComponentInstance)
          (andInstances ++ orInstances) in
  mkQueryInstance and or not ∅ components true
    (BooleanArray.buffer and, BooleanArray.buffer or, BooleanArray.buffer not).

(** The instance that [register] returns without creating one. *)
Definition registered (qm : t) (query : Query) : option QueryInstance :=
  queryId ← idsByQuery qm !! query_ref query;
  instancesByID qm !! queryId.

Definition invalidate (qm : t) (query : option Query) : t :=
  match query with
  | Some q =>
      match idsByQuery qm !! query_ref q with
      | Some queryId =>
          mk (cache qm) (<[queryId := QueryCache.version (cache qm)]> (lastQueryVersion qm))
             (pool qm) (instancesByID qm) (idsByQuery qm) (visited qm)
      | None => qm
      end
  | None =>
      mk (QueryCache.invalidate (cache qm)) (lastQueryVersion qm)
         (pool qm) (instancesByID qm) (idsByQuery qm) (visited qm)
  end.

(** The [compute] closure of [getEntitiesFromQuery]: the union of the
    member sets of the instance's archetypes, in a bit set taken from the
    pool.  [archs] is the store of the archetypes. *)
Definition computeEntities (archs : gmap ArchId Archetype.t) (instance : QueryInstance)
    (pool : QueryResultPool.t) (visited : BooleanArray.t)
    : BooleanArray.t * QueryResultPool.t * BooleanArray.t :=
  let visited := BooleanArray.clear visited in
  let '(result, pool) := QueryResultPool.acquireEntityArray pool in
  let result := BooleanArray.clear result in
  let members :=
    mjoin ((λ k, match archs !! k with
                 | Some a => Archetype.getEntities a
                 | None => []
                 end) <$> elements (q_archetypes instance)) in
  let '(result, visited) :=
    foldl (λ rv entity,
             if BooleanArray.get (snd rv) entity then rv
             else (BooleanArray.set (fst rv) entity true,
                   BooleanArray.set (snd rv) entity true))
          (result, visited) members in
  (result, pool, BooleanArray.clear visited).

(** [getComponentsFromQuery] after [this.register(query)] has returned [instance]. *)
Definition componentsOf (qm : t) (instance : QueryInstance)
    : gmap string ComponentInstance * t :=
  let queryId := q_id instance in
  let '(result, c) :=
    QueryCache.getComponents (cache qm) queryId (q_components instance)
      (default 0%nat (lastQueryVersion qm !! queryId)) in
  (result,
   mk c (<[queryId := QueryCache.version c]> (lastQueryVersion qm))
      (pool qm) (instancesByID qm) (idsByQuery qm) (visited qm)).

(** [getEntitiesFromQuery] after [this.register(query)] has returned
    [instance]: the result bit set (the function returns its
    [truthyIndices()]) and the manager. *)
Definition entitiesOf (qm : t) (archs : gmap ArchId Archetype.t) (instance : QueryInstance)
    : BooleanArray.t * t :=
  let queryId := q_id instance in
  let '(result, c, p, v) :=
    QueryCache.getEntities (cache qm) (pool qm) (visited qm) queryId
      (computeEntities archs instance)
      (default 0%nat (lastQueryVersion qm !! queryId)) in
  (result,
   mk c (<[queryId := QueryCache.version c]> (lastQueryVersion qm))
      p (instancesByID qm) (idsByQuery qm) v).
End QueryManager.

(** ** World (World.ts, world/utils.ts) *)

Inductive WorldState : Type := uninitialized | initialized | destroyed | error.

Global Instance WorldState_eq_dec : EqDecision WorldState.
Proof. solve_decision. Defined.

Definition assertWorldState (target current : WorldState) : Result unit :=
  if decide (current = target) then Ok tt else Throw WorldStateError.

Module World.
Record t : Type := mk {
  archetypeManager : ArchetypeManager.t;
  componentManager : ComponentManager.t;
  entityManager : EntityManager.t;
  queryManager : QueryManager.t;
  state : WorldState
}.

(** The constructor.  [isValidWorldSpec] wants a capacity that is a
    positive uint32 and at least one component.  [MAX_CAPACITY] is the
    bound of the id pool package.  A throwing operation of the world is
    [Throw e]; the state it leaves behind is not kept. *)
Definition new (MAX_CAPACITY capacity : nat) (components : list Component) : Result t :=
  if negb ((Z.of_nat capacity <=? 4294967295) && (0 <? capacity)%nat
           && (0 <? List.length components)%nat) then Throw SpecError
  else
    em ← EntityManager.new MAX_CAPACITY capacity ;;;
    Ok (mk (ArchetypeManager.new capacity (List.length components))
           (ComponentManager.new capacity components)
           em (QueryManager.new capacity) uninitialized).

Definition refresh (w : t) (retainChanged : bool) : Result t :=
  _ ← assertWorldState initialized (state w) ;;;
  let '(am, queries) :=
    ArchetypeManager.refresh (archetypeManager w) (QueryManager.instancesByID (queryManager w)) in
  let cm := if retainChanged then componentManager w
            else ComponentManager.refresh (componentManager w) in
  let qm := queryManager w in
  let qm := QueryManager.mk (QueryManager.cache qm) (QueryManager.lastQueryVersion qm)
              (QueryManager.pool qm) queries (QueryManager.idsByQuery qm)
              (QueryManager.visited qm) in
  Ok (mk am cm (entityManager w) (QueryManager.invalidate qm None) (state w)).

(** [init]; no system is registered, so there are no hooks to await. *)
Definition init (w : t) : Result t :=
  _ ← assertWorldState uninitialized (state w) ;;;
  am ← ArchetypeManager.init (archetypeManager w) ;;;
  w' ← refresh (mk am (componentManager w) (entityManager w) (queryManager w) initialized) false ;;;
  _ ← assertWorldState initialized (state w') ;;;
  Ok w'.

Definition destroy (w : t) : Result t :=
  _ ← assertWorldState initialized (state w) ;;;
  Ok (mk (archetypeManager w) (componentManager w) (entityManager w) (queryManager w) destroyed).

Definition getComponentByName (w : t) (component : ComponentArg) : Result Component :=
  match component with
  | ByName _ =>
      match ComponentManager.getInstance (componentManager w) component ≫= instanceOf with
      | Some i => Ok (ci_type i)
      | None => Throw NotRegisteredError
      end
  | ByRef c => Ok c
  end.

Definition addComponentToEntity (w : t) (component : ComponentArg) (entity : nat)
    (data : option (list (string * JSNumber.t))) : Result t :=
  component ← getComponentByName w component ;;;
  r ← ComponentManager.addToEntity (componentManager w) (ByRef component) entity data ;;;
  let '(instances, cm) := r in
  let '(_, am) := ArchetypeManager.update (archetypeManager w) entity instances in
  let w' := mk am cm (entityManager w) (queryManager w) (state w) in
  if decide (state w = initialized) then refresh w' true else Ok w'.

Definition removeComponentFromEntity (w : t) (component : ComponentArg) (entity : nat)
    : Result t :=
  component ← getComponentByName w component ;;;
  let '(instances, cm) :=
    ComponentManager.removeFromEntity (componentManager w) (ByRef component) entity in
  let '(_, am) := ArchetypeManager.update (archetypeManager w) entity instances in
  let w' := mk am cm (entityManager w) (queryManager w) (state w) in
  if decide (state w = initialized) then refresh w' true else Ok w'.

(** [entities.create] *)
Definition createEntity (w : t) : option nat * t :=
  let '(e, em) := EntityManager.create (entityManager w) in
  (e, mk (archetypeManager w) (componentManager w) em (queryManager w) (state w)).

(** [entities.destroy] *)
Definition destroyEntity (w : t) (entity : nat) : Result t :=
  let am := archetypeManager w in
  (* Remove all components from the entity *)
  let comps :=
    match ArchetypeManager.getEntityArchetype am entity ≫= (ArchetypeManager.registry am !!.) with
    | Some archetype => Archetype.components archetype
    | None => []
    end in
  let cm := foldl (λ cm ci, snd (ComponentManager.removeFromEntity cm (ByRef (ci_type ci)) entity))
                  (componentManager w) comps in
  (* Reset the entity to the root archetype *)
  am ← ArchetypeManager.reset am entity ;;;
  (* Destroy the entity itself *)
  em ← EntityManager.destroy (entityManager w) entity ;;;
  (* Invalidate query caches *)
  Ok (mk am cm em (QueryManager.invalidate (queryManager w) None) (state w)).

(** [QueryManager.register], which needs the world for the component
    instances and for the refresh after a registration. *)
Definition registerQuery (w : t) (query : Query) : Result (QueryInstance * t) :=
  let qm := queryManager w in
  match QueryManager.registered qm query with
  | Some instance => Ok (instance, w)
  | None =>
      let instance :=
        QueryManager.createQueryInstance
          (ComponentManager.getInstances (componentManager w))
          (ComponentManager.count (componentManager w)) query in
      let queryId := q_id instance in
      let qm := QueryManager.mk (QueryManager.cache qm) (QueryManager.lastQueryVersion qm)
                  (QueryManager.pool qm)
                  (<[queryId := instance]> (QueryManager.instancesByID qm))
                  (<[query_ref query := queryId]> (QueryManager.idsByQuery qm))
                  (QueryManager.visited qm) in
      let w' := mk (archetypeManager w) (componentManager w) (entityManager w) qm (state w) in
      if decide (state w = initialized) then
        w'' ← refresh w' true ;;;
        Ok (default instance (QueryManager.instancesByID (queryManager w'') !! queryId), w'')
      else Ok (instance, w')
  end.

(** [entities.query]: the entities of a query, through the cache. *)
Definition queryEntities (w : t) (query : Query) : Result (list nat * t) :=
  r ← registerQuery w query ;;;
  let '(instance, w) := r in
  let '(result, qm) :=
    QueryManager.entitiesOf (queryManager w)
      (ArchetypeManager.registry (archetypeManager w)) instance in
  Ok (BooleanArray.truthyIndices result,
      mk (archetypeManager w) (componentManager w) (entityManager w) qm (state w)).

(** [components.query]: the components of a query, through the cache. *)
Definition queryComponents (w : t) (query : Query)
    : Result (gmap string ComponentInstance * t) :=
  r ← registerQuery w query ;;;
  let '(instance, w) := r in
  let '(result, qm) := QueryManager.componentsOf (queryManager w) instance in
  Ok (result, mk (archetypeManager w) (componentManager w) (entityManager w) qm (state w)).

(** The archetype that holds [entity], if any. *)
Definition entityArchetype (w : t) (entity : nat) : option Archetype.t :=
  ArchetypeManager.getEntityArchetype (archetypeManager w) entity
    ≫= (ArchetypeManager.registry (archetypeManager w) !!.).
End World.

(** ** Statements of the specification *)

(** The matching condition as the specification words it, over the mask
    words: [(t & q.and) == q.and], [(t & q.not) == 0], and [q.or == 0] or
    [(t & q.or) != 0], with [&] the bitwise conjunction of the words. *)
Definition specQueryMatch (t : BooleanArray.t) (q : QueryInstance) : Prop :=
  (∀ i, (i < BooleanArray.length t)%nat →
        Z.land (BooleanArray.word t i) (BooleanArray.word (q_and q) i)
        = BooleanArray.word (q_and q) i)
  ∧ (∀ i, (i < BooleanArray.length t)%nat →
          Z.land (BooleanArray.word t i) (BooleanArray.word (q_not q) i) = 0)
  ∧ (Forall (λ w, w = 0) (BooleanArray.buffer (q_or q))
     ∨ ∃ i, (i < BooleanArray.length t)%nat
            ∧ Z.land (BooleanArray.word t i) (BooleanArray.word (q_or q) i) ≠ 0).

(** A bit set whose words are elements of a [Uint32Array]. *)
Definition uint32Words (a : BooleanArray.t) : Prop :=
  Forall JS.uint32 (BooleanArray.buffer a).

(** A query instance with the given masks, as [createQueryInstance] lays it out. *)
Definition queryOfMasks (and or not : BooleanArray.t) : QueryInstance :=
  mkQueryInstance and or not ∅ ∅ true
    (BooleanArray.buffer and, BooleanArray.buffer or, BooleanArray.buffer not).

(** The proxy-mediated write as the specification words it: with the
    cursor at [e], writing [v] to field [key] stores [v] and sets the
    changed bit at [e] when [v] differs from the stored value and changes
    nothing when it equals it; the field then reads as the stored value
    [partition[key][e]], which is [v].  Two numbers differ when [!==]
    says so; the value read is [v] itself or, where nothing was written,
    the stored number that [===] equates with [v]. *)
Definition specProxyWrite (p : StorageProxy.t) (storage : Storage)
    (changed : BooleanArray.t) (key : string) (e : nat) (v : JSNumber.t) : Prop :=
  ∃ pe store stored,
    StorageProxy.set_entity p (Z.of_nat e) = (Ok tt, pe)
    ∧ storage !! key = Some store
    ∧ TypedArray.get store e = Some stored
    ∧ let storage' := fst (StorageProxy.setField pe storage changed key v) in
      let changed' := snd (StorageProxy.setField pe storage changed key v) in
      let slot := storage' !! key ≫= (λ view, TypedArray.get view e) in
      (JSNumber.strictEq stored v = false →
       slot = Some v ∧ BooleanArray.get changed' e = true)
      ∧ (JSNumber.strictEq stored v = true → storage' = storage ∧ changed' = changed)
      ∧ StorageProxy.getField pe storage' key = slot
      ∧ ∃ r, StorageProxy.getField pe storage' key = Some r
             ∧ (r = v ∨ JSNumber.strictEq r v = true).


(** ** Well-formed managers *)

(** An instance whose descriptor has its two bit sets, of the world's capacity. *)
Definition knownInstance (capacity : nat) (cm : ComponentManager.t) (i : ComponentInstance) : Prop :=
  ∃ o c,
    ComponentManager.owners cm !! c_ref (ci_type i) = Some o
    ∧ BooleanArray.wf capacity o
    ∧ ComponentManager.changed cm !! c_ref (ci_type i) = Some c
    ∧ BooleanArray.wf capacity c.

(** The shape that the constructor of the component manager establishes
    and every operation keeps: each registered instance is stored under
    its own descriptor and has its owner and changed bit sets. *)
Definition cm_wf (capacity : nat) (cm : ComponentManager.t) : Prop :=
  (∀ proto i, JS.map_get proto (ComponentManager.registry cm) = Some i →
              c_ref (ci_type i) = proto ∧ knownInstance capacity cm i)
  ∧ (∀ name i, ComponentManager.registryByName cm !! name = Some i →
               knownInstance capacity cm i
               ∧ is_Some (JS.map_get (c_ref (ci_type i)) (ComponentManager.registry cm))).

(** ** Sample data *)

Definition positionComponent : Component :=
  mkComponent 0 "position" (Some [("x", F32); ("y", F32)]).
Definition activeComponent : Component := mkComponent 1 "active" None.
Definition ghostComponent : Component := mkComponent 2 "ghost" None.

(** The number 0.5. *)
Definition oneHalf : JSNumber.t := SpecFloat.S754_finite false 4503599627370496 (-53).

(** [n] successive calls of [create]: the results in call order and the
    manager after the last call. *)
Fixpoint createN (n : nat) (m : EntityManager.t) : list (option nat) * EntityManager.t :=
  match n with
  | O => ([], m)
  | S n' =>
      let '(e, m1) := EntityManager.create m in
      let '(es, m2) := createN n' m1 in
      (e :: es, m2)
  end.

(** The value of an operation that does not throw. *)
Definition unwrap {A} (d : A) (r : Result A) : A :=
  match r with
  | Ok a => a
  | Throw _ => d
  end.

(** A world of capacity 2 over the tag [activeComponent], before [init]. *)
Definition sampleWorld : World.t :=
  World.mk (ArchetypeManager.new 2 1) (ComponentManager.new 2 [activeComponent])
           (EntityManager.mk (BitPool.new 2)) (QueryManager.new 2) uninitialized.

(** The query [{ all: [activeComponent] }]. *)
Definition sampleQuery : Query := mkQuery 0 [activeComponent] [] [].

(** [sampleWorld] after [init], [addToEntity(active, 0)], a first
    [entities.query(sampleQuery)] and [addToEntity(active, 1)]. *)
Definition sampleWorldQueried : World.t :=
  let w := unwrap sampleWorld (World.init sampleWorld) in
  let w := unwrap w (World.addComponentToEntity w (ByRef activeComponent) 0 None) in
  let w := unwrap w (rbind (World.queryEntities w sampleQuery) (λ r, Ok (snd r))) in
  unwrap w (World.addComponentToEntity w (ByRef activeComponent) 1 None).

(** The world with [queryManager.invalidate(query)] called on it. *)
Definition invalidateQuery (w : World.t) (query : option Query) : World.t :=
  World.mk (World.archetypeManager w) (World.componentManager w) (World.entityManager w)
           (QueryManager.invalidate (World.queryManager w) query) (World.state w).

(** ** Reachable worlds and their invariants *)

(** The entity arguments that a caller may pass: any id below the
    capacity ([inRange]), or only the ids of active entities ([live]). *)
Definition inRange (w : World.t) (e : nat) : Prop :=
  (e < EntityManager.capacity (World.entityManager w))%nat.

Definition live (w : World.t) (e : nat) : Prop :=
  EntityManager.isActive (World.entityManager w) e = true.

Definition withComponents (w : World.t) (cm : ComponentManager.t) : World.t :=
  World.mk (World.archetypeManager w) cm (World.entityManager w)
           (World.queryManager w) (World.state w).

(** One call of the public API that returns normally.  [valid] is the
    condition on the entity argument of the call. *)
Inductive step (valid : World.t → nat → Prop) : World.t → World.t → Prop :=
| step_init w w' :
    World.init w = Ok w' → step valid w w'
| step_destroy w w' :
    World.destroy w = Ok w' → step valid w w'
| step_refresh w retainChanged w' :
    World.refresh w retainChanged = Ok w' → step valid w w'
| step_createEntity w e w' :
    World.createEntity w = (e, w') → step valid w w'
| step_destroyEntity w e w' :
    valid w e → World.destroyEntity w e = Ok w' → step valid w w'
| step_addComponent w component e data w' :
    valid w e → World.addComponentToEntity w component e data = Ok w' → step valid w w'
| step_removeComponent w component e w' :
    valid w e → World.removeComponentFromEntity w component e = Ok w' → step valid w w'
| step_registerQuery w query instance w' :
    World.registerQuery w query = Ok (instance, w') → step valid w w'
| step_queryEntities w query result w' :
    World.queryEntities w query = Ok (result, w') → step valid w w'
| step_queryComponents w query result w' :
    World.queryComponents w query = Ok (result, w') → step valid w w'
| step_proxySetEntity w proto value cm :
    ComponentManager.proxySetEntity (World.componentManager w) proto value = Ok cm →
    step valid w (withComponents w cm)
| step_proxySet w proto key value :
    step valid w (withComponents w
                    (ComponentManager.proxySet (World.componentManager w) proto key value)).

(** The worlds that a constructed world reaches by such calls. *)
Definition reachable (valid : World.t → nat → Prop) (w : World.t) : Prop :=
  ∃ MAX_CAPACITY capacity components w0,
    World.new MAX_CAPACITY capacity components = Ok w0 ∧ rtc (step valid) w0 w.

(** The membership invariant of the archetype store [reg] and the
    entity-to-archetype array [arr]: an entity's archetype holds it, and
    only that archetype does. *)
Definition membership (cap : nat) (reg : gmap ArchId Archetype.t)
    (arr : list (option ArchId)) : Prop :=
  List.length arr = cap
  ∧ (∀ k a, reg !! k = Some a → BooleanArray.wf cap (Archetype.entities a))
  ∧ (∀ e k, JS.array_get arr e = Some k →
            ∃ a, reg !! k = Some a ∧ BooleanArray.get (Archetype.entities a) e = true)
  ∧ (∀ e k a, (e < cap)%nat → reg !! k = Some a →
              BooleanArray.get (Archetype.entities a) e = true →
              JS.array_get arr e = Some k).

Definition arch_inv (m : ArchetypeManager.t) : Prop :=
  is_Some (ArchetypeManager.registry m !! ArchetypeManager.root m)
  ∧ ArchetypeManager.root m
    = BooleanArray.buffer (BooleanArray.new (ArchetypeManager.componentCount m))
  ∧ membership (ArchetypeManager.capacity m) (ArchetypeManager.registry m)
               (ArchetypeManager.entityArchetypes m).

(** Every slot of the entity-to-archetype array holds an archetype. *)
Definition seated (m : ArchetypeManager.t) : Prop :=
  ∀ e, (e < ArchetypeManager.capacity m)%nat →
       is_Some (ArchetypeManager.getEntityArchetype m e).

Definition world_inv (w : World.t) : Prop :=
  arch_inv (World.archetypeManager w)
  ∧ EntityManager.capacity (World.entityManager w)
    = ArchetypeManager.capacity (World.archetypeManager w)
  ∧ cm_wf (ArchetypeManager.capacity (World.archetypeManager w)) (World.componentManager w)
  ∧ (World.state w ≠ uninitialized → seated (World.archetypeManager w)).

(** The slots of the ids that are not active hold the root archetype. *)
Definition idle_in_root (w : World.t) : Prop :=
  World.state w ≠ uninitialized →
  ∀ e, (e < ArchetypeManager.capacity (World.archetypeManager w))%nat →
       EntityManager.isActive (World.entityManager w) e = false →
       ArchetypeManager.getEntityArchetype (World.archetypeManager w) e
       = Some (ArchetypeManager.root (World.archetypeManager w)).

(** The entity [e] is a member of exactly one archetype, the one that the
    entity-to-archetype array holds at index [e]. *)
Definition inOneArchetype (w : World.t) (e : nat) : Prop :=
  ∃ k a,
    ArchetypeManager.getEntityArchetype (World.archetypeManager w) e = Some k
    ∧ ArchetypeManager.registry (World.archetypeManager w) !! k = Some a
    ∧ BooleanArray.get (Archetype.entities a) e = true
    ∧ ∀ k' a', ArchetypeManager.registry (World.archetypeManager w) !! k' = Some a' →
               BooleanArray.get (Archetype.entities a') e = true → k' = k.

(** The entity that [create] returns is seated in the root archetype. *)
Definition createdInRoot (w : World.t) : Prop :=
  ∀ e w', World.createEntity w = (Some e, w') →
          ArchetypeManager.isEntityInRoot (World.archetypeManager w') e = true.

(** Invariant A1 as the specification words it, at a world [w]: every
    active entity is in exactly one archetype, the root immediately after
    creation. *)
Definition specOneArchetype (w : World.t) : Prop :=
  (∀ e, EntityManager.isActive (World.entityManager w) e = true → inOneArchetype w e)
  ∧ createdInRoot w.

(** The sequence add, remove, add of [component] on [e], and what the
    specification says of the world after it: the entity's archetype has
    the entered bit of [e] set and its exited bit clear, and the changed
    bit of the component at [e] is set. *)
Definition addRemoveAdd (w : World.t) (component : ComponentArg) (e : nat)
    (data1 data2 : option (list (string * JSNumber.t))) : Result World.t :=
  w1 ← World.addComponentToEntity w component e data1 ;;;
  w2 ← World.removeComponentFromEntity w1 component e ;;;
  World.addComponentToEntity w2 component e data2.

Definition specAddRemoveAdd (w : World.t) (component : ComponentArg) (e : nat)
    (data1 data2 : option (list (string * JSNumber.t))) : Prop :=
  ∃ w3 type a,
    addRemoveAdd w component e data1 data2 = Ok w3
    ∧ World.getComponentByName w component = Ok type
    ∧ World.entityArchetype w3 e = Some a
    ∧ BooleanArray.get (Archetype.entered a) e = true
    ∧ BooleanArray.get (Archetype.exited a) e = false
    ∧ ComponentManager.changedBit (World.componentManager w3) (c_ref type) e = true.

(** [sampleWorld] after [init]. *)
Definition sampleWorldReady : World.t := unwrap sampleWorld (World.init sampleWorld).

(** A world of capacity 1 over [activeComponent], after [init] and
    [addToEntity(active, 0)], entity 0 not having been created. *)
Definition sampleWorldIdle : World.t :=
  let w := World.mk (ArchetypeManager.new 1 1) (ComponentManager.new 1 [activeComponent])
                    (EntityManager.mk (BitPool.new 1)) (QueryManager.new 1) uninitialized in
  let w := unwrap w (World.init w) in
  unwrap w (World.addComponentToEntity w (ByRef activeComponent) 0 None).

(** The fields of the archetype manager that no operation after the
    constructor changes. *)
Definition sameFrame (m m' : ArchetypeManager.t) : Prop :=
  ArchetypeManager.capacity m' = ArchetypeManager.capacity m
  ∧ ArchetypeManager.root m' = ArchetypeManager.root m
  ∧ ArchetypeManager.componentCount m' = ArchetypeManager.componentCount m.

(** The world [w'] that an add or a remove leaves: the component manager
    [cm1] of the registry call, and the archetype manager [am1] of
    [update], refreshed when the world is initialized. *)
Definition afterUpdate (w : World.t) (cm1 : ComponentManager.t) (am1 : ArchetypeManager.t)
    (w' : World.t) : Prop :=
  World.entityManager w' = World.entityManager w
  ∧ World.componentManager w' = cm1
  ∧ World.state w' = World.state w
  ∧ World.archetypeManager w'
    = if decide (World.state w = initialized)
      then fst (ArchetypeManager.refresh am1 (QueryManager.instancesByID (World.queryManager w)))
      else am1.

(** The operations of the component manager after the constructor keep
    the registries and replace bit sets by bit sets of the same size. *)
Definition sameShape (cap : nat) (cm cm' : ComponentManager.t) : Prop :=
  ComponentManager.registry cm' = ComponentManager.registry cm
  ∧ ComponentManager.registryByName cm' = ComponentManager.registryByName cm
  ∧ (∀ k o, ComponentManager.owners cm !! k = Some o → BooleanArray.wf cap o →
            ∃ o', ComponentManager.owners cm' !! k = Some o' ∧ BooleanArray.wf cap o')
  ∧ (∀ k c, ComponentManager.changed cm !! k = Some c → BooleanArray.wf cap c →
            ∃ c', ComponentManager.changed cm' !! k = Some c' ∧ BooleanArray.wf cap c').

(** Two states of the archetype manager with the same seats: the one a
    refresh produces from the other, or the same one. *)
Definition sameSeats (m m' : ArchetypeManager.t) : Prop :=
  sameFrame m m'
  ∧ ArchetypeManager.entityArchetypes m' = ArchetypeManager.entityArchetypes m
  ∧ (arch_inv m → arch_inv m').

(** A call that moves no entity: the seats, the entity manager and the
    state are kept, the component manager keeps its shape. *)
Definition quietStep (w w' : World.t) : Prop :=
  sameSeats (World.archetypeManager w) (World.archetypeManager w')
  ∧ sameShape (ArchetypeManager.capacity (World.archetypeManager w))
              (World.componentManager w) (World.componentManager w')
  ∧ World.entityManager w' = World.entityManager w
  ∧ (World.state w' = World.state w
     ∨ (World.state w = initialized ∧ World.state w' = destroyed)).

(** The id pool of the world holds one bit per id. *)
Definition pool_wf (w : World.t) : Prop :=
  BitPool.wf (EntityManager.pool (World.entityManager w)).

(** [sampleWorldReady] after a first [create]. *)
Definition sampleWorldOne : World.t := snd (World.createEntity sampleWorldReady).

(** What an add or a remove leaves in an initialized world. *)
Definition settled (w w' : World.t) : Prop :=
  world_inv w' ∧ World.state w' = initialized
  ∧ World.entityManager w' = World.entityManager w
  ∧ sameShape (ArchetypeManager.capacity (World.archetypeManager w))
              (World.componentManager w) (World.componentManager w')
  ∧ ArchetypeManager.capacity (World.archetypeManager w')
    = ArchetypeManager.capacity (World.archetypeManager w)
  ∧ ∀ k a e, ArchetypeManager.registry (World.archetypeManager w') !! k = Some a →
             BooleanArray.get (Archetype.entered a) e = false
             ∧ BooleanArray.get (Archetype.exited a) e = false.

(** ** Component data access of the component manager *)

(** [ComponentManager.setEntityData].  [value] is [None] for a missing
    value; the loop over the keys of [value] is [copyData].  An inherited
    value has no [storage]. *)
Definition setEntityData (cm : ComponentManager.t) (component : ComponentArg)
    (entity : nat) (value : option (list (string * JSNumber.t))) : ComponentManager.t :=
  match ComponentManager.getInstance cm component ≫= instanceOf, value with
  | Some instance, Some v =>
      let type := c_ref (ci_type instance) in
      match ComponentManager.storages cm !! type with
      | Some storage =>
          ComponentManager.mk (ComponentManager.changed cm) (ComponentManager.owners cm)
            (ComponentManager.registry cm) (ComponentManager.registryByName cm)
            (<[type := ComponentManager.copyData storage entity v]> (ComponentManager.storages cm))
            (ComponentManager.proxies cm)
      | None => cm
      end
  | _, _ => cm
  end.

(** [ComponentManager.getEntityData]: the record with one entry per field
    of the partition, [storage[key][entity] ?? NaN]. *)
Definition getEntityData (cm : ComponentManager.t) (component : ComponentArg)
    (entity : nat) : option (gmap string JSNumber.t) :=
  match ComponentManager.getInstance cm component ≫= instanceOf with
  | None => None
  | Some instance =>
      match ComponentManager.storages cm !! c_ref (ci_type instance) with
      | None => None
      | Some storage =>
          Some ((λ view, default JSNumber.NaN (TypedArray.get view entity)) <$> storage)
      end
  end.

(** ** Queries (query.ts) *)

Module QueryClass.
(** A query specification: each of the three arrays may be missing. *)
Record QuerySpec : Type := mkQuerySpec {
  spec_all : option (list Component);
  spec_any : option (list Component);
  spec_none : option (list Component)
}.

(** [array.includes(c)]: components are compared by identity. *)
Definition includes (array : list Component) (c : Component) : bool :=
  bool_decide (c_ref c ∈ c_ref <$> array).

(** [a && b && a.some((c) => b.includes(c))] *)
Definition someIncluded (a b : option (list Component)) : bool :=
  match a, b with
  | Some a, Some b => existsb (includes b) a
  | _, _ => false
  end.

(** [isValidQuerySpec] on an object whose arrays, where present, hold
    components: [isValidComponentArray] is then true of each of them. *)
Definition isValidQuerySpec (spec : QuerySpec) : bool :=
  match spec_all spec, spec_any spec, spec_none spec with
  | None, None, None => false
  | all, any, none =>
      if someIncluded all any then false
      else if someIncluded all none then false
      else if someIncluded any all then false
      else if someIncluded any none then false
      else if someIncluded none all then false
      else if someIncluded none any then false
      else true
  end.

(** [[...new Set(array)]], run as the set is filled: an element is kept
    unless its identity is among those met so far ([seen]). *)
Fixpoint uniqueFrom (seen : list nat) (array : list Component) : list Component :=
  match array with
  | [] => []
  | c :: rest =>
      if bool_decide (c_ref c ∈ seen) then uniqueFrom seen rest
      else c :: uniqueFrom (c_ref c :: seen) rest
  end.

(** The constructor of [Query]; [ref] is the identity of the new object. *)
Definition new (ref : nat) (spec : QuerySpec) : Result Query :=
  if negb (isValidQuerySpec spec) then Throw SpecError
  else Ok (mkQuery ref (uniqueFrom [] (default [] (spec_all spec)))
                       (uniqueFrom [] (default [] (spec_any spec)))
                       (uniqueFrom [] (default [] (spec_none spec)))).

(** [Query.compose] *)
Definition compose (ref : nat) (queries : list Query) : Result Query :=
  new ref (mkQuerySpec (Some (queries ≫= q_all)) (Some (queries ≫= q_any))
                       (Some (queries ≫= q_none))).
End QueryClass.

(** The components of an array in the order of their first occurrence, as
    the specification of a de-duplicated array words it: the element at
    index [i] stays exactly when no element before [i] has its identity. *)
Definition firstOccurrences (array : list Component) : list Component :=
  omap id (imap (λ i c, if bool_decide (c_ref c ∈ c_ref <$> take i array)
                        then None else Some c) array).

(** ** World: lifecycle order and the entered and exited queries *)

(** The order in which a world passes through its states. *)
Definition stateRank (s : WorldState) : nat :=
  match s with
  | uninitialized => 0
  | initialized => 1
  | destroyed => 2
  | error => 3
  end.

(** The loop of the generators [queryEnteredEntities] and
    [queryExitedEntities] run to its end: every entity is yielded once, at
    its first occurrence. *)
Definition yieldOnce (visited : BooleanArray.t) (members : list nat) : list nat :=
  fst (foldl (λ ov entity,
                if BooleanArray.get (snd ov) entity then ov
                else (fst ov ++ [entity], BooleanArray.set (snd ov) entity true))
             ([], visited) members).

(** The body shared by the two generators; [pick] is [getEntered] or
    [getExited].  [visitedArchetypeEntities] is cleared on entry, so it is
    a fresh bit set of the world's capacity here.  The archetypes of the
    set are visited in the order of [elements]. *)
Definition queryMoved (pick : Archetype.t → list nat) (w : World.t) (query : Query)
    : Result (list nat * World.t) :=
  r ← World.registerQuery w query ;;;
  let '(queryInstance, w) := r in
  let am := World.archetypeManager w in
  match ArchetypeManager.query am queryInstance with
  | None => Ok ([], w)
  | Some archetypes =>
      let members :=
        mjoin ((λ k, match ArchetypeManager.registry am !! k with
                     | Some a => pick a
                     | None => []
                     end) <$> elements archetypes) in
      Ok (yieldOnce (BooleanArray.clear
                       (BooleanArray.new (EntityManager.capacity (World.entityManager w))))
                    members,
          w)
  end.

Definition queryEnteredEntities : World.t → Query → Result (list nat * World.t) :=
  queryMoved Archetype.getEntered.

Definition queryExitedEntities : World.t → Query → Result (list nat * World.t) :=
  queryMoved Archetype.getExited.

(** * Properties *)

(** ** Bit sets *)

Section BooleanArrayFacts.
Import BooleanArray.

Lemma ba_word_set_eq a i b :
  (i / 32 < List.length (buffer a))%nat →
  word (set a i b) (i / 32) =
    if b then Z.setbit (word a (i / 32)) (Z.of_nat (i mod 32))
    else Z.clearbit (word a (i / 32)) (Z.of_nat (i mod 32)).
Proof.
  intros Hlt. unfold word at 1, set. simpl.
  by rewrite list_lookup_insert_eq.
Qed.

Lemma ba_word_set_ne a i b k :
  k ≠ (i / 32)%nat → word (set a i b) k = word a k.
Proof.
  intros Hne. unfold word, set. simpl.
  by rewrite list_lookup_insert_ne.
Qed.

Lemma ba_word_set_ge a i b k :
  (List.length (buffer a) <= i / 32)%nat → word (set a i b) k = word a k.
Proof.
  intros Hge. unfold word, set. simpl.
  by rewrite list_insert_ge.
Qed.

Lemma ba_get_set_eq a i b :
  (i / 32 < List.length (buffer a))%nat → get (set a i b) i = b.
Proof.
  intros Hlt. unfold get. rewrite ba_word_set_eq by done.
  destruct b.
  - apply Z.setbit_eq. lia.
  - apply Z.clearbit_eq.
Qed.

Lemma ba_get_set_false a i : get (set a i false) i = false.
Proof.
  destruct (decide (i / 32 < List.length (buffer a))%nat) as [Hlt|Hge].
  - by apply ba_get_set_eq.
  - unfold get. rewrite ba_word_set_ge by lia.
    unfold word. rewrite lookup_ge_None_2 by lia. simpl.
    apply Z.testbit_0_l.
Qed.

Lemma ba_index_split (i j : nat) :
  i ≠ j → (i / 32 ≠ j / 32 ∨ i mod 32 ≠ j mod 32)%nat.
Proof.
  intros Hne.
  destruct (decide (i / 32 = j / 32)%nat) as [Hq|]; [right|by left].
  intros Hr. apply Hne.
  rewrite (Nat.div_mod_eq i 32), (Nat.div_mod_eq j 32). lia.
Qed.

Lemma ba_get_set_ne a i j b : i ≠ j → get (set a i b) j = get a j.
Proof.
  intros Hne. unfold get.
  destruct (decide (j / 32 = i / 32)%nat) as [Hq|Hq].
  - destruct (decide (i / 32 < List.length (buffer a))%nat) as [Hlt|Hge].
    + rewrite Hq, ba_word_set_eq by done.
      destruct (ba_index_split i j Hne) as [?|Hr]; [congruence|].
      destruct b.
      * apply Z.setbit_neq; lia.
      * apply Z.clearbit_neq. lia.
    + by rewrite ba_word_set_ge by lia.
  - by rewrite ba_word_set_ne.
Qed.

Lemma ba_get_set a i j b :
  (i / 32 < List.length (buffer a))%nat →
  get (set a i b) j = if decide (i = j) then b else get a j.
Proof.
  intros Hlt. case_decide as Hij.
  - subst. by apply ba_get_set_eq.
  - by apply ba_get_set_ne.
Qed.

Lemma ba_word_zeros n k : default 0 (replicate n 0 !! k) = 0.
Proof.
  destruct (replicate n 0 !! k) as [w|] eqn:Hw; [|done].
  by apply lookup_replicate in Hw as [-> _].
Qed.

Lemma ba_get_clear a i : get (clear a) i = false.
Proof. unfold get, word, clear. simpl. rewrite ba_word_zeros. apply Z.testbit_0_l. Qed.

Lemma ba_get_new n i : get (new n) i = false.
Proof. unfold get, word, new. simpl. rewrite ba_word_zeros. apply Z.testbit_0_l. Qed.

Lemma ba_wf_new n : wf n (new n).
Proof. split; [done|]. simpl. by rewrite length_replicate. Qed.

Lemma ba_wf_set n a i b : wf n a → wf n (set a i b).
Proof. intros [Hs Hl]. split; [done|]. simpl. by rewrite length_insert. Qed.

Lemma ba_wf_clear n a : wf n a → wf n (clear a).
Proof. intros [Hs Hl]. split; [done|]. simpl. by rewrite length_replicate. Qed.

Lemma ba_wf_index n a i : wf n a → (i < n)%nat → (i / 32 < List.length (buffer a))%nat.
Proof.
  intros [_ Hl] Hi. rewrite Hl. unfold wordCount.
  apply Nat.Div0.div_lt_upper_bound.
  pose proof (Nat.div_mod_eq (n + 31) 32) as Hd.
  pose proof (Nat.mod_upper_bound (n + 31) 32). lia.
Qed.

Lemma ba_get_set_wf n a i j b :
  wf n a → (i < n)%nat →
  get (set a i b) j = if decide (i = j) then b else get a j.
Proof. intros Hwf Hi. apply ba_get_set. by eapply ba_wf_index. Qed.

Lemma ba_clear_new n : clear (new n) = new n.
Proof. unfold clear, new. simpl. by rewrite length_replicate. Qed.
End BooleanArrayFacts.

(** ** Archetype membership *)

(** C9. [Archetype.addEntity] changes nothing when the entity is already
    a member, [Archetype.removeEntity] changes nothing when it is not a
    member, and removing a member clears its entered bit. *)
Theorem archetype_add_remove_noop (a : Archetype.t) (e : nat) :
  (BooleanArray.get (Archetype.entities a) e = true → Archetype.addEntity a e = a)
  ∧ (BooleanArray.get (Archetype.entities a) e = false → Archetype.removeEntity a e = a)
  ∧ (BooleanArray.get (Archetype.entities a) e = true →
     BooleanArray.get (Archetype.entered (Archetype.removeEntity a e)) e = false).
Proof.
  split; [|split].
  - intros Hm. unfold Archetype.addEntity. by rewrite Hm.
  - intros Hm. unfold Archetype.removeEntity. by rewrite Hm.
  - intros Hm. unfold Archetype.removeEntity. rewrite Hm. simpl.
    apply ba_get_set_false.
Qed.

Lemma archetype_add_remove_noop_witness :
  let a0 := Archetype.new 4 [] None in
  let a1 := Archetype.addEntity a0 2 in
  Archetype.addEntity a1 2 = a1
  ∧ Archetype.removeEntity a0 2 = a0
  ∧ BooleanArray.get (Archetype.entered (Archetype.removeEntity a1 2)) 2 = false.
Proof.
  intros a0 a1.
  destruct (archetype_add_remove_noop a1 2) as (Hadd & _ & Hent).
  destruct (archetype_add_remove_noop a0 2) as (_ & Hrem & _).
  split; [apply Hadd; reflexivity|].
  split; [apply Hrem; reflexivity|apply Hent; reflexivity].
Defined.

(** ** 32-bit words and [isQueryMatch] *)

Section Words.
Import BooleanArray.

Lemma uint32_high_bits x k : JS.uint32 x → 32 <= k → Z.testbit x k = false.
Proof.
  intros [H0 H1] Hk.
  destruct (decide (x = 0)) as [->|Hx]; [apply Z.testbit_0_l|].
  apply Z.bits_above_log2; [lia|].
  assert (Z.log2 x < 32); [|lia].
  apply Z.log2_lt_pow2; lia.
Qed.

Lemma toInt32_testbit x k :
  JS.uint32 x → 0 <= k → Z.testbit (JS.toInt32 x) k = Z.testbit x (Z.min k 31).
Proof.
  intros Hx Hk. pose proof Hx as [H0 H1]. unfold JS.toInt32.
  rewrite Z.mod_small by done.
  destruct (Z.leb_spec (2 ^ 31) x) as [Hge|Hlt].
  - assert (Z.testbit x 31 = true) as H31.
    { rewrite Z.testbit_true by lia.
      assert (x / 2 ^ 31 = 1) as -> by (symmetry; apply Z.div_unique with (r := x - 2 ^ 31); lia).
      done. }
    destruct (Z.lt_ge_cases k 32) as [Hlow|Hhigh].
    + destruct (decide (k = 31)) as [->|]; [|rewrite Z.min_l by lia].
      * rewrite Z.min_l by lia. rewrite H31.
        rewrite <- (Z.mod_pow2_bits_low _ 32) by lia.
        replace ((x - 2 ^ 32) mod 2 ^ 32) with (x mod 2 ^ 32).
        { rewrite Z.mod_pow2_bits_low by lia. done. }
        replace (x - 2 ^ 32) with (x + (-1) * 2 ^ 32) by lia.
        by rewrite Z.mod_add by lia.
      * rewrite <- (Z.mod_pow2_bits_low _ 32) by lia.
        replace ((x - 2 ^ 32) mod 2 ^ 32) with (x mod 2 ^ 32).
        { by rewrite Z.mod_pow2_bits_low by lia. }
        replace (x - 2 ^ 32) with (x + (-1) * 2 ^ 32) by lia.
        by rewrite Z.mod_add by lia.
    + rewrite Z.min_r by lia. rewrite H31.
      apply Z.bits_iff_neg; [|lia].
      assert (Z.abs (x - 2 ^ 32) <= 2 ^ 31) as Habs by lia.
      pose proof (Z.log2_le_mono _ _ Habs) as Hlog.
      change (Z.log2 (2 ^ 31)) with 31 in Hlog. lia.
  - assert (∀ j, 31 <= j → Z.testbit x j = false) as Hhi.
    { intros j Hj. destruct (decide (x = 0)) as [->|Hx0]; [apply Z.testbit_0_l|].
      apply Z.bits_above_log2; [lia|].
      assert (Z.log2 x < 31); [|lia]. apply Z.log2_lt_pow2; lia. }
    destruct (Z.lt_ge_cases k 31) as [Hlow|Hhigh].
    + by rewrite Z.min_l by lia.
    + rewrite Z.min_r by lia. by rewrite !Hhi by lia.
Qed.

Lemma band_testbit t x k :
  JS.uint32 t → JS.uint32 x → 0 <= k →
  Z.testbit (JS.band t x) k = Z.testbit (Z.land t x) (Z.min k 31).
Proof.
  intros Ht Hx Hk. unfold JS.band.
  by rewrite !Z.land_spec, !toInt32_testbit.
Qed.

Lemma band_zero_iff t x :
  JS.uint32 t → JS.uint32 x → JS.band t x = 0 ↔ Z.land t x = 0.
Proof.
  intros Ht Hx. split; intros Hz.
  - apply Z.bits_inj'. intros k Hk. rewrite Z.bits_0.
    destruct (Z.lt_ge_cases k 32) as [Hlow|Hhigh].
    + pose proof (band_testbit t x k Ht Hx Hk) as Hb.
      rewrite Hz, Z.bits_0 in Hb.
      destruct (decide (k = 31)) as [->|]; [by rewrite Z.min_l in Hb by lia|].
      by rewrite Z.min_l in Hb by lia.
    + rewrite Z.land_spec, (uint32_high_bits t) by done. done.
  - apply Z.bits_inj'. intros k Hk.
    by rewrite band_testbit, Hz, !Z.bits_0.
Qed.

Lemma band_low_mask t x :
  JS.uint32 t → 0 <= x < 2 ^ 31 → JS.band t x = Z.land t x.
Proof.
  intros Ht Hx.
  assert (JS.uint32 x) as Hx32 by (unfold JS.uint32; lia).
  apply Z.bits_inj'. intros k Hk. rewrite band_testbit by done.
  destruct (Z.lt_ge_cases k 31) as [Hlow|Hhigh]; [by rewrite Z.min_l by lia|].
  rewrite Z.min_r by lia. rewrite !Z.land_spec.
  assert (∀ j, 31 <= j → Z.testbit x j = false) as Hhi.
  { intros j Hj. destruct (decide (x = 0)) as [->|Hx0]; [apply Z.testbit_0_l|].
    apply Z.bits_above_log2; [lia|].
    assert (Z.log2 x < 31); [|lia]. apply Z.log2_lt_pow2; lia. }
  rewrite !Hhi by lia. by rewrite !andb_false_r.
Qed.

Lemma popcount32_zero_iff w : JS.uint32 w → popcount32 w = 0%nat ↔ w = 0.
Proof.
  intros Hw. unfold popcount32. split.
  - intros Hlen. apply nil_length_inv in Hlen.
    apply Z.bits_inj'. intros k Hk. rewrite Z.bits_0.
    destruct (Z.lt_ge_cases k 32) as [Hlow|Hhigh]; [|by apply uint32_high_bits].
    destruct (Z.testbit w k) eqn:Hb; [|done].
    assert (Z.to_nat k ∈ filter (λ j : nat, Z.testbit w (Z.of_nat j) = true) (seq 0 32)) as Hin.
    { apply list_elem_of_filter. split; [by rewrite Z2Nat.id by lia|].
      apply elem_of_seq. lia. }
    rewrite Hlen in Hin. by apply not_elem_of_nil in Hin.
  - intros ->. reflexivity.
Qed.

Lemma getTruthyCount_zero_iff a :
  uint32Words a → getTruthyCount a = 0%nat ↔ Forall (λ w, w = 0) (buffer a).
Proof.
  unfold uint32Words, getTruthyCount. induction 1 as [|w ws Hw Hws IH]; simpl.
  - split; [constructor|done].
  - rewrite Forall_cons, <- IH, <- (popcount32_zero_iff w Hw). lia.
Qed.

Lemma word_uint32 a i : uint32Words a → JS.uint32 (word a i).
Proof.
  intros Ha. unfold word. destruct (buffer a !! i) as [w|] eqn:Hw; simpl.
  - by eapply (Forall_lookup_1 _ _ _ _ Ha).
  - unfold JS.uint32. lia.
Qed.
End Words.

Section QueryMatch.
Import BooleanArray.

Lemma and_check_iff t q n :
  uint32Words t → uint32Words (q_and q) →
  Forall (λ w, w < 2 ^ 31) (buffer (q_and q)) →
  forallb (λ i, JS.band (word t i) (word (q_and q) i) =? word (q_and q) i) (seq 0 n) = true
  ↔ ∀ i, (i < n)%nat → Z.land (word t i) (word (q_and q) i) = word (q_and q) i.
Proof.
  intros Ht Ha Hlow. rewrite forallb_forall.
  assert (∀ i, 0 <= word (q_and q) i < 2 ^ 31) as Hbound.
  { intros i. pose proof (word_uint32 _ i Ha) as [H0 _]. split; [done|].
    unfold word. destruct (buffer (q_and q) !! i) as [w|] eqn:Hw; simpl; [|lia].
    by eapply (Forall_lookup_1 _ _ _ _ Hlow). }
  split; intros H i Hi.
  - specialize (H i). rewrite in_seq in H.
    rewrite <- band_low_mask by auto using word_uint32.
    apply Z.eqb_eq, H. lia.
  - apply in_seq in Hi. apply Z.eqb_eq.
    rewrite band_low_mask by auto using word_uint32. apply H. lia.
Qed.

Lemma not_check_iff t x n :
  uint32Words t → uint32Words x →
  forallb (λ i, JS.band (word t i) (word x i) =? 0) (seq 0 n) = true
  ↔ ∀ i, (i < n)%nat → Z.land (word t i) (word x i) = 0.
Proof.
  intros Ht Hx. rewrite forallb_forall.
  split; intros H i Hi.
  - specialize (H i). rewrite in_seq in H.
    apply band_zero_iff; auto using word_uint32.
    apply Z.eqb_eq, H. lia.
  - apply in_seq in Hi. apply Z.eqb_eq.
    apply band_zero_iff; auto using word_uint32. apply H. lia.
Qed.

Lemma or_check_iff t x n :
  uint32Words t → uint32Words x →
  existsb (λ i, negb (JS.band (word t i) (word x i) =? 0)) (seq 0 n) = true
  ↔ ∃ i, (i < n)%nat ∧ Z.land (word t i) (word x i) ≠ 0.
Proof.
  intros Ht Hx. rewrite existsb_exists.
  split.
  - intros (i & Hi & Hb). exists i. apply in_seq in Hi. split; [lia|].
    apply negb_true_iff, Z.eqb_neq in Hb.
    intros Hz. apply Hb. apply band_zero_iff; auto using word_uint32.
  - intros (i & Hi & Hnz). exists i. split; [apply in_seq; lia|].
    apply negb_true_iff, Z.eqb_neq. intros Hz. apply Hnz.
    by apply band_zero_iff; auto using word_uint32.
Qed.
End QueryMatch.

(** C1 (as amended).  For a target with at least one bit set, and masks
    whose [and] words stay below bit 31, [isQueryMatch] is true exactly
    when the specification's three mask conditions hold; a target with no
    bit set never matches. *)
Theorem isQueryMatch_iff (t : BooleanArray.t) (q : QueryInstance) :
  uint32Words t → uint32Words (q_and q) → uint32Words (q_or q) → uint32Words (q_not q) →
  Forall (λ w, w < 2 ^ 31) (BooleanArray.buffer (q_and q)) →
  isQueryMatch t q = true
  ↔ (0 < BooleanArray.getTruthyCount t)%nat ∧ specQueryMatch t q.
Proof.
  intros Ht Ha Ho Hn Hlow. unfold isQueryMatch, specQueryMatch.
  pose proof (and_check_iff t q (BooleanArray.length t) Ht Ha Hlow) as Hand.
  pose proof (not_check_iff t (q_not q) (BooleanArray.length t) Ht Hn) as Hnot.
  pose proof (or_check_iff t (q_or q) (BooleanArray.length t) Ht Ho) as Hor.
  pose proof (getTruthyCount_zero_iff (q_or q) Ho) as Hzero.
  destruct (Nat.eqb_spec (BooleanArray.getTruthyCount t) 0) as [Hempty|Hne].
  { split; [done|]. intros [Hpos _]. lia. }
  destruct (forallb _ _) eqn:Hfa in |- *; simpl.
  2:{ split; [done|]. intros (_ & Hc & _). apply Hand in Hc. congruence. }
  destruct (forallb _ _) eqn:Hfn in |- *; simpl.
  2:{ split; [done|]. intros (_ & _ & Hc & _). apply Hnot in Hc. congruence. }
  destruct (Nat.ltb_spec 0 (BooleanArray.getTruthyCount (q_or q))) as [Hsome|Hnone].
  - rewrite Hor. split.
    + intros Hex. split; [lia|]. split; [by apply Hand|]. split; [by apply Hnot|by right].
    + intros (_ & _ & _ & [Hz|Hex]); [|done]. apply Hzero in Hz. lia.
  - split; [|done]. intros _. split; [lia|]. split; [by apply Hand|].
    split; [by apply Hnot|]. left. apply Hzero. lia.
Qed.

Lemma isQueryMatch_iff_witness :
  let t := BooleanArray.mk 3 [5] in
  let q := queryOfMasks (BooleanArray.mk 3 [1]) (BooleanArray.mk 3 [4]) (BooleanArray.mk 3 [2]) in
  isQueryMatch t q = true
  ↔ (0 < BooleanArray.getTruthyCount t)%nat ∧ specQueryMatch t q.
Proof.
  intros t q.
  apply (isQueryMatch_iff t q); subst t q; unfold uint32Words, JS.uint32; simpl;
    repeat (apply Forall_cons; split); try apply Forall_nil; lia.
Defined.

(** C1, counterexample: the root archetype's mask (no bit set) against a
    query with only a [none] set satisfies the three mask conditions, and
    [isQueryMatch] is false. *)
Lemma isQueryMatch_empty_target_counterexample :
  let t := BooleanArray.new 2 in
  let q := queryOfMasks (BooleanArray.new 2) (BooleanArray.new 2)
                        (BooleanArray.set (BooleanArray.new 2) 1 true) in
  ¬ (isQueryMatch t q = true ↔ specQueryMatch t q).
Proof.
  intros t q [_ Hback].
  assert (isQueryMatch t q = false) as Hfalse by reflexivity.
  rewrite Hback in Hfalse; [done|].
  split; [|split].
  - intros i Hi. change (i < 1)%nat in Hi. assert (i = 0%nat) as -> by lia. reflexivity.
  - intros i Hi. change (i < 1)%nat in Hi. assert (i = 0%nat) as -> by lia. reflexivity.
  - left. repeat constructor.
Qed.

(** The operator [&] yields a signed 32-bit integer, the mask words are
    unsigned: when bit 31 of an [and] word is required and present, the
    test [(t & and) !== and] of [isQueryMatch] holds and the match fails. *)
Example isQueryMatch_bit31 :
  let t := BooleanArray.set (BooleanArray.new 32) 31 true in
  let q := queryOfMasks (BooleanArray.set (BooleanArray.new 32) 31 true)
                        (BooleanArray.new 32) (BooleanArray.new 32) in
  isQueryMatch t q = false ∧ specQueryMatch t q.
Proof.
  intros t q. split; [reflexivity|].
  split; [|split].
  - intros i Hi. change (i < 1)%nat in Hi. assert (i = 0%nat) as -> by lia. reflexivity.
  - intros i Hi. change (i < 1)%nat in Hi. assert (i = 0%nat) as -> by lia. reflexivity.
  - left. repeat constructor.
Qed.

(** ** The storage proxy *)

Section Proxy.
Import StorageProxy.

Lemma set_entity_in_range p e :
  (e < capacity p)%nat → set_entity p (Z.of_nat e) = (Ok tt, mk e (capacity p)).
Proof.
  intros He. unfold set_entity.
  destruct (Z.ltb_spec (Z.of_nat e) 0); [lia|].
  destruct (Z.geb_spec (Z.of_nat e) (Z.of_nat (capacity p))); [lia|].
  simpl. by rewrite Nat2Z.id.
Qed.

Lemma typed_get_set_eq view e v :
  (e < List.length (TypedArray.elems view))%nat →
  TypedArray.get (TypedArray.set view e v) e = Some (TypedArray.convert (TypedArray.kind view) v).
Proof. intros He. unfold TypedArray.get, TypedArray.set. simpl. by apply list_lookup_insert_eq. Qed.
End Proxy.

(** C4 (as amended).  For a schema field [key] whose view has [capacity]
    elements, an entity [e] in range and a number [v] that the field's
    element kind stores unchanged, the proxy write stores [v] and sets the
    changed bit at [e] iff [v] differs ([!==]) from the stored value, and
    the field then reads as the stored value, which is [v] (the stored
    number that [===] equates with [v] where nothing was written). *)
Theorem proxy_write_tracked (p : StorageProxy.t) (storage : Storage)
    (changed : BooleanArray.t) (key : string) (store : TypedArray.t) (e : nat)
    (v : JSNumber.t) :
  storage !! key = Some store →
  List.length (TypedArray.elems store) = StorageProxy.capacity p →
  BooleanArray.wf (StorageProxy.capacity p) changed →
  (e < StorageProxy.capacity p)%nat →
  TypedArray.convert (TypedArray.kind store) v = v →
  specProxyWrite p storage changed key e v.
Proof.
  intros Hkey Hlen Hwf He Hrep.
  assert (is_Some (TypedArray.get store e)) as [stored Hstored].
  { apply lookup_lt_is_Some. lia. }
  exists (StorageProxy.mk e (StorageProxy.capacity p)), store, stored.
  split; [by apply set_entity_in_range|]. split; [done|]. split; [done|].
  unfold StorageProxy.setField, StorageProxy.getField, StorageProxy.differs.
  simpl. rewrite Hkey, Hstored.
  destruct (JSNumber.strictEq stored v) eqn:Heq; simpl.
  - rewrite Hkey. simpl. rewrite Hstored.
    split; [done|]. split; [done|]. split; [done|].
    exists stored. split; [done|]. by right.
  - rewrite !lookup_insert_eq. simpl.
    rewrite typed_get_set_eq, Hrep by lia.
    split; [intros _; split; [done|]|].
    { apply ba_get_set_eq. by eapply ba_wf_index. }
    split; [done|]. split; [done|].
    exists v. split; [done|]. by left.
Qed.

Lemma proxy_write_tracked_witness :
  let storage : Storage :=
    {[ "x" := TypedArray.mk F32 [JSNumber.ofZ 0; JSNumber.ofZ 7; JSNumber.ofZ 0] ]} in
  specProxyWrite (StorageProxy.new 3) storage (BooleanArray.new 3) "x" 1 oneHalf.
Proof.
  intros storage.
  apply (proxy_write_tracked (StorageProxy.new 3) storage (BooleanArray.new 3)
           "x" (TypedArray.mk F32 [JSNumber.ofZ 0; JSNumber.ofZ 7; JSNumber.ofZ 0])
           1 oneHalf).
  - reflexivity.
  - reflexivity.
  - split; reflexivity.
  - simpl. lia.
  - vm_compute. reflexivity.
Defined.

(** C4, counterexample: on a [u8] field holding 0 the write of 300 stores
    44, so the field does not read as 300 afterwards. *)
Lemma proxy_write_counterexample :
  let storage : Storage :=
    {[ "hp" := TypedArray.mk U8 [JSNumber.ofZ 0; JSNumber.ofZ 0] ]} in
  ¬ specProxyWrite (StorageProxy.new 2) storage (BooleanArray.new 2) "hp" 1
      (JSNumber.ofZ 300).
Proof.
  intros storage (pe & store & stored & Hpe & Hstore & Hstored & _ & _ & _ & Hread).
  assert (pe = StorageProxy.mk 1 2) as -> by (vm_compute in Hpe; congruence).
  destruct Hread as (r & Hr & Hor).
  vm_compute in Hr. injection Hr as <-.
  destruct Hor as [Hor|Hor]; vm_compute in Hor; discriminate Hor.
Qed.

(** What the element kinds do to a number: an [f32] view rounds 0.1 and
    stores an infinity for 2^128, an [i8] view truncates and wraps, and a
    NaN becomes 0 in an integer view. *)
Example convert_samples :
  TypedArray.convert F32 (JSNumber.ofZ (2 ^ 128)) = SpecFloat.S754_infinity false
  ∧ TypedArray.convert F32 (SpecFloat.S754_finite false 7205759403792794 (-56))
    = SpecFloat.S754_finite false 7205759511166976 (-56)
  ∧ TypedArray.convert F32 (JSNumber.ofZ 16777217) = JSNumber.ofZ 16777216
  ∧ TypedArray.convert I8 (SpecFloat.S754_finite true 7 (-1)) = JSNumber.ofZ (-3)
  ∧ TypedArray.convert I8 (JSNumber.ofZ 200) = JSNumber.ofZ (-56)
  ∧ TypedArray.convert U32 JSNumber.NaN = JSNumber.ofZ 0
  ∧ TypedArray.convert F64 JSNumber.NaN = JSNumber.NaN.
Proof. repeat split; vm_compute; reflexivity. Qed.

(** The setter compares with [!==]: a write of [-0] over [+0] stores
    nothing and sets no changed bit, a write of NaN over NaN stores and
    sets the changed bit. *)
Example proxy_write_zero_and_nan :
  let zero : Storage := {[ "x" := TypedArray.mk F64 [JSNumber.ofZ 0] ]} in
  let nan : Storage := {[ "x" := TypedArray.mk F64 [JSNumber.NaN] ]} in
  StorageProxy.setField (StorageProxy.new 1) zero (BooleanArray.new 1) "x"
    (SpecFloat.S754_zero true)
  = (zero, BooleanArray.new 1)
  ∧ snd (StorageProxy.setField (StorageProxy.new 1) nan (BooleanArray.new 1) "x" JSNumber.NaN)
    = BooleanArray.set (BooleanArray.new 1) 0 true.
Proof. split; vm_compute; reflexivity. Qed.



(** ** The component manager *)

Section InsertionOrderedMap.
Context {K V : Type} `{EqDecision K}.

Lemma map_get_Some_elem (k : K) (v : V) m : JS.map_get k m = Some v → (k, v) ∈ m.
Proof.
  induction m as [|[k' v'] m IH]; simpl; [done|].
  case_decide as Hk.
  - intros [= ->]. subst. apply elem_of_cons. by left.
  - intros Hm. apply elem_of_cons. right. by apply IH.
Qed.

Lemma map_get_None (k : K) (m : list (K * V)) : JS.map_get k m = None ↔ k ∉ m.*1.
Proof.
  induction m as [|[k' v'] m IH]; simpl.
  - split; [intros _; apply not_elem_of_nil|done].
  - rewrite not_elem_of_cons. case_decide as Hk.
    + split; [done|]. intros [? _]. done.
    + rewrite IH. split; [by split|by intros [_ ?]].
Qed.

Lemma map_get_NoDup (k : K) (v : V) m : NoDup m.*1 → (k, v) ∈ m → JS.map_get k m = Some v.
Proof.
  induction m as [|[k' v'] m IH]; simpl; intros Hnd Hin.
  - by apply elem_of_nil in Hin.
  - apply NoDup_cons in Hnd as [Hk' Hnd].
    apply elem_of_cons in Hin as [[= -> ->]|Hin].
    + by rewrite decide_True.
    + rewrite decide_False; [by apply IH|].
      intros ->. apply Hk'. apply list_elem_of_fmap. by exists (k', v).
Qed.

Lemma map_set_fresh (k : K) (v : V) m : k ∉ m.*1 → JS.map_set k v m = m ++ [(k, v)].
Proof.
  induction m as [|[k' v'] m IH]; simpl; [done|].
  rewrite not_elem_of_cons. intros [Hne Hk].
  rewrite decide_False by done. by rewrite IH.
Qed.
End InsertionOrderedMap.

Lemma typed_get_set view e e' v :
  TypedArray.get (TypedArray.set view e v) e'
  = if decide (e' = e ∧ e < length (TypedArray.elems view))%nat
    then Some (TypedArray.convert (TypedArray.kind view) v)
    else TypedArray.get view e'.
Proof.
  unfold TypedArray.get, TypedArray.set. cbn [TypedArray.elems TypedArray.kind].
  destruct (decide (e' = e)) as [->|Hne].
  - destruct (decide (e < length (TypedArray.elems view))%nat) as [Hlt|Hge].
    + rewrite decide_True by done. by apply list_lookup_insert_eq.
    + rewrite decide_False by (intros [_ ?]; done).
      by rewrite list_insert_ge by lia.
  - rewrite decide_False by (intros [? _]; done).
    by rewrite list_lookup_insert_ne.
Qed.

Lemma copyData_lookup (st : Storage) e data key :
  NoDup data.*1 →
  ComponentManager.copyData st e data !! key
  = match st !! key, JS.map_get key data with
    | Some view, Some v => Some (TypedArray.set view e v)
    | o, _ => o
    end.
Proof.
  revert st. induction data as [|[k v] d IH]; intros st Hnd.
  - simpl. by destruct (st !! key).
  - apply NoDup_cons in Hnd as [Hk Hnd].
    unfold ComponentManager.copyData. cbn [foldl fst snd]. fold (ComponentManager.copyData
      (match st !! k with
       | Some view => <[k := TypedArray.set view e v]> st
       | None => st
       end) e d).
    rewrite IH by done. cbn [JS.map_get].
    destruct (decide (key = k)) as [->|Hne].
    + assert (JS.map_get k d = None) as -> by (by apply map_get_None).
      destruct (st !! k) as [view|] eqn:Hst.
      * by rewrite lookup_insert_eq.
      * by rewrite Hst.
    + destruct (st !! k) as [view|] eqn:Hst; [|done].
      by rewrite lookup_insert_ne.
Qed.

Section ComponentManagerFacts.
Import ComponentManager.

Lemma map_get_set_eq {V} (k : nat) (v : V) m : JS.map_get k (JS.map_set k v m) = Some v.
Proof.
  induction m as [|[k' v'] m IH]; simpl.
  - by rewrite decide_True.
  - destruct (decide (k = k')) as [->|Hne]; simpl.
    + by rewrite decide_True.
    + by rewrite decide_False.
Qed.

Lemma map_get_set_ne {V} (k k' : nat) (v : V) m :
  k ≠ k' → JS.map_get k' (JS.map_set k v m) = JS.map_get k' m.
Proof.
  intros Hne. induction m as [|[k0 v0] m IH]; simpl.
  - by rewrite decide_False by done.
  - destruct (decide (k = k0)) as [->|Hne0]; simpl.
    + by rewrite !decide_False by done.
    + destruct (decide (k' = k0)); [done|apply IH].
Qed.

Lemma knownInstance_register capacity cm component i :
  knownInstance capacity cm i → knownInstance capacity (register capacity cm component) i.
Proof.
  intros (o & c & Ho & Hwo & Hc & Hwc). unfold knownInstance, register. simpl.
  destruct (decide (c_ref component = c_ref (ci_type i))) as [Heq|Hne].
  - exists (BooleanArray.new capacity), (BooleanArray.new capacity).
    rewrite Heq, !lookup_insert_eq. auto using ba_wf_new.
  - exists o, c. by rewrite !lookup_insert_ne.
Qed.

Lemma cm_wf_register capacity cm component :
  cm_wf capacity cm → cm_wf capacity (register capacity cm component).
Proof.
  intros [Hreg Hname].
  assert (knownInstance capacity (register capacity cm component)
            (mkInstance (List.length (registry cm)) component)) as Hnew.
  { exists (BooleanArray.new capacity), (BooleanArray.new capacity).
    unfold register. simpl. rewrite !lookup_insert_eq. auto using ba_wf_new. }
  split.
  - intros proto i Hget. unfold register in Hget. simpl in Hget.
    destruct (decide (c_ref component = proto)) as [<-|Hne].
    + rewrite map_get_set_eq in Hget. by inversion Hget.
    + rewrite map_get_set_ne in Hget by done.
      destruct (Hreg proto i Hget) as [Href Hk].
      split; [done|]. by apply knownInstance_register.
  - intros name i Hget. unfold register in Hget. simpl in Hget.
    destruct (decide (c_name component = name)) as [<-|Hne].
    + rewrite lookup_insert_eq in Hget. inversion Hget. subst i.
      split; [done|]. unfold register. simpl. by rewrite map_get_set_eq.
    + rewrite lookup_insert_ne in Hget by done.
      destruct (Hname name i Hget) as [Hk Hsome].
      split; [by apply knownInstance_register|].
      unfold register. simpl.
      destruct (decide (c_ref component = c_ref (ci_type i))) as [->|Hne'].
      * by rewrite map_get_set_eq.
      * by rewrite map_get_set_ne.
Qed.

Lemma cm_wf_new capacity components : cm_wf capacity (new capacity components).
Proof.
  unfold new.
  assert (cm_wf capacity (mk ∅ ∅ [] ∅ ∅ ∅)) as Hempty by (split; intros ??; done).
  revert Hempty. generalize (mk ∅ ∅ [] ∅ ∅ ∅).
  induction components as [|c cs IH]; intros cm Hcm; simpl; [done|].
  by apply IH, cm_wf_register.
Qed.

Lemma getInstance_Found cm component i :
  getInstance cm component = Some (Found i)
  ↔ match component with
    | ByName name => registryByName cm !! name = Some i
    | ByRef c => JS.map_get (c_ref c) (registry cm) = Some i
    end.
Proof.
  destruct component as [name|c]; simpl.
  - destruct (registryByName cm !! name) as [i'|].
    + split; congruence.
    + by destruct (JS.inheritedKey name).
  - destruct (JS.map_get (c_ref c) (registry cm)) as [i'|]; simpl.
    + split; congruence.
    + done.
Qed.

Lemma getInstance_ByRef cm c :
  getInstance cm (ByRef c) ≫= instanceOf = JS.map_get (c_ref c) (registry cm).
Proof. simpl. by destruct (JS.map_get (c_ref c) (registry cm)). Qed.

Lemma getInstance_instanceOf cm component i :
  getInstance cm component ≫= instanceOf = Some i
  ↔ getInstance cm component = Some (Found i).
Proof.
  destruct (getInstance cm component) as [[i'|]|]; simpl; split; congruence.
Qed.

Lemma cm_wf_getInstance capacity cm component i :
  cm_wf capacity cm → getInstance cm component = Some (Found i) →
  knownInstance capacity cm i.
Proof.
  intros [Hreg Hname] Hget. apply getInstance_Found in Hget.
  destruct component as [name|c].
  - by eapply Hname.
  - by eapply Hreg.
Qed.

(** The run of [addToEntity] on a component that has an instance. *)
Lemma addToEntity_registered capacity cm component e data instance :
  cm_wf capacity cm → (e < capacity)%nat →
  getInstance cm component = Some (Found instance) →
  ∃ cm',
    addToEntity cm component e data = Ok (getEntityComponentsDirect cm' e, cm')
    ∧ ownerBit cm' (c_ref (ci_type instance)) e = true
    ∧ changedBit cm' (c_ref (ci_type instance)) e = true
    ∧ storages cm'
      = match data, storages cm !! c_ref (ci_type instance) with
        | Some d, Some storage =>
            <[c_ref (ci_type instance) := copyData storage e d]> (storages cm)
        | _, _ => storages cm
        end
    ∧ registry cm' = registry cm.
Proof.
  intros Hwf He Hget.
  destruct (cm_wf_getInstance _ _ _ _ Hwf Hget) as (o & c & Ho & Hwo & Hc & Hwc).
  unfold addToEntity. rewrite Hget. cbv zeta. rewrite Ho, Hc.
  eexists. split; [reflexivity|].
  unfold ownerBit, changedBit. simpl. rewrite !lookup_insert_eq.
  split; [apply ba_get_set_eq; by eapply ba_wf_index|].
  split; [apply ba_get_set_eq; by eapply ba_wf_index|done].
Qed.

End ComponentManagerFacts.







(** A run of the copy: the field named [x] of entity 1 then reads the
    number given for it, the key [z], which is no field, is ignored, and
    the field [y] and the other entities read 0 as before. *)
Example addToEntity_copy_sample :
  let cm := ComponentManager.new 4 [positionComponent; activeComponent] in
  ∃ l cm',
    ComponentManager.addToEntity cm (ByRef positionComponent) 1
      (Some [("x", oneHalf); ("z", JSNumber.ofZ 3)]) = Ok (l, cm')
    ∧ l = [mkInstance 0 positionComponent]
    ∧ getEntityData cm' (ByName "position") 1
      = Some {[ "x" := oneHalf; "y" := JSNumber.ofZ 0 ]}
    ∧ getEntityData cm' (ByName "position") 2
      = Some {[ "x" := JSNumber.ofZ 0; "y" := JSNumber.ofZ 0 ]}.
Proof.
  intros cm.
  destruct (ComponentManager.addToEntity cm (ByRef positionComponent) 1
              (Some [("x", oneHalf); ("z", JSNumber.ofZ 3)])) as [[l cm']|err] eqn:Hadd;
    vm_compute in Hadd; [|discriminate Hadd].
  injection Hadd as <- <-. exists [mkInstance 0 positionComponent]. eexists.
  split; [reflexivity|]. split; [reflexivity|]. split; vm_compute; reflexivity.
Qed.


(** ** The entity manager *)

Section EntityManagerFacts.
Import EntityManager.

Lemma create_Some m a m1 :
  create m = (Some a, m1) →
  BitPool.occupied (pool m) !! a = Some false
  ∧ m1 = mk (BitPool.mk (BitPool.size (pool m)) (<[a := true]> (BitPool.occupied (pool m)))).
Proof.
  unfold create, BitPool.acquire, BitPool.firstFree.
  destruct (list_find _ _) as [[i b]|] eqn:Hfind; simpl.
  - apply list_find_Some in Hfind as (Hi & -> & _).
    destruct (Z.eqb_spec (Z.of_nat i) (-1)); [lia|].
    rewrite Nat2Z.id. intros [= <- <-]. done.
  - discriminate.
Qed.

Lemma create_None m m1 :
  create m = (None, m1) → m1 = m ∧ Forall (λ b, b = true) (BitPool.occupied (pool m)).
Proof.
  unfold create, BitPool.acquire, BitPool.firstFree.
  destruct (list_find _ _) as [[i b]|] eqn:Hfind; simpl.
  - destruct (Z.eqb_spec (Z.of_nat i) (-1)); [lia|discriminate].
  - intros [= <-]. split; [by destruct m|].
    apply list_find_None in Hfind. eapply Forall_impl; [exact Hfind|].
    intros []; naive_solver.
Qed.

Lemma create_full m :
  Forall (λ b, b = true) (BitPool.occupied (pool m)) → create m = (None, m).
Proof.
  intros Hall. unfold create, BitPool.acquire, BitPool.firstFree.
  assert (list_find (λ b, b = false) (BitPool.occupied (pool m)) = None) as ->.
  { apply list_find_None. eapply Forall_impl; [exact Hall|]. by intros ? ->. }
  simpl. by destruct m.
Qed.

Lemma create_free m :
  false ∈ BitPool.occupied (pool m) → ∃ a m1, create m = (Some a, m1).
Proof.
  intros Hin.
  destruct (list_find_elem_of (λ b, b = false) _ false Hin eq_refl) as [[i b] Hfind].
  unfold create, BitPool.acquire, BitPool.firstFree. rewrite Hfind. simpl.
  destruct (Z.eqb_spec (Z.of_nat i) (-1)); [lia|]. eauto.
Qed.

Lemma occupiedCount_full l :
  Forall (λ b, b = true) l → List.length (filter (λ b, b = true) l) = List.length l.
Proof.
  induction 1 as [|b l -> _ IH]; [done|].
  rewrite filter_cons_True by done. simpl. by rewrite IH.
Qed.

(** The ids that [createN] returns were free before the calls. *)
Lemma createN_fresh n : ∀ m a,
  Some a ∈ fst (createN n m) → BitPool.occupied (pool m) !! a = Some false.
Proof.
  induction n as [|n IH]; intros m a; simpl; [by intros ?%not_elem_of_nil|].
  destruct (create m) as [e m1] eqn:Hc.
  destruct (createN n m1) as [es m2] eqn:Hn. simpl.
  intros [<-|Hin]%elem_of_cons.
  - by apply create_Some in Hc as [? _].
  - assert (BitPool.occupied (pool m1) !! a = Some false) as Hfree.
    { apply IH. by rewrite Hn. }
    destruct e as [b|].
    + apply create_Some in Hc as [_ ->]. simpl in Hfree.
      destruct (decide (b = a)) as [->|Hne].
      * apply list_lookup_insert_Some in Hfree as [(_ & ? & _)|(? & _)]; done.
      * by rewrite list_lookup_insert_ne in Hfree.
    + by apply create_None in Hc as [-> _].
Qed.

Lemma createN_NoDup n : ∀ m, NoDup (omap id (fst (createN n m))).
Proof.
  induction n as [|n IH]; intros m; simpl; [constructor|].
  destruct (create m) as [e m1] eqn:Hc.
  destruct (createN n m1) as [es m2] eqn:Hn. simpl.
  specialize (IH m1). rewrite Hn in IH. simpl in IH.
  destruct e as [a|]; simpl; [|done].
  apply NoDup_cons. split; [|done].
  intros (x & Hin & Hx)%list_elem_of_omap. simpl in Hx. subst x.
  assert (BitPool.occupied (pool m1) !! a = Some false) as Hfree.
  { apply createN_fresh with (n := n). by rewrite Hn. }
  apply create_Some in Hc as [Hold ->]. simpl in Hfree.
  rewrite list_lookup_insert_eq in Hfree; [done|].
  by eapply lookup_lt_Some.
Qed.
End EntityManagerFacts.

(** C7.  When every id of the pool is acquired, [create] returns
    [undefined] without raising and leaves the manager as it is, and
    [getAvailableCount] is 0; the ids that successive calls of [create]
    return are pairwise distinct; and after [destroy] of an active entity
    the next [create] returns an id. *)
Theorem entity_pool_exhaustion (m : EntityManager.t) :
  BitPool.wf (EntityManager.pool m) →
  ((∀ i, (i < EntityManager.capacity m)%nat → EntityManager.isActive m i = true) →
   EntityManager.create m = (None, m) ∧ EntityManager.getAvailableCount m = 0%nat)
  ∧ (∀ n, NoDup (omap id (fst (createN n m))))
  ∧ (∀ e, EntityManager.isActive m e = true →
     ∃ m1, EntityManager.destroy m e = Ok m1
           ∧ ∃ e' m2, EntityManager.create m1 = (Some e', m2)).
Proof.
  intros Hwf. unfold BitPool.wf in Hwf. split; [|split].
  - intros Hall.
    assert (Forall (λ b, b = true) (BitPool.occupied (EntityManager.pool m))) as Hfull.
    { apply Forall_lookup. intros i b Hi.
      assert (i < EntityManager.capacity m)%nat as Hlt.
      { unfold EntityManager.capacity. rewrite <- Hwf. by eapply lookup_lt_Some. }
      specialize (Hall i Hlt). unfold EntityManager.isActive in Hall.
      apply andb_true_iff in Hall as [_ Hocc]. unfold BitPool.isOccupied in Hocc.
      by rewrite Hi in Hocc. }
    split; [by apply create_full|].
    unfold EntityManager.getAvailableCount, EntityManager.capacity, BitPool.occupiedCount.
    rewrite occupiedCount_full by done. lia.
  - intros n. apply createN_NoDup.
  - intros e Hact. unfold EntityManager.isActive in Hact.
    apply andb_true_iff in Hact as [Hent _].
    unfold EntityManager.destroy. rewrite Hent. simpl.
    eexists. split; [reflexivity|].
    apply create_free. simpl.
    apply list_elem_of_lookup. exists e.
    apply list_lookup_insert_eq.
    unfold EntityManager.isEntity, EntityManager.capacity in Hent.
    apply Nat.ltb_lt in Hent. lia.
Qed.

Lemma entity_pool_exhaustion_witness :
  let m0 := EntityManager.mk (BitPool.new 2) in
  let m2 := snd (createN 2 m0) in
  fst (createN 3 m0) = [Some 0%nat; Some 1%nat; None]
  ∧ EntityManager.create m2 = (None, m2)
  ∧ EntityManager.getAvailableCount m2 = 0%nat
  ∧ NoDup (omap id (fst (createN 3 m0)))
  ∧ ∃ m3, EntityManager.destroy m2 0 = Ok m3
          ∧ ∃ e' m4, EntityManager.create m3 = (Some e', m4).
Proof.
  intros m0 m2.
  assert (BitPool.wf (EntityManager.pool m2)) as Hwf2 by reflexivity.
  assert (BitPool.wf (EntityManager.pool m0)) as Hwf0 by reflexivity.
  destruct (entity_pool_exhaustion m2 Hwf2) as (Hfull & _ & Hdestroy).
  destruct (entity_pool_exhaustion m0 Hwf0) as (_ & Hdistinct & _).
  split; [reflexivity|].
  assert (∀ i, (i < EntityManager.capacity m2)%nat → EntityManager.isActive m2 i = true) as Hall.
  { intros i Hi. change (i < 2)%nat in Hi.
    destruct i as [|[|i]]; [reflexivity|reflexivity|lia]. }
  destruct (Hfull Hall) as [Hcreate Havail].
  split; [exact Hcreate|]. split; [exact Havail|].
  split; [exact (Hdistinct 3%nat)|].
  exact (Hdestroy 0%nat eq_refl).
Defined.

(** ** The query cache *)

Section QueryCacheFacts.
Import QueryManager.

(** An entry of the entity cache is returned as it is when the query's
    last-seen version is not below the cache's version. *)
Lemma getEntities_valid {E} c pool (env : E) queryId compute lastVersion cached :
  (QueryCache.globalVersion c <= lastVersion)%nat →
  QueryCache.entityCache c !! queryId = Some cached →
  QueryCache.getEntities c pool env queryId compute lastVersion = (cached, c, pool, env).
Proof.
  intros Hver Hc. unfold QueryCache.getEntities.
  destruct (Nat.ltb_spec lastVersion (QueryCache.globalVersion c)); [lia|].
  rewrite Hc. by destruct c.
Qed.

(** It is recomputed when the last-seen version is below the cache's version. *)
Lemma getEntities_stale {E} c pool (env : E) queryId compute lastVersion :
  (lastVersion < QueryCache.globalVersion c)%nat →
  ∃ pool',
    QueryCache.getEntities c pool env queryId compute lastVersion
    = ((compute pool' env).1.1,
       QueryCache.mk (QueryCache.componentCache c)
         (<[queryId := (compute pool' env).1.1]> (delete queryId (QueryCache.entityCache c)))
         (QueryCache.globalVersion c),
       (compute pool' env).1.2, (compute pool' env).2).
Proof.
  intros Hver. unfold QueryCache.getEntities.
  destruct (Nat.ltb_spec lastVersion (QueryCache.globalVersion c)); [|lia].
  rewrite lookup_delete_eq.
  exists (match QueryCache.entityCache c !! queryId with
          | Some oldArray => QueryResultPool.releaseEntityArray pool oldArray
          | None => pool
          end).
  by destruct (compute _ env) as [[result pool'] env'].
Qed.

(** [invalidate(query)] stamps the query's last-seen version with the
    current version: the next lookup of the query's entities returns the
    cached bit set, whatever the archetypes hold by then. *)
Lemma invalidate_query_keeps_entry qm archs query instance cached :
  idsByQuery qm !! query_ref query = Some (q_id instance) →
  QueryCache.entityCache (cache qm) !! q_id instance = Some cached →
  fst (entitiesOf (invalidate qm (Some query)) archs instance) = cached.
Proof.
  intros Hid Hc. unfold invalidate. rewrite Hid. unfold entitiesOf. simpl.
  rewrite lookup_insert_eq. simpl.
  by rewrite (getEntities_valid _ _ _ _ _ _ cached).
Qed.

(** [invalidate()] increments the version; a query whose last-seen
    version is at most the old version is recomputed at its next lookup. *)
Lemma invalidate_all_recomputes qm archs instance :
  (default 0%nat (lastQueryVersion qm !! q_id instance)
   <= QueryCache.globalVersion (cache qm))%nat →
  QueryCache.globalVersion (cache (invalidate qm None))
  = S (QueryCache.globalVersion (cache qm))
  ∧ ∃ pool',
      fst (entitiesOf (invalidate qm None) archs instance)
      = (computeEntities archs instance pool' (visited qm)).1.1.
Proof.
  intros Hver. split; [done|].
  unfold entitiesOf, invalidate. simpl.
  edestruct (getEntities_stale (QueryCache.invalidate (cache qm)) (pool qm) (visited qm)
               (q_id instance) (computeEntities archs instance)
               (default 0%nat (lastQueryVersion qm !! q_id instance))) as [pool' ->].
  { simpl. lia. }
  by exists pool'.
Qed.
End QueryCacheFacts.

(** C3.  The query [{ all: [active] }] is looked up once while entity 0
    alone has the component; entity 1 then gets the component, which
    bumps the cache version.  The next lookup yields entities 0 and 1.
    When [invalidate(query)] is called first, the lookup yields the old
    cached result, entity 0 alone: the call stamps the query as up to date
    instead of marking it stale. *)
Theorem invalidate_query_returns_stale :
  (∃ w, World.queryEntities sampleWorldQueried sampleQuery = Ok ([0; 1]%nat, w))
  ∧ (∃ w, World.queryEntities (invalidateQuery sampleWorldQueried (Some sampleQuery)) sampleQuery
          = Ok ([0]%nat, w)).
Proof. split; eexists; vm_compute; reflexivity. Qed.

(** ** Archetype membership across moves *)

Section Membership.
Import Archetype.

Lemma array_get_set_eq {A} (l : list (option A)) i v :
  JS.array_get (JS.array_set l i v) i = Some v.
Proof.
  unfold JS.array_get, JS.array_set.
  destruct (Nat.ltb_spec i (List.length l)) as [Hlt|Hge].
  - by rewrite list_lookup_insert_eq.
  - rewrite lookup_app_r by lia. rewrite lookup_app_r; rewrite length_replicate; [|lia].
    by replace (i - List.length l - (i - List.length l))%nat with 0%nat by lia.
Qed.

Lemma array_get_set_ne {A} (l : list (option A)) i j v :
  i ≠ j → JS.array_get (JS.array_set l i v) j = JS.array_get l j.
Proof.
  intros Hne. unfold JS.array_get, JS.array_set.
  destruct (Nat.ltb_spec i (List.length l)) as [Hlt|Hge].
  - by rewrite list_lookup_insert_ne.
  - destruct (decide (j < List.length l)%nat) as [Hj|Hj].
    + by rewrite lookup_app_l.
    + rewrite (lookup_ge_None_2 l j) by lia. rewrite lookup_app_r by lia.
      destruct (decide (j - List.length l < i - List.length l)%nat).
      * rewrite lookup_app_l by (rewrite length_replicate; lia).
        by rewrite lookup_replicate_2.
      * rewrite lookup_app_r by (rewrite length_replicate; lia).
        rewrite length_replicate.
        rewrite lookup_ge_None_2; [done|]. simpl. lia.
Qed.

Lemma array_set_length {A} (l : list (option A)) i v :
  (i < List.length l)%nat → List.length (JS.array_set l i v) = List.length l.
Proof.
  intros Hlt. unfold JS.array_set.
  destruct (Nat.ltb_spec i (List.length l)); [|lia]. by rewrite length_insert.
Qed.

Lemma addEntity_get cap a e e' :
  BooleanArray.wf cap (entities a) → (e < cap)%nat →
  BooleanArray.get (entities (addEntity a e)) e'
  = if decide (e = e') then true else BooleanArray.get (entities a) e'.
Proof.
  intros Hwf He. unfold addEntity.
  destruct (BooleanArray.get (entities a) e) eqn:Hm; simpl.
  - case_decide; by subst.
  - by apply ba_get_set_wf with (n := cap).
Qed.

Lemma removeEntity_get a e e' :
  BooleanArray.get (entities (removeEntity a e)) e'
  = if decide (e = e') then false else BooleanArray.get (entities a) e'.
Proof.
  unfold removeEntity.
  destruct (BooleanArray.get (entities a) e) eqn:Hm; simpl.
  - case_decide as Heq; [subst; apply ba_get_set_false|by apply ba_get_set_ne].
  - case_decide; by subst.
Qed.

Lemma addEntity_wf cap a e :
  BooleanArray.wf cap (entities a) → BooleanArray.wf cap (entities (addEntity a e)).
Proof.
  intros Hwf. unfold addEntity.
  destruct (BooleanArray.get (entities a) e); simpl; [done|by apply ba_wf_set].
Qed.

Lemma removeEntity_wf cap a e :
  BooleanArray.wf cap (entities a) → BooleanArray.wf cap (entities (removeEntity a e)).
Proof.
  intros Hwf. unfold removeEntity.
  destruct (BooleanArray.get (entities a) e); simpl; [by apply ba_wf_set|done].
Qed.

Lemma isCandidate_entities a q : entities (snd (isCandidate a q)) = entities a.
Proof. unfold isCandidate. by destruct (candidateCache a !! q_id q). Qed.

Lemma refreshArchetype_entities qs a :
  entities (ArchetypeManager.refreshArchetype qs a) = entities a.
Proof.
  unfold ArchetypeManager.refreshArchetype. simpl.
  revert a. induction qs as [|q qs IH]; intros a; simpl; [done|].
  by rewrite IH, isCandidate_entities.
Qed.

Lemma refreshArchetype_cleared qs a e :
  BooleanArray.get (entered (ArchetypeManager.refreshArchetype qs a)) e = false
  ∧ BooleanArray.get (exited (ArchetypeManager.refreshArchetype qs a)) e = false.
Proof. unfold ArchetypeManager.refreshArchetype. simpl. by rewrite !ba_get_clear. Qed.

(** The registry after [old?.removeEntity(e)] and [k.addEntity(e)]. *)
Lemma move_lookup reg (old : option ArchId) k e k0 :
  old ≠ Some k →
  alter (λ a, addEntity a e) k (ArchetypeManager.removeFrom old e reg) !! k0
  = if decide (k0 = k) then (λ a, addEntity a e) <$> reg !! k0
    else if decide (old = Some k0) then (λ a, removeEntity a e) <$> reg !! k0
    else reg !! k0.
Proof.
  intros Hold. unfold ArchetypeManager.removeFrom.
  destruct (decide (k0 = k)) as [->|Hk].
  - rewrite lookup_alter_eq. destruct old as [c|]; [|done].
    rewrite lookup_alter_ne; [done|congruence].
  - rewrite lookup_alter_ne by done. destruct old as [c|].
    + destruct (decide (Some c = Some k0)) as [[= ->]|Hc].
      * by rewrite lookup_alter_eq.
      * rewrite lookup_alter_ne; [done|congruence].
    + by rewrite decide_False.
Qed.

Lemma membership_move cap reg arr e k :
  membership cap reg arr → (e < cap)%nat → is_Some (reg !! k) →
  JS.array_get arr e ≠ Some k →
  membership cap
    (alter (λ a, addEntity a e) k (ArchetypeManager.removeFrom (JS.array_get arr e) e reg))
    (JS.array_set arr e k).
Proof.
  intros (Hlen & Hwf & Hhas & Honly) He [ak Hak] Hold.
  split; [by rewrite array_set_length by lia|].
  split; [|split].
  - intros k0 a. rewrite move_lookup by done.
    repeat case_decide; intros Hl.
    + apply fmap_Some in Hl as (a0 & Ha0 & ->). eapply addEntity_wf, Hwf, Ha0.
    + apply fmap_Some in Hl as (a0 & Ha0 & ->). eapply removeEntity_wf, Hwf, Ha0.
    + by eapply Hwf.
  - intros e' k0. destruct (decide (e = e')) as [<-|Hne].
    + rewrite array_get_set_eq. intros [= <-].
      exists (addEntity ak e). rewrite move_lookup by done.
      rewrite decide_True by done. rewrite Hak. split; [done|].
      rewrite (addEntity_get cap) by eauto. by rewrite decide_True.
    + rewrite array_get_set_ne by done. intros Hget.
      destruct (Hhas e' k0 Hget) as (a0 & Ha0 & Hbit).
      rewrite move_lookup by done. rewrite Ha0.
      repeat case_decide; simpl; eexists; (split; [reflexivity|]).
      * rewrite (addEntity_get cap) by eauto. by rewrite decide_False.
      * rewrite removeEntity_get. by rewrite decide_False.
      * done.
  - intros e' k0 a He' Hl Hbit. rewrite move_lookup in Hl by done.
    destruct (decide (e = e')) as [<-|Hne].
    + rewrite array_get_set_eq.
      destruct (decide (k0 = k)) as [->|Hk0]; [done|].
      exfalso. destruct (decide (JS.array_get arr e = Some k0)) as [Heq|Hneq].
      * apply fmap_Some in Hl as (a0 & Ha0 & ->).
        rewrite removeEntity_get, decide_True in Hbit by done. done.
      * apply Hneq. by eapply Honly.
    + rewrite array_get_set_ne by done.
      repeat case_decide.
      * apply fmap_Some in Hl as (a0 & Ha0 & ->).
        rewrite (addEntity_get cap), decide_False in Hbit by eauto.
        by eapply Honly.
      * apply fmap_Some in Hl as (a0 & Ha0 & ->).
        rewrite removeEntity_get, decide_False in Hbit by done.
        by eapply Honly.
      * by eapply Honly.
Qed.

Lemma membership_insert_fresh cap reg arr k components bitfield :
  reg !! k = None → membership cap reg arr →
  membership cap (<[k := Archetype.new cap components (Some bitfield)]> reg) arr.
Proof.
  intros Hfresh (Hlen & Hwf & Hhas & Honly).
  split; [done|]. split; [|split].
  - intros k0 a [[<- <-]|[_ Hl]]%lookup_insert_Some; [apply ba_wf_new|by eapply Hwf].
  - intros e k0 Hget. destruct (Hhas e k0 Hget) as (a & Ha & Hbit).
    exists a. split; [|done]. rewrite lookup_insert_ne; [done|congruence].
  - intros e k0 a He [[<- <-]|[_ Hl]]%lookup_insert_Some Hbit.
    + simpl in Hbit. by rewrite ba_get_new in Hbit.
    + by eapply Honly.
Qed.

Lemma membership_fmap cap reg arr (f : Archetype.t → Archetype.t) :
  (∀ a, entities (f a) = entities a) →
  membership cap reg arr → membership cap (f <$> reg) arr.
Proof.
  intros Hf (Hlen & Hwf & Hhas & Honly).
  split; [done|]. split; [|split].
  - intros k a (a0 & <- & Ha0)%lookup_fmap_Some. rewrite Hf. by eapply Hwf.
  - intros e k Hget. destruct (Hhas e k Hget) as (a & Ha & Hbit).
    exists (f a). by rewrite lookup_fmap, Ha, Hf.
  - intros e k a He (a0 & <- & Ha0)%lookup_fmap_Some Hbit. rewrite Hf in Hbit.
    by eapply Honly.
Qed.
End Membership.

(** ** The archetype manager keeps the membership invariant *)

Section ArchetypeManagerFacts.
Import ArchetypeManager.

Lemma sameFrame_refl m : sameFrame m m.
Proof. done. Qed.

Lemma sameFrame_trans m1 m2 m3 : sameFrame m1 m2 → sameFrame m2 m3 → sameFrame m1 m3.
Proof. intros (?&?&?) (?&?&?). repeat split; congruence. Qed.

Lemma arch_inv_new cap cc : arch_inv (new cap cc).
Proof.
  split; [|split; [done|]].
  - unfold new. simpl. rewrite lookup_singleton_eq. eauto.
  - split; [by simpl; rewrite length_replicate|]. split; [|split].
    + simpl. intros k a [<- <-]%lookup_singleton_Some. apply ba_wf_new.
    + intros e k. unfold JS.array_get. simpl.
      destruct (replicate cap None !! e) as [o|] eqn:Hl; [|done].
      by apply lookup_replicate in Hl as [-> _].
    + simpl. intros e k a _ [<- <-]%lookup_singleton_Some Hbit.
      simpl in Hbit. by rewrite ba_get_new in Hbit.
Qed.

Lemma update_spec m e components :
  arch_inv m → (e < capacity m)%nat →
  arch_inv (snd (update m e components))
  ∧ sameFrame m (snd (update m e components))
  ∧ getEntityArchetype (snd (update m e components)) e
    = Some (BooleanArray.buffer (scratch m components))
  ∧ ∀ e', e' ≠ e →
      getEntityArchetype (snd (update m e components)) e' = getEntityArchetype m e'.
Proof.
  intros (Hroot & Hmask & Hmem) He. unfold update.
  case_bool_decide as Hold; simpl.
  { split; [done|]. split; [done|]. split; [exact Hold|done]. }
  remember (BooleanArray.buffer (scratch m components)) as k eqn:Hk0.
  set (reg1 := match registry m !! k with
               | Some _ => registry m
               | None => <[k := Archetype.new (capacity m) components
                                  (Some (BooleanArray.clone (scratch m components)))]>
                           (registry m)
               end).
  assert (membership (capacity m) reg1 (entityArchetypes m) ∧ is_Some (reg1 !! k)
          ∧ is_Some (reg1 !! root m)) as (Hmem1 & Hk & Hroot1).
  { subst reg1. destruct (registry m !! k) as [a|] eqn:Hl.
    - rewrite Hl. eauto.
    - split; [by apply membership_insert_fresh|].
      rewrite lookup_insert_eq. split; [eauto|].
      rewrite lookup_insert_ne; [done|]. intros Heq.
      rewrite <- Heq, Hl in Hroot. by destruct Hroot. }
  split; [|split; [done|split]].
  - split; [|split; [done|]]; simpl.
    + apply lookup_alter_is_Some. unfold removeFrom.
      destruct (JS.array_get (entityArchetypes m) e); [by apply lookup_alter_is_Some|done].
    + by apply membership_move.
  - unfold getEntityArchetype. simpl. apply array_get_set_eq.
  - intros e' Hne. unfold getEntityArchetype. simpl. by apply array_get_set_ne.
Qed.

Lemma set_spec m k e :
  arch_inv m → is_Some (registry m !! k) → (e < capacity m)%nat →
  ∃ m', set m k e = Ok (k, m')
        ∧ arch_inv m' ∧ sameFrame m m'
        ∧ getEntityArchetype m' e = Some k
        ∧ ∀ e', e' ≠ e → getEntityArchetype m' e' = getEntityArchetype m e'.
Proof.
  intros (Hroot & Hmask & Hmem) Hk He. unfold set, has.
  rewrite bool_decide_eq_true_2 by done. simpl.
  pose proof Hmem as (Hlen & _).
  destruct (Nat.leb_spec (List.length (entityArchetypes m)) e); [lia|].
  case_bool_decide as Hold.
  { exists m. split; [done|]. split; [done|]. split; [done|]. split; [exact Hold|done]. }
  eexists. split; [reflexivity|]. split; [|split; [done|split]].
  - split; [|split; [done|]]; simpl.
    + apply lookup_alter_is_Some. unfold removeFrom.
      destruct (JS.array_get (entityArchetypes m) e); [by apply lookup_alter_is_Some|done].
    + by apply membership_move.
  - unfold getEntityArchetype. simpl. apply array_get_set_eq.
  - intros e' Hne. unfold getEntityArchetype. simpl. by apply array_get_set_ne.
Qed.

Lemma reset_spec m e :
  arch_inv m → (e < capacity m)%nat →
  ∃ m', reset m e = Ok m'
        ∧ arch_inv m' ∧ sameFrame m m'
        ∧ getEntityArchetype m' e = Some (root m)
        ∧ ∀ e', e' ≠ e → getEntityArchetype m' e' = getEntityArchetype m e'.
Proof.
  intros Hinv He. pose proof Hinv as (Hroot & _).
  destruct (set_spec m (root m) e Hinv Hroot He) as (m' & Hset & Hrest).
  exists m'. unfold reset. by rewrite Hset.
Qed.

(** The loop of [init] over the first [n] slots. *)
Lemma init_loop m n :
  arch_inv m → (n <= capacity m)%nat →
  ∃ m', foldl (λ r i,
                 m ← r ;;;
                 s ← set m (root m) i ;;;
                 let m' := snd s in
                 Ok (mk (registry m') (JS.array_set (entityArchetypes m') i (fst s))
                        (queryArchetypes m') (root m') (componentCount m') (capacity m')))
              (Ok m) (seq 0 n) = Ok m'
        ∧ arch_inv m' ∧ sameFrame m m'
        ∧ ∀ e, (e < n)%nat → getEntityArchetype m' e = Some (root m).
Proof.
  intros Hinv. induction n as [|n IH]; intros Hn.
  { exists m. split; [done|]. split; [done|]. split; [done|]. intros e He. lia. }
  destruct IH as (m1 & Hfold & Hinv1 & (Hcap & Hrt & Hcc) & Hseated); [lia|].
  rewrite seq_S, foldl_app, Hfold. simpl.
  pose proof Hinv1 as (Hroot1 & _).
  destruct (set_spec m1 (root m1) n Hinv1 Hroot1) as (m2 & Hset & Hinv2 & (Hcap2 & Hrt2 & Hcc2) & Hn2 & Hothers);
    [lia|].
  rewrite Hset. simpl.
  assert (JS.array_set (entityArchetypes m2) n (root m1) = entityArchetypes m2) as ->.
  { unfold JS.array_set. destruct Hinv2 as (_ & _ & Hlen & _).
    destruct (Nat.ltb_spec n (List.length (entityArchetypes m2))); [|lia].
    apply list_insert_id. unfold getEntityArchetype, JS.array_get in Hn2.
    destruct (entityArchetypes m2 !! n) as [[k|]|]; simplify_eq/=; done. }
  exists m2. split; [by destruct m2|]. split; [done|].
  split; [repeat split; congruence|].
  intros e He. destruct (decide (e = n)) as [->|Hne]; [congruence|].
  rewrite Hothers by done. apply Hseated. lia.
Qed.

Lemma init_spec m :
  arch_inv m →
  ∃ m', init m = Ok m' ∧ arch_inv m' ∧ sameFrame m m'
        ∧ ∀ e, (e < capacity m)%nat → getEntityArchetype m' e = Some (root m).
Proof.
  intros Hinv. unfold init.
  assert (resize (capacity m) None (entityArchetypes m) = entityArchetypes m) as ->.
  { destruct Hinv as (_ & _ & <- & _). apply resize_all. }
  assert (mk (registry m) (entityArchetypes m) (queryArchetypes m) (root m)
             (componentCount m) (capacity m) = m) as -> by by destruct m.
  by apply init_loop.
Qed.

Lemma refresh_spec m queries :
  arch_inv m →
  arch_inv (fst (refresh m queries))
  ∧ sameFrame m (fst (refresh m queries))
  ∧ entityArchetypes (fst (refresh m queries)) = entityArchetypes m
  ∧ ∀ k a e, registry (fst (refresh m queries)) !! k = Some a →
             BooleanArray.get (Archetype.entered a) e = false
             ∧ BooleanArray.get (Archetype.exited a) e = false.
Proof.
  intros (Hroot & Hmask & Hmem). unfold refresh. simpl.
  split; [|split; [done|split; [done|]]].
  - split; [|split; [done|]]; simpl.
    + rewrite lookup_fmap. by apply fmap_is_Some.
    + apply membership_fmap; [|done]. intros a. apply refreshArchetype_entities.
  - intros k a e (a0 & <- & _)%lookup_fmap_Some. apply refreshArchetype_cleared.
Qed.
End ArchetypeManagerFacts.

(** ** The operations of the world, step by step *)

Section ComponentManagerFrame.
Import ComponentManager.

Lemma sameShape_refl cap cm : sameShape cap cm cm.
Proof. repeat split; eauto. Qed.

Lemma sameShape_trans cap cm1 cm2 cm3 :
  sameShape cap cm1 cm2 → sameShape cap cm2 cm3 → sameShape cap cm1 cm3.
Proof.
  intros (Hr & Hn & Ho & Hc) (Hr' & Hn' & Ho' & Hc').
  split; [congruence|]. split; [congruence|]. split.
  - intros k o Hl Hwf. destruct (Ho k o Hl Hwf) as (o1 & Hl1 & Hwf1). eauto.
  - intros k c Hl Hwf. destruct (Hc k c Hl Hwf) as (c1 & Hl1 & Hwf1). eauto.
Qed.

Lemma cm_wf_sameShape cap cm cm' : sameShape cap cm cm' → cm_wf cap cm → cm_wf cap cm'.
Proof.
  intros (Hr & Hn & Ho & Hc) [Hreg Hname].
  assert (∀ i, knownInstance cap cm i → knownInstance cap cm' i) as Hknown.
  { intros i (o & c & Hlo & Hwo & Hlc & Hwc).
    destruct (Ho _ _ Hlo Hwo) as (o' & ? & ?). destruct (Hc _ _ Hlc Hwc) as (c' & ? & ?).
    by exists o', c'. }
  split.
  - intros proto i. rewrite Hr. intros Hget. destruct (Hreg proto i Hget). auto.
  - intros name i. rewrite Hn, Hr. intros Hget. destruct (Hname name i Hget). auto.
Qed.

Lemma sameShape_insert_set cap cm key o c e b1 b2 storages' proxies' :
  owners cm !! key = Some o → changed cm !! key = Some c →
  sameShape cap cm
    (mk (<[key := BooleanArray.set c e b2]> (changed cm))
        (<[key := BooleanArray.set o e b1]> (owners cm))
        (registry cm) (registryByName cm) storages' proxies').
Proof.
  intros Ho Hc. split; [done|]. split; [done|]. split; simpl.
  - intros k o0 Hl Hwf. destruct (decide (key = k)) as [<-|Hne].
    + rewrite lookup_insert_eq. simplify_eq. eauto using ba_wf_set.
    + rewrite lookup_insert_ne by done. eauto.
  - intros k c0 Hl Hwf. destruct (decide (key = k)) as [<-|Hne].
    + rewrite lookup_insert_eq. simplify_eq. eauto using ba_wf_set.
    + rewrite lookup_insert_ne by done. eauto.
Qed.

Lemma addToEntity_sameShape cap cm component e data l cm' :
  addToEntity cm component e data = Ok (l, cm') → sameShape cap cm cm'.
Proof.
  unfold addToEntity. destruct (getInstance cm component) as [[i|]|]; [|done|done].
  cbv zeta.
  destruct (owners cm !! c_ref (ci_type i)) as [o|] eqn:Ho; [|done].
  destruct (changed cm !! c_ref (ci_type i)) as [c|] eqn:Hc; [|done].
  intros [= _ <-]. by apply sameShape_insert_set.
Qed.

Lemma removeFromEntity_sameShape cap cm component e :
  sameShape cap cm (snd (removeFromEntity cm component e)).
Proof.
  unfold removeFromEntity. destruct (getInstance cm component) as [[i|]|]; simpl;
    [|apply sameShape_refl|apply sameShape_refl].
  split; [done|]. split; [done|]. split; simpl.
  - intros k o Hl Hwf. rewrite lookup_alter. case_decide; subst.
    + rewrite Hl. simpl. eauto using ba_wf_set.
    + eauto.
  - intros k c Hl Hwf. rewrite lookup_alter. case_decide; subst.
    + rewrite Hl. simpl. eauto using ba_wf_set.
    + eauto.
Qed.

Lemma removeAll_sameShape cap e comps : ∀ cm,
  sameShape cap cm
    (foldl (λ cm ci, snd (removeFromEntity cm (ByRef (ci_type ci)) e)) cm comps).
Proof.
  induction comps as [|ci comps IH]; intros cm; simpl; [apply sameShape_refl|].
  eapply sameShape_trans; [apply removeFromEntity_sameShape|apply IH].
Qed.

Lemma refresh_sameShape cap cm : sameShape cap cm (refresh cm).
Proof.
  split; [done|]. split; [done|]. split; simpl; [eauto|].
  intros k c Hl Hwf. rewrite lookup_fmap, Hl. simpl. eauto using ba_wf_clear.
Qed.

Lemma proxySetEntity_sameShape cap cm proto value cm' :
  proxySetEntity cm proto value = Ok cm' → sameShape cap cm cm'.
Proof.
  unfold proxySetEntity. destruct (proxies cm !! proto) as [p|]; [|done].
  destruct (StorageProxy.set_entity p value) as [[[]|err] p']; simpl; [|done].
  intros [= <-]. repeat split; simpl; eauto.
Qed.

Lemma proxySet_sameShape cap cm proto key value :
  sameShape cap cm (proxySet cm proto key value).
Proof.
  unfold proxySet.
  destruct (proxies cm !! proto) as [p|]; [|apply sameShape_refl].
  destruct (storages cm !! proto) as [storage|]; [|apply sameShape_refl].
  destruct (changed cm !! proto) as [c|] eqn:Hc; [|apply sameShape_refl].
  destruct (StorageProxy.setField p storage c key value) as [storage' c'] eqn:Hset.
  split; [done|]. split; [done|]. split; simpl; [eauto|].
  intros k c0 Hl Hwf. destruct (decide (proto = k)) as [<-|Hne].
  - rewrite lookup_insert_eq. simplify_eq. eexists. split; [done|].
    unfold StorageProxy.setField in Hset.
    destruct (storage !! key); [|by simplify_eq].
    destruct (StorageProxy.differs _ _); simplify_eq; [by apply ba_wf_set|done].
  - rewrite lookup_insert_ne by done. eauto.
Qed.
End ComponentManagerFrame.

Section WorldFacts.
Import World.

Lemma refresh_shape w retainChanged w' :
  refresh w retainChanged = Ok w' →
  state w = initialized
  ∧ archetypeManager w'
    = fst (ArchetypeManager.refresh (archetypeManager w)
             (QueryManager.instancesByID (queryManager w)))
  ∧ componentManager w'
    = (if retainChanged then componentManager w
       else ComponentManager.refresh (componentManager w))
  ∧ entityManager w' = entityManager w
  ∧ state w' = initialized.
Proof.
  unfold refresh, assertWorldState. case_decide as Hs; cbn [rbind]; [|done].
  destruct (ArchetypeManager.refresh _ _) as [am qs] eqn:Href.
  intros [= <-]. cbn [archetypeManager componentManager entityManager state fst].
  by rewrite Hs.
Qed.

Lemma refresh_initialized w retainChanged :
  state w = initialized → ∃ w', refresh w retainChanged = Ok w'.
Proof.
  intros Hs. unfold refresh, assertWorldState. rewrite decide_True by done. cbn [rbind].
  destruct (ArchetypeManager.refresh _ _) as [am qs]. eauto.
Qed.

Lemma afterUpdate_intro w cm1 am1 w' :
  (if decide (state w = initialized)
   then refresh (mk am1 cm1 (entityManager w) (queryManager w) (state w)) true
   else Ok (mk am1 cm1 (entityManager w) (queryManager w) (state w))) = Ok w' →
  afterUpdate w cm1 am1 w'.
Proof.
  unfold afterUpdate. case_decide as Hs.
  - intros (_ & Ham & Hcm & Hem & Hst)%refresh_shape. simpl in *.
    rewrite Hs. by repeat split.
  - intros [= <-]. by repeat split.
Qed.

Lemma addComponentToEntity_shape w component e data w' :
  addComponentToEntity w component e data = Ok w' →
  ∃ type instances cm1,
    getComponentByName w component = Ok type
    ∧ ComponentManager.addToEntity (componentManager w) (ByRef type) e data
      = Ok (instances, cm1)
    ∧ afterUpdate w cm1 (snd (ArchetypeManager.update (archetypeManager w) e instances)) w'.
Proof.
  unfold addComponentToEntity.
  destruct (getComponentByName w component) as [type|]; cbn [rbind]; [|done].
  destruct (ComponentManager.addToEntity _ _ _ _) as [[instances cm1]|] eqn:Hadd;
    cbn [rbind]; [|done].
  destruct (ArchetypeManager.update _ _ _) as [k am1] eqn:Hup.
  intros Hw'. exists type, instances, cm1. split; [done|]. split; [done|].
  rewrite Hup. cbn [snd]. apply afterUpdate_intro. exact Hw'.
Qed.

Lemma removeComponentFromEntity_shape w component e w' :
  removeComponentFromEntity w component e = Ok w' →
  ∃ type,
    getComponentByName w component = Ok type
    ∧ afterUpdate w
        (snd (ComponentManager.removeFromEntity (componentManager w) (ByRef type) e))
        (snd (ArchetypeManager.update (archetypeManager w) e
                (fst (ComponentManager.removeFromEntity (componentManager w) (ByRef type) e))))
        w'.
Proof.
  unfold removeComponentFromEntity.
  destruct (getComponentByName w component) as [type|]; cbn [rbind]; [|done].
  destruct (ComponentManager.removeFromEntity _ _ _) as [instances cm1] eqn:Hrem.
  destruct (ArchetypeManager.update _ _ _) as [k am1] eqn:Hup.
  intros Hw'. exists type. split; [done|]. rewrite Hrem. cbn [fst snd].
  rewrite Hup. cbn [snd]. apply afterUpdate_intro. exact Hw'.
Qed.

Lemma seated_frame m m' e :
  sameFrame m m' → seated m →
  is_Some (ArchetypeManager.getEntityArchetype m' e) →
  (∀ e', e' ≠ e →
     ArchetypeManager.getEntityArchetype m' e' = ArchetypeManager.getEntityArchetype m e') →
  seated m'.
Proof.
  intros (Hcap & _) Hs He Hothers e' He'. destruct (decide (e' = e)) as [->|Hne]; [done|].
  rewrite Hothers by done. apply Hs. by rewrite <- Hcap.
Qed.

(** An add or a remove keeps the invariant of the world. *)
Lemma afterUpdate_inv w cm1 instances w' e :
  world_inv w → inRange w e →
  sameShape (ArchetypeManager.capacity (archetypeManager w)) (componentManager w) cm1 →
  afterUpdate w cm1 (snd (ArchetypeManager.update (archetypeManager w) e instances)) w' →
  world_inv w'.
Proof.
  intros (Hinv & Hcap & Hcm & Hseat) He Hshape (Hem & Hcm1 & Hst & Ham).
  unfold inRange in He. rewrite Hcap in He.
  destruct (update_spec _ e instances Hinv He) as (Hinv1 & Hframe1 & Hat & Hothers).
  set (am1 := snd (ArchetypeManager.update (archetypeManager w) e instances)) in *.
  assert (state w ≠ uninitialized → seated am1) as Hseat1.
  { intros Hs. eapply seated_frame; [done|by apply Hseat| |done]. by rewrite Hat. }
  pose proof (cm_wf_sameShape _ _ _ Hshape Hcm) as Hcm'.
  destruct Hframe1 as (Hcap1 & Hrt1 & Hcc1).
  case_decide as Hs.
  - destruct (refresh_spec am1 (QueryManager.instancesByID (queryManager w)) Hinv1)
      as (Hinv2 & (Hcap2 & Hrt2 & Hcc2) & Harr & _).
    split; [by rewrite Ham|].
    rewrite Ham, Hem, Hcm1, Hst, Hcap2, Hcap1.
    split; [done|]. split; [done|].
    intros _ e' He'. rewrite Hcap2 in He'.
    unfold ArchetypeManager.getEntityArchetype. rewrite Harr.
    apply Hseat1; [congruence|done].
  - split; [by rewrite Ham|].
    rewrite Ham, Hem, Hcm1, Hst, Hcap1. split; [done|]. split; [done|]. exact Hseat1.
Qed.
End WorldFacts.

Section QuietSteps.
Import World.

Lemma sameSeats_refl m : sameSeats m m.
Proof. split; [done|]. split; [done|]. auto. Qed.

Lemma sameSeats_refresh m queries : sameSeats m (fst (ArchetypeManager.refresh m queries)).
Proof.
  split; [done|]. split; [done|]. intros Hinv.
  by destruct (refresh_spec m queries Hinv) as (? & _).
Qed.

Lemma quietStep_refresh w retainChanged w' :
  refresh w retainChanged = Ok w' → quietStep w w'.
Proof.
  intros (Hs & Ham & Hcm & Hem & Hs')%refresh_shape.
  split; [rewrite Ham; apply sameSeats_refresh|].
  split; [|split; [done|left; congruence]].
  rewrite Hcm. destruct retainChanged; [apply sameShape_refl|apply refresh_sameShape].
Qed.

Lemma quietStep_destroy w w' : destroy w = Ok w' → quietStep w w'.
Proof.
  unfold destroy, assertWorldState. case_decide as Hs; cbn [rbind]; [|done].
  intros [= <-]. split; [apply sameSeats_refl|]. split; [apply sameShape_refl|].
  split; [done|by right].
Qed.

Lemma registerQuery_shape w query instance w' :
  registerQuery w query = Ok (instance, w') → quietStep w w'.
Proof.
  unfold registerQuery.
  destruct (QueryManager.registered (queryManager w) query) as [i|].
  { intros [= _ <-]. split; [apply sameSeats_refl|]. split; [apply sameShape_refl|].
    split; [done|by left]. }
  cbv zeta. case_decide as Hs.
  - match goal with |- context [refresh ?x true] => set (w1 := x) end.
    destruct (refresh w1 true) as [w2|] eqn:Href; cbn [rbind]; [|done].
    intros [= _ <-]. by apply quietStep_refresh in Href.
  - intros [= _ <-]. split; [apply sameSeats_refl|]. split; [apply sameShape_refl|].
    split; [done|by left].
Qed.

Lemma queryEntities_shape w query result w' :
  queryEntities w query = Ok (result, w') → quietStep w w'.
Proof.
  unfold queryEntities.
  destruct (registerQuery w query) as [[instance w1]|] eqn:Hreg; cbn [rbind]; [|done].
  destruct (QueryManager.entitiesOf _ _ _) as [r qm].
  intros [= _ <-]. by apply registerQuery_shape in Hreg.
Qed.

Lemma queryComponents_shape w query result w' :
  queryComponents w query = Ok (result, w') → quietStep w w'.
Proof.
  unfold queryComponents.
  destruct (registerQuery w query) as [[instance w1]|] eqn:Hreg; cbn [rbind]; [|done].
  destruct (QueryManager.componentsOf _ _) as [r qm].
  intros [= _ <-]. by apply registerQuery_shape in Hreg.
Qed.

Lemma quietStep_components w cm :
  sameShape (ArchetypeManager.capacity (archetypeManager w)) (componentManager w) cm →
  quietStep w (withComponents w cm).
Proof.
  intros Hshape. split; [apply sameSeats_refl|]. split; [done|]. split; [done|by left].
Qed.

Lemma quietStep_inv w w' : quietStep w w' → world_inv w → world_inv w'.
Proof.
  intros (((Hcap & Hrt & Hcc) & Harr & Hpres) & Hshape & Hem & Hst) (Hinv & Hcapem & Hcm & Hseat).
  split; [by apply Hpres|]. rewrite Hem, Hcap. split; [done|].
  split; [by eapply cm_wf_sameShape|].
  intros Hs e He. unfold ArchetypeManager.getEntityArchetype. rewrite Harr.
  apply Hseat; [|by rewrite <- Hcap].
  destruct Hst as [Hst|[Hst _]]; congruence.
Qed.

Lemma quietStep_idle w w' : quietStep w w' → idle_in_root w → idle_in_root w'.
Proof.
  intros (((Hcap & Hrt & Hcc) & Harr & Hpres) & Hshape & Hem & Hst) Hidle Hs e He Hact.
  unfold ArchetypeManager.getEntityArchetype. rewrite Harr, Hrt.
  rewrite Hem in Hact. rewrite Hcap in He. apply Hidle; [|done..].
  destruct Hst as [Hst|[Hst _]]; congruence.
Qed.
End QuietSteps.

Section MovingSteps.
Import World.

Lemma init_world w w' :
  init w = Ok w' → world_inv w →
  world_inv w' ∧ state w' = initialized ∧ entityManager w' = entityManager w
  ∧ ∀ e, (e < ArchetypeManager.capacity (archetypeManager w'))%nat →
         ArchetypeManager.getEntityArchetype (archetypeManager w') e
         = Some (ArchetypeManager.root (archetypeManager w')).
Proof.
  intros Hinit (Hinv & Hcapem & Hcm & _). revert Hinit.
  unfold init, assertWorldState. case_decide as Hs; cbn [rbind]; [|done].
  destruct (init_spec _ Hinv) as (am1 & -> & Hinv1 & (Hcap1 & Hrt1 & Hcc1) & Hroot).
  cbn [rbind].
  match goal with |- context [refresh ?x false] => set (w1 := x) end.
  destruct (refresh w1 false) as [w2|] eqn:Href; cbn [rbind]; [|done].
  case_decide as Hs2; cbn [rbind]; [|done]. intros [= <-].
  pose proof (quietStep_refresh _ _ _ Href)
    as (((Hcap2 & Hrt2 & Hcc2) & Harr & Hpres) & Hshape & Hem & _).
  subst w1. cbn [archetypeManager componentManager entityManager state] in *.
  assert (∀ e, (e < ArchetypeManager.capacity (archetypeManager w2))%nat →
               ArchetypeManager.getEntityArchetype (archetypeManager w2) e
               = Some (ArchetypeManager.root (archetypeManager w2))) as Hall.
  { intros e He. unfold ArchetypeManager.getEntityArchetype. rewrite Harr, Hrt2, Hrt1.
    apply Hroot. lia. }
  split; [|by split].
  split; [by apply Hpres|]. rewrite Hem, Hcap2, Hcap1. split; [done|].
  split; [eapply cm_wf_sameShape; [|exact Hcm]; by rewrite <- Hcap1|].
  intros _ e He. rewrite Hall; [done|]. lia.
Qed.

Lemma create_capacity m e m' :
  EntityManager.create m = (e, m') → EntityManager.capacity m' = EntityManager.capacity m.
Proof.
  destruct e as [a|]; intros Hc.
  - by apply create_Some in Hc as [_ ->].
  - by apply create_None in Hc as [-> _].
Qed.

Lemma create_others m a m' e :
  EntityManager.create m = (Some a, m') → e ≠ a →
  EntityManager.isActive m' e = EntityManager.isActive m e.
Proof.
  intros Hc Hne. apply create_Some in Hc as [_ ->].
  unfold EntityManager.isActive, EntityManager.isEntity, EntityManager.capacity,
    BitPool.isOccupied. simpl. by rewrite list_lookup_insert_ne.
Qed.

Lemma createEntity_shape w e w' :
  createEntity w = (e, w') →
  archetypeManager w' = archetypeManager w
  ∧ componentManager w' = componentManager w
  ∧ state w' = state w
  ∧ EntityManager.create (entityManager w) = (e, entityManager w').
Proof.
  unfold createEntity. destruct (EntityManager.create (entityManager w)) as [e0 em].
  by intros [= <- <-].
Qed.

Lemma createEntity_inv w e w' : createEntity w = (e, w') → world_inv w → world_inv w'.
Proof.
  intros (Ham & Hcm & Hst & Hc)%createEntity_shape (Hinv & Hcapem & Hcmwf & Hseat).
  unfold world_inv. rewrite Ham, Hcm, Hst, (create_capacity _ _ _ Hc).
  split; [done|]. split; [done|]. split; [done|]. exact Hseat.
Qed.

Lemma destroyEntity_shape w e w' :
  destroyEntity w e = Ok w' → world_inv w → inRange w e →
  world_inv w' ∧ state w' = state w
  ∧ sameFrame (archetypeManager w) (archetypeManager w')
  ∧ ArchetypeManager.getEntityArchetype (archetypeManager w') e
    = Some (ArchetypeManager.root (archetypeManager w))
  ∧ (∀ e', e' ≠ e →
       ArchetypeManager.getEntityArchetype (archetypeManager w') e'
       = ArchetypeManager.getEntityArchetype (archetypeManager w) e')
  ∧ entityManager w'
    = EntityManager.mk (BitPool.release (EntityManager.pool (entityManager w)) e).
Proof.
  intros Hd (Hinv & Hcapem & Hcm & Hseat) He. revert Hd.
  unfold inRange in He. rewrite Hcapem in He.
  unfold destroyEntity. cbv zeta.
  destruct (reset_spec _ e Hinv He) as (am1 & -> & Hinv1 & Hframe & Hat & Hothers).
  cbn [rbind]. unfold EntityManager.destroy, EntityManager.isEntity.
  rewrite Hcapem. destruct (Nat.ltb_spec e (ArchetypeManager.capacity (archetypeManager w)));
    [|lia].
  cbn [negb rbind]. intros [= <-].
  unfold world_inv. cbn [archetypeManager componentManager entityManager state].
  pose proof Hframe as (Hcap1 & Hrt1 & Hcc1).
  split; [|done].
  split; [done|]. rewrite Hcap1. split; [done|].
  split; [eapply cm_wf_sameShape; [apply removeAll_sameShape|done]|].
  intros Hs. eapply seated_frame; [done|by apply Hseat|by rewrite Hat|done].
Qed.

(** Every call keeps the invariant of the world. *)
Lemma step_inv w w' : step inRange w w' → world_inv w → world_inv w'.
Proof.
  intros Hstep Hinv. destruct Hstep.
  - by eapply init_world.
  - eapply quietStep_inv; [by apply quietStep_destroy|done].
  - eapply quietStep_inv; [by eapply quietStep_refresh|done].
  - by eapply createEntity_inv.
  - by eapply destroyEntity_shape.
  - destruct (addComponentToEntity_shape _ _ _ _ _ H0) as (type & instances & cm1 & _ & Hadd & Hw').
    eapply afterUpdate_inv; [done..| |done]. by eapply addToEntity_sameShape.
  - destruct (removeComponentFromEntity_shape _ _ _ _ H0) as (type & _ & Hw').
    eapply afterUpdate_inv; [done..| |done]. apply removeFromEntity_sameShape.
  - eapply quietStep_inv; [by eapply registerQuery_shape|done].
  - eapply quietStep_inv; [by eapply queryEntities_shape|done].
  - eapply quietStep_inv; [by eapply queryComponents_shape|done].
  - eapply quietStep_inv; [|done]. apply quietStep_components.
    by eapply proxySetEntity_sameShape.
  - eapply quietStep_inv; [|done]. apply quietStep_components, proxySet_sameShape.
Qed.

Lemma new_inv MAX_CAPACITY capacity components w :
  new MAX_CAPACITY capacity components = Ok w →
  world_inv w ∧ state w = uninitialized.
Proof.
  unfold new. destruct (negb _); [done|].
  unfold EntityManager.new. destruct (_ || _); cbn [rbind]; [done|].
  intros [= <-]. split; [|done].
  split; [apply arch_inv_new|]. split; [done|]. split; [apply cm_wf_new|done].
Qed.

Lemma step_live_inRange w w' : step live w w' → step inRange w w'.
Proof.
  assert (∀ w e, live w e → inRange w e) as Hlive.
  { intros w0 e. unfold live, inRange, EntityManager.isActive, EntityManager.isEntity.
    intros [Hlt _]%andb_true_iff. by apply Nat.ltb_lt. }
  intros Hstep.
  destruct Hstep;
    [ eapply step_init | eapply step_destroy | eapply step_refresh
    | eapply step_createEntity | eapply step_destroyEntity | eapply step_addComponent
    | eapply step_removeComponent | eapply step_registerQuery | eapply step_queryEntities
    | eapply step_queryComponents | eapply step_proxySetEntity | eapply step_proxySet ];
    eauto.
Qed.

Lemma reachable_inv valid w :
  (∀ w w', step valid w w' → step inRange w w') → reachable valid w → world_inv w.
Proof.
  intros Hvalid (M & cap & comps & w0 & Hnew & Hsteps).
  apply new_inv in Hnew as [Hinv0 _].
  induction Hsteps as [|w1 w2 w3 Hstep _ IH]; [done|].
  apply IH. eapply step_inv; [by apply Hvalid|done].
Qed.
End MovingSteps.

Section IdleIds.
Import World.

Lemma release_others p e e' :
  e' ≠ e → BitPool.isOccupied (BitPool.release p e) e' = BitPool.isOccupied p e'.
Proof.
  intros Hne. unfold BitPool.isOccupied, BitPool.release. simpl.
  by rewrite list_lookup_insert_ne.
Qed.

Lemma afterUpdate_idle w cm1 instances w' e :
  world_inv w → live w e →
  afterUpdate w cm1 (snd (ArchetypeManager.update (archetypeManager w) e instances)) w' →
  idle_in_root w → idle_in_root w'.
Proof.
  intros (Hinv & Hcapem & _) Hlive (Hem & _ & Hst & Ham) Hidle Hs e' He' Hact.
  assert (e < ArchetypeManager.capacity (archetypeManager w))%nat as He.
  { unfold live, EntityManager.isActive, EntityManager.isEntity in Hlive.
    apply andb_true_iff in Hlive as [Hlt _]. apply Nat.ltb_lt in Hlt. lia. }
  destruct (update_spec _ e instances Hinv He) as (Hinv1 & (Hcap1 & Hrt1 & Hcc1) & _ & Hothers).
  rewrite Hem in Hact.
  assert (e' ≠ e) as Hne by (intros ->; unfold live in Hlive; congruence).
  assert (ArchetypeManager.getEntityArchetype (archetypeManager w') e'
          = ArchetypeManager.getEntityArchetype (archetypeManager w) e'
          ∧ ArchetypeManager.root (archetypeManager w')
            = ArchetypeManager.root (archetypeManager w)
          ∧ ArchetypeManager.capacity (archetypeManager w')
            = ArchetypeManager.capacity (archetypeManager w)) as (-> & -> & Hcap').
  { rewrite Ham. case_decide.
    - destruct (refresh_spec _ (QueryManager.instancesByID (queryManager w)) Hinv1)
        as (_ & (Hcap2 & Hrt2 & _) & Harr & _).
      unfold ArchetypeManager.getEntityArchetype at 1. rewrite Harr, Hrt2, Hcap2.
      split; [by apply Hothers|]. split; congruence.
    - split; [by apply Hothers|]. split; congruence. }
  apply Hidle; [congruence|lia|done].
Qed.

(** Every call on live entities keeps the idle ids in the root archetype. *)
Lemma step_idle w w' : step live w w' → world_inv w → idle_in_root w → idle_in_root w'.
Proof.
  intros Hstep Hinv Hidle. destruct Hstep.
  - destruct (init_world _ _ H Hinv) as (_ & _ & _ & Hall).
    intros _ e He _. by apply Hall.
  - eapply quietStep_idle; [by apply quietStep_destroy|done].
  - eapply quietStep_idle; [by eapply quietStep_refresh|done].
  - apply createEntity_shape in H as (Ham & _ & Hst & Hc).
    intros Hs e' He' Hact. rewrite Ham in *. rewrite Hst in Hs.
    apply Hidle; [done..|].
    destruct e as [a|].
    + destruct (decide (e' = a)) as [->|Hne].
      * apply create_Some in Hc as [Hfree _].
        unfold EntityManager.isActive, BitPool.isOccupied. rewrite Hfree.
        apply andb_false_r.
      * by rewrite <- (create_others _ _ _ _ Hc Hne).
    + apply create_None in Hc as [<- _]. done.
  - assert (inRange w e) as He.
    { unfold live, inRange, EntityManager.isActive, EntityManager.isEntity in *.
      apply andb_true_iff in H as [Hlt _]. by apply Nat.ltb_lt. }
    destruct (destroyEntity_shape _ _ _ H0 Hinv He)
      as (_ & Hst & (Hcap & Hrt & _) & Hat & Hothers & Hem).
    intros Hs e' He' Hact. rewrite Hrt.
    destruct (decide (e' = e)) as [->|Hne]; [done|].
    rewrite Hothers by done. apply Hidle; [congruence|lia|].
    rewrite Hem in Hact.
    unfold EntityManager.isActive, EntityManager.isEntity, EntityManager.capacity in *.
    simpl in Hact. by rewrite release_others in Hact.
  - destruct (addComponentToEntity_shape _ _ _ _ _ H0) as (type & instances & cm1 & _ & _ & Hw').
    by eapply afterUpdate_idle.
  - destruct (removeComponentFromEntity_shape _ _ _ _ H0) as (type & _ & Hw').
    by eapply afterUpdate_idle.
  - eapply quietStep_idle; [by eapply registerQuery_shape|done].
  - eapply quietStep_idle; [by eapply queryEntities_shape|done].
  - eapply quietStep_idle; [by eapply queryComponents_shape|done].
  - eapply quietStep_idle; [|done]. apply quietStep_components.
    by eapply proxySetEntity_sameShape.
  - eapply quietStep_idle; [|done]. apply quietStep_components, proxySet_sameShape.
Qed.

Lemma quietStep_pool w w' : quietStep w w' → pool_wf w → pool_wf w'.
Proof. intros (_ & _ & Hem & _). unfold pool_wf. by rewrite Hem. Qed.

Lemma afterUpdate_pool w cm1 am1 w' : afterUpdate w cm1 am1 w' → pool_wf w → pool_wf w'.
Proof. intros (Hem & _). unfold pool_wf. by rewrite Hem. Qed.

Lemma step_pool w w' : step inRange w w' → world_inv w → pool_wf w → pool_wf w'.
Proof.
  intros Hstep Hinv Hwf. destruct Hstep.
  - destruct (init_world _ _ H Hinv) as (_ & _ & Hem & _). unfold pool_wf. by rewrite Hem.
  - eapply quietStep_pool; [by apply quietStep_destroy|done].
  - eapply quietStep_pool; [by eapply quietStep_refresh|done].
  - apply createEntity_shape in H as (_ & _ & _ & Hc). unfold pool_wf, BitPool.wf in *.
    destruct e as [a|].
    + apply create_Some in Hc as [_ ->]. simpl. by rewrite length_insert.
    + by apply create_None in Hc as [-> _].
  - destruct (destroyEntity_shape _ _ _ H0 Hinv H) as (_ & _ & _ & _ & _ & Hem).
    unfold pool_wf, BitPool.wf in *. rewrite Hem. simpl. by rewrite length_insert.
  - destruct (addComponentToEntity_shape _ _ _ _ _ H0) as (? & ? & ? & _ & _ & Hw').
    by eapply afterUpdate_pool.
  - destruct (removeComponentFromEntity_shape _ _ _ _ H0) as (? & _ & Hw').
    by eapply afterUpdate_pool.
  - eapply quietStep_pool; [by eapply registerQuery_shape|done].
  - eapply quietStep_pool; [by eapply queryEntities_shape|done].
  - eapply quietStep_pool; [by eapply queryComponents_shape|done].
  - done.
  - done.
Qed.

Lemma reachable_live_idle w :
  reachable live w → world_inv w ∧ idle_in_root w ∧ pool_wf w.
Proof.
  intros (M & cap & comps & w0 & Hnew & Hsteps).
  assert (pool_wf w0) as Hpool0.
  { revert Hnew. unfold World.new. destruct (negb _); [done|].
    unfold EntityManager.new. destruct (_ || _); cbn [rbind]; [done|].
    intros [= <-]. unfold pool_wf, BitPool.wf. simpl. by rewrite length_replicate. }
  apply new_inv in Hnew as [Hinv0 Hs0].
  assert (idle_in_root w0) as Hidle0 by (intros Hs; congruence).
  clear Hs0. induction Hsteps as [|w1 w2 w3 Hstep _ IH]; [done|].
  apply IH.
  - eapply step_inv; [by apply step_live_inRange|done].
  - eapply step_pool; [by apply step_live_inRange|done..].
  - by eapply step_idle.
Qed.
End IdleIds.

(** C6 (as amended).  In every reachable state of an initialized world
    every active entity has an archetype in the entity-to-archetype array,
    is a member of that archetype and of no other; [create] leaves the
    archetypes untouched; and when the calls that move entities are made
    on active entities only, a created entity is seated in the root
    archetype, whose mask is empty. *)
Theorem entity_in_one_archetype :
  (∀ w e, reachable inRange w → World.state w = initialized →
          EntityManager.isActive (World.entityManager w) e = true → inOneArchetype w e)
  ∧ (∀ w e w', World.createEntity w = (e, w') →
               World.archetypeManager w' = World.archetypeManager w)
  ∧ (∀ w, reachable live w → World.state w = initialized →
          createdInRoot w
          ∧ ArchetypeManager.root (World.archetypeManager w)
            = BooleanArray.buffer
                (BooleanArray.new (ArchetypeManager.componentCount (World.archetypeManager w)))).
Proof.
  split; [|split].
  - intros w e Hreach Hs Hact.
    apply reachable_inv in Hreach as ((_ & _ & Hmem) & Hcapem & _ & Hseat); [|done].
    destruct Hmem as (_ & _ & Hhas & Honly).
    assert (e < ArchetypeManager.capacity (World.archetypeManager w))%nat as He.
    { unfold EntityManager.isActive, EntityManager.isEntity in Hact.
      apply andb_true_iff in Hact as [Hlt _]. apply Nat.ltb_lt in Hlt. lia. }
    destruct (Hseat ltac:(congruence) e He) as [k Hk].
    destruct (Hhas e k Hk) as (a & Ha & Hbit).
    exists k, a. split; [done|]. split; [done|]. split; [done|].
    intros k' a' Ha' Hbit'. pose proof (Honly e k' a' He Ha' Hbit') as Hk'.
    unfold ArchetypeManager.getEntityArchetype in Hk. congruence.
  - intros w e w' Hc. by apply createEntity_shape in Hc as (Ham & _).
  - intros w Hreach Hs. apply reachable_live_idle in Hreach as (Hinv & Hidle & Hpool).
    split; [|by destruct Hinv as ((_ & Hmask & _) & _)].
    intros e w' Hc. apply createEntity_shape in Hc as (Ham & _ & _ & Hc).
    rewrite Ham. unfold ArchetypeManager.isEntityInRoot.
    apply bool_decide_eq_true_2.
    pose proof Hc as [Hfree Hm']%create_Some.
    destruct Hinv as (_ & Hcapem & _).
    assert (e < List.length (BitPool.occupied (EntityManager.pool (World.entityManager w))))%nat
      as Hlt by by eapply lookup_lt_Some.
    destruct (decide (e < ArchetypeManager.capacity (World.archetypeManager w))%nat) as [He|He].
    + apply Hidle; [congruence|done|].
      unfold EntityManager.isActive, BitPool.isOccupied. rewrite Hfree. apply andb_false_r.
    + exfalso. apply He. rewrite <- Hcapem.
      unfold pool_wf, BitPool.wf in Hpool. unfold EntityManager.capacity. lia.
Qed.

Section Samples.
Import World.

Lemma sampleWorld_new : new 1024 2 [activeComponent] = Ok sampleWorld.
Proof. reflexivity. Qed.

Lemma sampleWorldReady_init : init sampleWorld = Ok sampleWorldReady.
Proof. vm_compute. reflexivity. Qed.

Lemma sampleWorldReady_reachable valid : reachable valid sampleWorldReady.
Proof.
  exists 1024%nat, 2%nat, [activeComponent], sampleWorld. split; [apply sampleWorld_new|].
  apply rtc_once, step_init, sampleWorldReady_init.
Qed.

Lemma sampleWorldOne_reachable valid : reachable valid sampleWorldOne.
Proof.
  destruct (sampleWorldReady_reachable valid) as (M & cap & comps & w0 & Hnew & Hsteps).
  exists M, cap, comps, w0. split; [done|].
  eapply rtc_r; [exact Hsteps|].
  apply step_createEntity with (e := Some 0%nat). reflexivity.
Qed.

Lemma sampleWorldIdle_reachable : reachable inRange sampleWorldIdle.
Proof.
  set (w0 := mk (ArchetypeManager.new 1 1) (ComponentManager.new 1 [activeComponent])
                (EntityManager.mk (BitPool.new 1)) (QueryManager.new 1) uninitialized).
  exists 1024%nat, 1%nat, [activeComponent], w0. split; [reflexivity|].
  eapply rtc_l; [apply step_init with (w' := unwrap w0 (init w0)); vm_compute; reflexivity|].
  apply rtc_once.
  eapply step_addComponent with (component := ByRef activeComponent) (e := 0%nat) (data := None).
  - unfold inRange. vm_compute. lia.
  - vm_compute. reflexivity.
Qed.
End Samples.

Lemma entity_in_one_archetype_witness :
  inOneArchetype sampleWorldOne 0
  ∧ World.archetypeManager sampleWorldOne = World.archetypeManager sampleWorldReady
  ∧ createdInRoot sampleWorldReady.
Proof.
  destruct entity_in_one_archetype as (Hone & Hcreate & Hroot).
  split; [|split].
  - apply Hone; [apply sampleWorldOne_reachable|reflexivity|reflexivity].
  - apply (Hcreate sampleWorldReady (Some 0%nat) sampleWorldOne). reflexivity.
  - apply Hroot; [apply sampleWorldReady_reachable|reflexivity].
Defined.

(** C6, counterexample: in an initialized world of capacity 1 the
    component is added to id 0 before the id is created; [create] then
    returns 0, which is seated in the archetype of the component, not in
    the root. *)
Lemma created_outside_root_counterexample :
  reachable inRange sampleWorldIdle
  ∧ World.state sampleWorldIdle = initialized
  ∧ ¬ specOneArchetype sampleWorldIdle.
Proof.
  split; [apply sampleWorldIdle_reachable|]. split; [reflexivity|].
  intros [_ Hroot].
  specialize (Hroot 0%nat (snd (World.createEntity sampleWorldIdle)) eq_refl).
  vm_compute in Hroot. discriminate Hroot.
Qed.

(** ** Add, remove, add in an initialized world *)

Section AddRemoveAdd.
Import World.

Lemma getInstance_sameShape cap cm cm' component :
  sameShape cap cm cm' →
  ComponentManager.getInstance cm' component = ComponentManager.getInstance cm component.
Proof.
  intros (Hr & Hn & _). destruct component; simpl; by rewrite ?Hr, ?Hn.
Qed.

Lemma getComponentByName_sameShape cap w w' component :
  sameShape cap (componentManager w) (componentManager w') →
  getComponentByName w' component = getComponentByName w component.
Proof.
  intros Hshape. unfold getComponentByName. destruct component; [|done].
  by rewrite (getInstance_sameShape _ _ _ _ Hshape).
Qed.

(** A registered component resolves to a descriptor that has an instance. *)
Lemma getComponentByName_registered cap w component :
  cm_wf cap (componentManager w) →
  is_Some (ComponentManager.getInstance (componentManager w) component ≫= instanceOf) →
  ∃ type, getComponentByName w component = Ok type
          ∧ is_Some (ComponentManager.getInstance (componentManager w) (ByRef type)
                     ≫= instanceOf).
Proof.
  intros [_ Hname] [i Hi]. unfold getComponentByName. destruct component as [name|c].
  - rewrite Hi. exists (ci_type i). split; [done|].
    apply getInstance_instanceOf, getInstance_Found in Hi.
    rewrite getInstance_ByRef. by destruct (Hname name i Hi).
  - exists c. split; [done|]. by exists i.
Qed.

Lemma afterUpdate_settled w cm1 instances w' e :
  world_inv w → state w = initialized → inRange w e →
  sameShape (ArchetypeManager.capacity (archetypeManager w)) (componentManager w) cm1 →
  afterUpdate w cm1 (snd (ArchetypeManager.update (archetypeManager w) e instances)) w' →
  settled w w' ∧ componentManager w' = cm1.
Proof.
  intros Hinv Hs He Hshape Hafter.
  pose proof (afterUpdate_inv _ _ _ _ _ Hinv He Hshape Hafter) as Hinv'.
  destruct Hafter as (Hem & Hcm1 & Hst & Ham).
  rewrite decide_True in Ham by done.
  destruct Hinv as (Hai & Hcapem & _). unfold inRange in He. rewrite Hcapem in He.
  destruct (update_spec _ e instances Hai He) as (Hinv1 & (Hcap1 & _) & _).
  destruct (refresh_spec _ (QueryManager.instancesByID (queryManager w)) Hinv1)
    as (_ & (Hcap2 & _) & _ & Hclear).
  split; [|done]. split; [done|]. split; [congruence|]. split; [done|].
  split; [by rewrite Hcm1|]. rewrite Ham. split; [congruence|done].
Qed.

Lemma addComponentToEntity_run w component e data type :
  world_inv w → state w = initialized → inRange w e →
  getComponentByName w component = Ok type →
  is_Some (ComponentManager.getInstance (componentManager w) (ByRef type) ≫= instanceOf) →
  ∃ w', addComponentToEntity w component e data = Ok w'
        ∧ settled w w'
        ∧ ComponentManager.changedBit (componentManager w') (c_ref type) e = true.
Proof.
  intros Hinv Hs He Htype [i Hi]. apply getInstance_instanceOf in Hi.
  pose proof Hinv as (Hai & Hcapem & Hcm & _).
  assert (e < ArchetypeManager.capacity (archetypeManager w))%nat as He'.
  { unfold inRange in He. lia. }
  destruct (addToEntity_registered _ _ (ByRef type) e data i Hcm He' Hi)
    as (cm1 & Hrun & _ & Hchanged & _).
  assert (c_ref (ci_type i) = c_ref type) as Href.
  { destruct Hcm as [Hreg _]. apply getInstance_Found in Hi.
    by destruct (Hreg (c_ref type) i Hi). }
  rewrite Href in Hchanged.
  destruct (refresh_initialized
              (mk (snd (ArchetypeManager.update (archetypeManager w) e
                          (ComponentManager.getEntityComponentsDirect cm1 e)))
                  cm1 (entityManager w) (queryManager w) (state w)) true Hs) as [w' Hw'].
  assert (addComponentToEntity w component e data = Ok w') as Hop.
  { unfold addComponentToEntity. rewrite Htype. cbn [rbind]. rewrite Hrun. cbn [rbind].
    destruct (ArchetypeManager.update _ _ _) as [k am1]. rewrite decide_True by done.
    exact Hw'. }
  exists w'. split; [done|].
  destruct (addComponentToEntity_shape _ _ _ _ _ Hop) as (type' & instances & cm1' & Ht' & Hrun' & Hafter).
  assert (type' = type) as -> by congruence.
  rewrite Hrun in Hrun'. injection Hrun' as <- <-.
  destruct (afterUpdate_settled _ _ _ _ _ Hinv Hs He
              (addToEntity_sameShape _ _ _ _ _ _ _ Hrun) Hafter) as [Hset ->].
  by split.
Qed.

Lemma removeComponentFromEntity_run w component e type :
  world_inv w → state w = initialized → inRange w e →
  getComponentByName w component = Ok type →
  ∃ w', removeComponentFromEntity w component e = Ok w' ∧ settled w w'.
Proof.
  intros Hinv Hs He Htype.
  destruct (ComponentManager.removeFromEntity (componentManager w) (ByRef type) e)
    as [instances cm1] eqn:Hrem.
  destruct (refresh_initialized
              (mk (snd (ArchetypeManager.update (archetypeManager w) e instances))
                  cm1 (entityManager w) (queryManager w) (state w)) true Hs) as [w' Hw'].
  assert (removeComponentFromEntity w component e = Ok w') as Hop.
  { unfold removeComponentFromEntity. rewrite Htype. cbn [rbind]. rewrite Hrem.
    destruct (ArchetypeManager.update _ _ _) as [k am1]. rewrite decide_True by done.
    exact Hw'. }
  exists w'. split; [done|].
  destruct (removeComponentFromEntity_shape _ _ _ _ Hop) as (type' & Ht' & Hafter).
  assert (type' = type) as -> by congruence.
  eapply afterUpdate_settled; [done..| |exact Hafter].
  apply removeFromEntity_sameShape.
Qed.
End AddRemoveAdd.

(** C2 (as amended).  In an initialized world every add and every remove
    ends with [refresh(true)], which clears the entered and exited bit
    sets of every archetype and keeps the changed bits: after add, remove,
    add of a registered component on an entity in range, the entered bit
    and the exited bit of the entity are clear in every archetype and the
    changed bit of the component at the entity is set. *)
Theorem add_remove_add_refreshed (w : World.t) (component : ComponentArg) (e : nat)
    (data1 data2 : option (list (string * JSNumber.t))) :
  reachable inRange w → World.state w = initialized → inRange w e →
  is_Some (ComponentManager.getInstance (World.componentManager w) component ≫= instanceOf) →
  ∃ w3 type,
    addRemoveAdd w component e data1 data2 = Ok w3
    ∧ World.getComponentByName w component = Ok type
    ∧ (∀ k a, ArchetypeManager.registry (World.archetypeManager w3) !! k = Some a →
              BooleanArray.get (Archetype.entered a) e = false
              ∧ BooleanArray.get (Archetype.exited a) e = false)
    ∧ ComponentManager.changedBit (World.componentManager w3) (c_ref type) e = true.
Proof.
  intros Hreach Hs He Hreg.
  apply reachable_inv in Hreach as Hinv; [|done].
  pose proof Hinv as (_ & _ & Hcm & _).
  destruct (getComponentByName_registered _ _ _ Hcm Hreg) as (type & Htype & Hinst).
  destruct (addComponentToEntity_run w component e data1 type Hinv Hs He Htype Hinst)
    as (w1 & Hop1 & (Hinv1 & Hs1 & Hem1 & Hshape1 & Hcap1 & _) & _).
  assert (inRange w1 e) as He1 by (unfold inRange; by rewrite Hem1).
  assert (World.getComponentByName w1 component = Ok type) as Htype1.
  { by rewrite (getComponentByName_sameShape _ _ _ _ Hshape1). }
  destruct (removeComponentFromEntity_run w1 component e type Hinv1 Hs1 He1 Htype1)
    as (w2 & Hop2 & (Hinv2 & Hs2 & Hem2 & Hshape2 & Hcap2 & _)).
  assert (inRange w2 e) as He2 by (unfold inRange; by rewrite Hem2).
  assert (World.getComponentByName w2 component = Ok type) as Htype2.
  { by rewrite (getComponentByName_sameShape _ _ _ _ Hshape2). }
  assert (is_Some (ComponentManager.getInstance (World.componentManager w2) (ByRef type)
                   ≫= instanceOf))
    as Hinst2.
  { by rewrite (getInstance_sameShape _ _ _ _ Hshape2),
               (getInstance_sameShape _ _ _ _ Hshape1). }
  destruct (addComponentToEntity_run w2 component e data2 type Hinv2 Hs2 He2 Htype2 Hinst2)
    as (w3 & Hop3 & (_ & _ & _ & _ & _ & Hclear) & Hchanged).
  exists w3, type. unfold addRemoveAdd. rewrite Hop1. cbn [rbind]. rewrite Hop2. cbn [rbind].
  split; [done|]. split; [done|]. split; [|done].
  intros k a Ha. by eapply Hclear.
Qed.

Lemma add_remove_add_refreshed_witness :
  ∃ w3 type,
    addRemoveAdd sampleWorldOne (ByName "active") 0 None None = Ok w3
    ∧ World.getComponentByName sampleWorldOne (ByName "active") = Ok type
    ∧ (∀ k a, ArchetypeManager.registry (World.archetypeManager w3) !! k = Some a →
              BooleanArray.get (Archetype.entered a) 0 = false
              ∧ BooleanArray.get (Archetype.exited a) 0 = false)
    ∧ ComponentManager.changedBit (World.componentManager w3) (c_ref type) 0 = true.
Proof.
  apply (add_remove_add_refreshed sampleWorldOne (ByName "active") 0 None None).
  - apply sampleWorldOne_reachable.
  - reflexivity.
  - unfold inRange. vm_compute. lia.
  - vm_compute. eauto.
Defined.

(** C2, counterexample: in the initialized sample world the sequence add,
    remove, add on entity 0 leaves the entered bit of entity 0 clear in
    its archetype. *)
Lemma add_remove_add_counterexample :
  ¬ specAddRemoveAdd sampleWorldOne (ByRef activeComponent) 0 None None.
Proof.
  intros (w3 & type & a & Hrun & _ & Harch & Hentered & _).
  vm_compute in Hrun. injection Hrun as <-.
  vm_compute in Harch. injection Harch as <-.
  vm_compute in Hentered. discriminate Hentered.
Qed.

(** ** Destroying and creating again, in the world *)

Section DestroyCreate.
Import World.

Lemma reachable_pool w : reachable inRange w → world_inv w ∧ pool_wf w.
Proof.
  intros (M & cap & comps & w0 & Hnew & Hsteps).
  assert (pool_wf w0) as Hpool0.
  { revert Hnew. unfold World.new. destruct (negb _); [done|].
    unfold EntityManager.new. destruct (_ || _); cbn [rbind]; [done|].
    intros [= <-]. unfold pool_wf, BitPool.wf. simpl. by rewrite length_replicate. }
  apply new_inv in Hnew as [Hinv0 _].
  induction Hsteps as [|w1 w2 w3 Hstep _ IH]; [done|].
  apply IH; [by eapply step_inv|by eapply step_pool].
Qed.

(** In a reachable world [entities.destroy] of an id in range returns
    normally, and the next [entities.create] returns an id. *)
Lemma destroyEntity_then_create w e :
  reachable inRange w → inRange w e →
  ∃ w1, destroyEntity w e = Ok w1 ∧ ∃ e' w2, createEntity w1 = (Some e', w2).
Proof.
  intros [Hinv Hpool]%reachable_pool He.
  pose proof Hinv as (Hai & Hcapem & _).
  assert (e < ArchetypeManager.capacity (archetypeManager w))%nat as He'.
  { unfold inRange in He. lia. }
  destruct (reset_spec _ e Hai He') as (am1 & Hreset & _).
  assert (∃ w1, destroyEntity w e = Ok w1
                ∧ entityManager w1
                  = EntityManager.mk (BitPool.release (EntityManager.pool (entityManager w)) e))
    as (w1 & Hd & Hem).
  { unfold destroyEntity. cbv zeta. rewrite Hreset. cbn [rbind].
    unfold EntityManager.destroy, EntityManager.isEntity. unfold inRange in He.
    destruct (Nat.ltb_spec e (EntityManager.capacity (entityManager w))); [|lia].
    cbn [negb rbind]. eauto. }
  exists w1. split; [done|].
  destruct (create_free (entityManager w1)) as (e' & m2 & Hc).
  { rewrite Hem. simpl. apply list_elem_of_lookup. exists e.
    apply list_lookup_insert_eq. unfold pool_wf, BitPool.wf in Hpool.
    unfold inRange, EntityManager.capacity in He. lia. }
  exists e'. eexists. unfold createEntity. by rewrite Hc.
Qed.
End DestroyCreate.

(** Before [init] no call refreshes: the same sequence then leaves, in the
    archetype of the component, the entered bit of the entity set together
    with its exited bit, which the remove set and the second add kept. *)
Example add_remove_add_without_refresh :
  ∃ w3 a,
    addRemoveAdd sampleWorld (ByRef activeComponent) 0 None None = Ok w3
    ∧ World.entityArchetype w3 0 = Some a
    ∧ BooleanArray.get (Archetype.entered a) 0 = true
    ∧ BooleanArray.get (Archetype.exited a) 0 = true
    ∧ ComponentManager.changedBit (World.componentManager w3) (c_ref activeComponent) 0 = true.
Proof. do 2 eexists. repeat split; vm_compute; reflexivity. Qed.

(** * Further properties of the embedded code *)

#[local] Set Warnings "-clear-no-such-hyp".

(** ** Enumeration of bit sets *)

Section BitSetEnumeration.
Import BooleanArray.

Lemma ba_truthyIndices_elem a e :
  e ∈ truthyIndices a ↔ (e < size a)%nat ∧ get a e = true.
Proof.
  unfold truthyIndices. rewrite list_elem_of_filter, elem_of_seq. split.
  - intros [Hb Hr]. split; [lia|done].
  - intros [Hr Hb]. split; [done|lia].
Qed.

Lemma ba_truthyIndices_NoDup a : NoDup (truthyIndices a).
Proof. unfold truthyIndices. apply NoDup_filter, NoDup_seq. Qed.

Lemma ba_truthyIndices_clear a : truthyIndices (clear a) = [].
Proof.
  unfold truthyIndices.
  induction (seq 0 (size (clear a))) as [|i l IH]; [done|].
  rewrite filter_cons_False; [done|]. by rewrite ba_get_clear.
Qed.

Lemma ba_getTruthyCount_zeros n :
  foldr (λ w k, (popcount32 w + k)%nat) 0%nat (replicate n 0) = 0%nat.
Proof. induction n as [|n IH]; [done|]. simpl. by rewrite IH. Qed.

Lemma ba_getTruthyCount_clear a : getTruthyCount (clear a) = 0%nat.
Proof. unfold getTruthyCount, clear. simpl. apply ba_getTruthyCount_zeros. Qed.
End BitSetEnumeration.

(** ** Archetypes *)

(** X1.  Adding an entity in range that is not a member sets its
    membership bit and its entered bit and leaves the exited bits; removing
    a member clears its membership and entered bits and sets its exited
    bit.  The bits of every other entity, the mask, the component list and
    the id are untouched. *)
Theorem archetype_membership_moves (cap : nat) (a : Archetype.t) (e e' : nat) :
  BooleanArray.wf cap (Archetype.entities a) →
  BooleanArray.wf cap (Archetype.entered a) →
  BooleanArray.wf cap (Archetype.exited a) →
  (e < cap)%nat →
  (BooleanArray.get (Archetype.entities a) e = false →
   BooleanArray.get (Archetype.entities (Archetype.addEntity a e)) e'
   = (if decide (e = e') then true else BooleanArray.get (Archetype.entities a) e')
   ∧ BooleanArray.get (Archetype.entered (Archetype.addEntity a e)) e'
     = (if decide (e = e') then true else BooleanArray.get (Archetype.entered a) e')
   ∧ Archetype.exited (Archetype.addEntity a e) = Archetype.exited a)
  ∧ (BooleanArray.get (Archetype.entities a) e = true →
     BooleanArray.get (Archetype.entities (Archetype.removeEntity a e)) e'
     = (if decide (e = e') then false else BooleanArray.get (Archetype.entities a) e')
     ∧ BooleanArray.get (Archetype.entered (Archetype.removeEntity a e)) e'
       = (if decide (e = e') then false else BooleanArray.get (Archetype.entered a) e')
     ∧ BooleanArray.get (Archetype.exited (Archetype.removeEntity a e)) e'
       = (if decide (e = e') then true else BooleanArray.get (Archetype.exited a) e'))
  ∧ Archetype.bitfield (Archetype.addEntity a e) = Archetype.bitfield a
  ∧ Archetype.bitfield (Archetype.removeEntity a e) = Archetype.bitfield a
  ∧ Archetype.id (Archetype.addEntity a e) = Archetype.id a
  ∧ Archetype.id (Archetype.removeEntity a e) = Archetype.id a
  ∧ Archetype.components (Archetype.addEntity a e) = Archetype.components a
  ∧ Archetype.components (Archetype.removeEntity a e) = Archetype.components a.
Proof.
  intros Hent Hin Hout He.
  split; [|split].
  - intros Hm. unfold Archetype.addEntity. rewrite Hm. simpl.
    by rewrite !(ba_get_set_wf cap).
  - intros Hm. unfold Archetype.removeEntity. rewrite Hm. simpl.
    by rewrite !(ba_get_set_wf cap).
  - unfold Archetype.addEntity, Archetype.removeEntity.
    by destruct (BooleanArray.get (Archetype.entities a) e).
Qed.

Lemma archetype_membership_moves_witness :
  let a0 := Archetype.new 4 [] None in
  let a1 := Archetype.addEntity a0 2 in
  BooleanArray.get (Archetype.entered a1) 2 = true
  ∧ BooleanArray.get (Archetype.exited (Archetype.removeEntity a1 2)) 2 = true
  ∧ BooleanArray.get (Archetype.entities (Archetype.removeEntity a1 2)) 2 = false.
Proof.
  intros a0 a1.
  assert (2 < 4)%nat as Hlt by lia.
  destruct (archetype_membership_moves 4 a0 2 2 (ba_wf_new 4) (ba_wf_new 4) (ba_wf_new 4) Hlt)
    as ((_ & Hentered & _) & _).
  { reflexivity. }
  assert (BooleanArray.wf 4 (Archetype.entities a1)) as Hw1 by (split; reflexivity).
  assert (BooleanArray.wf 4 (Archetype.entered a1)) as Hw2 by (split; reflexivity).
  assert (BooleanArray.wf 4 (Archetype.exited a1)) as Hw3 by (split; reflexivity).
  destruct (archetype_membership_moves 4 a1 2 2 Hw1 Hw2 Hw3 Hlt)
    as (_ & Hrem & _).
  destruct (Hrem eq_refl) as (Hgone & _ & Hexited).
  split; [exact Hentered|]. split; [exact Hexited|exact Hgone].
Defined.

(** X2.  [Archetype.refresh] empties the entered and exited sets, so the
    archetype is not dirty afterwards, and keeps the members. *)
Theorem archetype_refresh_clears (a : Archetype.t) :
  Archetype.getEntered (Archetype.refresh a) = []
  ∧ Archetype.getExited (Archetype.refresh a) = []
  ∧ Archetype.isDirty (Archetype.refresh a) = false
  ∧ Archetype.getEntities (Archetype.refresh a) = Archetype.getEntities a
  ∧ Archetype.getPopulationCount (Archetype.refresh a) = Archetype.getPopulationCount a
  ∧ Archetype.isEmpty (Archetype.refresh a) = Archetype.isEmpty a.
Proof.
  unfold Archetype.getEntered, Archetype.getExited, Archetype.isDirty, Archetype.refresh.
  simpl. rewrite !ba_truthyIndices_clear, !ba_getTruthyCount_clear. by repeat split.
Qed.

(** X3.  [Archetype.isCandidate] memoises: a query that is not in the
    cache gets the result of [isQueryMatch] on the archetype's mask, a
    second call returns the same result and changes nothing, and the call
    touches neither the members nor the cache entries of other queries. *)
Theorem isCandidate_memo (a : Archetype.t) (q q' : QueryInstance) :
  let r := fst (Archetype.isCandidate a q) in
  let a' := snd (Archetype.isCandidate a q) in
  Archetype.isCandidate a' q = (r, a')
  ∧ (Archetype.candidateCache a !! q_id q = None → r = isQueryMatch (Archetype.bitfield a) q)
  ∧ (∀ cached, Archetype.candidateCache a !! q_id q = Some cached → r = cached ∧ a' = a)
  ∧ (q_id q' ≠ q_id q →
     Archetype.candidateCache a' !! q_id q' = Archetype.candidateCache a !! q_id q')
  ∧ Archetype.entities a' = Archetype.entities a
  ∧ Archetype.bitfield a' = Archetype.bitfield a.
Proof.
  unfold Archetype.isCandidate.
  destruct (Archetype.candidateCache a !! q_id q) as [cached|] eqn:Hc; simpl.
  - rewrite Hc. split; [done|]. split; [done|]. split; [|done].
    intros c [= <-]. done.
  - rewrite lookup_insert_eq. split; [done|]. split; [done|]. split; [done|].
    split; [|done]. intros Hne. by rewrite lookup_insert_ne.
Qed.

Lemma isCandidate_memo_witness :
  let a := Archetype.new 4 [mkInstance 0 activeComponent] None in
  let q := queryOfMasks (BooleanArray.mk 1 [1]) (BooleanArray.new 1) (BooleanArray.new 1) in
  fst (Archetype.isCandidate a q) = isQueryMatch (Archetype.bitfield a) q.
Proof.
  intros a q.
  destruct (isCandidate_memo a q q) as (_ & Hfresh & _).
  apply Hfresh. reflexivity.
Defined.

(** ** Masks built bit by bit *)

Section MaskFacts.
Import BooleanArray.

Lemma uint32_of_bits x :
  0 <= x → (∀ j, 32 <= j → Z.testbit x j = false) → JS.uint32 x.
Proof.
  intros Hx Hhigh. split; [done|].
  assert (x = x mod 2 ^ 32) as ->.
  { apply Z.bits_inj'. intros j Hj.
    destruct (Z.lt_ge_cases j 32) as [Hlow|Hge].
    - by rewrite Z.mod_pow2_bits_low.
    - rewrite Z.mod_pow2_bits_high by lia. by apply Hhigh. }
  apply Z.mod_pos_bound. lia.
Qed.

Lemma uint32_setbit w k : JS.uint32 w → 0 <= k < 32 → JS.uint32 (Z.setbit w k).
Proof.
  intros Hw Hk. apply uint32_of_bits.
  - rewrite Z.setbit_spec'. apply Z.lor_nonneg. split; [apply Hw|]. apply Z.pow_nonneg. lia.
  - intros j Hj. rewrite Z.setbit_neq by lia. by apply uint32_high_bits.
Qed.

Lemma uint32_clearbit w k : JS.uint32 w → JS.uint32 (Z.clearbit w k).
Proof.
  intros Hw. apply uint32_of_bits.
  - rewrite Z.clearbit_spec'. apply Z.ldiff_nonneg. left. apply Hw.
  - intros j Hj. destruct (decide (k = j)) as [->|Hne].
    + apply Z.clearbit_eq.
    + rewrite Z.clearbit_neq by done. by apply uint32_high_bits.
Qed.

Lemma uint32Words_new n : uint32Words (new n).
Proof.
  unfold uint32Words, new. simpl. apply Forall_replicate. unfold JS.uint32. lia.
Qed.

Lemma uint32Words_set a i b : uint32Words a → uint32Words (set a i b).
Proof.
  intros Ha. unfold uint32Words, set. simpl. apply Forall_insert; [done|].
  pose proof (word_uint32 a (i / 32) Ha) as Hw.
  assert (0 <= Z.of_nat (i mod 32) < 32) as Hk.
  { pose proof (Nat.mod_upper_bound i 32). lia. }
  destruct b; [by apply uint32_setbit|by apply uint32_clearbit].
Qed.

Lemma uint32Words_clear a : uint32Words (clear a).
Proof.
  unfold uint32Words, clear. simpl. apply Forall_replicate. unfold JS.uint32. lia.
Qed.

(** The mask after setting the bits [ids], as [maskOf], [scratch] and
    [fromIds] do. *)
Lemma ba_setAll_wf n ids : ∀ a, wf n a → wf n (foldl (λ b i, set b i true) a ids).
Proof. induction ids as [|i ids IH]; intros a Ha; simpl; [done|]. by apply IH, ba_wf_set. Qed.

Lemma ba_setAll_uint32 ids : ∀ a,
  uint32Words a → uint32Words (foldl (λ b i, set b i true) a ids).
Proof.
  induction ids as [|i ids IH]; intros a Ha; simpl; [done|]. by apply IH, uint32Words_set.
Qed.

Lemma ba_setAll_get n ids : ∀ a j,
  wf n a → Forall (λ i, i < n)%nat ids →
  get (foldl (λ b i, set b i true) a ids) j = true ↔ j ∈ ids ∨ get a j = true.
Proof.
  induction ids as [|i ids IH]; intros a j Ha Hids; simpl.
  - rewrite elem_of_nil. naive_solver.
  - apply Forall_cons in Hids as [Hi Hids].
    rewrite IH by auto using ba_wf_set.
    rewrite (ba_get_set_wf n) by done. rewrite elem_of_cons.
    case_decide; naive_solver.
Qed.

(** Two bit sets of the same size with the same bits have the same words. *)
Lemma ba_bits_ext n a b :
  wf n a → wf n b → uint32Words a → uint32Words b →
  (∀ i, get a i = get b i) → a = b.
Proof.
  intros [Hsa Hla] [Hsb Hlb] Hua Hub Hbits.
  destruct a as [sa wa], b as [sb wb]. simpl in *. subst sa sb. f_equal.
  apply list_eq_same_length with (wordCount n); [done..|].
  intros q x y Hq Hx Hy.
  apply Z.bits_inj'. intros k Hk.
  destruct (Z.lt_ge_cases k 32) as [Hlow|Hhigh].
  - specialize (Hbits (q * 32 + Z.to_nat k)%nat). unfold get, word in Hbits.
    assert (((q * 32 + Z.to_nat k) / 32)%nat = q) as Hdiv
      by (symmetry; apply Nat.div_unique with (Z.to_nat k); lia).
    assert (((q * 32 + Z.to_nat k) mod 32)%nat = Z.to_nat k) as Hmod
      by (symmetry; apply Nat.mod_unique with q; lia).
    rewrite Hdiv, Hmod in Hbits. cbn [buffer] in Hbits.
    rewrite Hx, Hy, Z2Nat.id in Hbits by lia. exact Hbits.
  - assert (JS.uint32 x) as Hux by (by eapply (Forall_lookup_1 _ _ _ _ Hua)).
    assert (JS.uint32 y) as Huy by (by eapply (Forall_lookup_1 _ _ _ _ Hub)).
    by rewrite (uint32_high_bits x), (uint32_high_bits y).
Qed.
End MaskFacts.

(** ** The archetype manager *)

Section ArchetypeManagerFacts.
Import ArchetypeManager.

Lemma scratch_ids m cs :
  scratch m cs
  = foldl (λ b i, BooleanArray.set b i true)
          (BooleanArray.clear (BooleanArray.new (componentCount m))) (ci_id <$> cs).
Proof.
  unfold scratch. generalize (BooleanArray.clear (BooleanArray.new (componentCount m))).
  induction cs as [|c cs IH]; intros b; simpl; [done|]. apply IH.
Qed.

Lemma scratch_get m cs j :
  Forall (λ c, ci_id c < componentCount m)%nat cs →
  BooleanArray.get (scratch m cs) j = true ↔ j ∈ ci_id <$> cs.
Proof.
  intros Hcs. rewrite scratch_ids.
  rewrite (ba_setAll_get (componentCount m)).
  - rewrite ba_get_clear. naive_solver.
  - apply ba_wf_clear, ba_wf_new.
  - by apply Forall_fmap.
Qed.

Lemma update_fst m e cs : fst (update m e cs) = BooleanArray.buffer (scratch m cs).
Proof. unfold update. by case_bool_decide. Qed.

(** X4. [ArchetypeManager.set] checks the archetype before the entity: it
    throws NotRegisteredError exactly when the archetype is not in the
    registry, and RangeError exactly when the archetype is registered and
    the entity is past the end of the entity array.  An entity already
    seated in the archetype leaves the manager as it is.  Every normal
    return hands back the archetype it was given, seats the entity in it
    and leaves every other seat, the array length and the query sets as
    they were. *)
Theorem archetypeManager_set_outcomes (m : t) (k : ArchId) (e : nat) :
  (set m k e = Throw NotRegisteredError ↔ registry m !! k = None)
  ∧ (set m k e = Throw RangeError
     ↔ is_Some (registry m !! k) ∧ (length (entityArchetypes m) <= e)%nat)
  ∧ (is_Some (registry m !! k) → (e < length (entityArchetypes m))%nat →
     getEntityArchetype m e = Some k → set m k e = Ok (k, m))
  ∧ (∀ r, set m k e = Ok r →
       fst r = k
       ∧ getEntityArchetype (snd r) e = Some k
       ∧ (∀ e', e' ≠ e → getEntityArchetype (snd r) e' = getEntityArchetype m e')
       ∧ length (entityArchetypes (snd r)) = length (entityArchetypes m)
       ∧ queryArchetypes (snd r) = queryArchetypes m).
Proof.
  unfold set, has, getEntityArchetype.
  destruct (registry m !! k) as [a|] eqn:Hk.
  - rewrite bool_decide_true by eauto. cbn [negb].
    destruct (Nat.leb_spec (length (entityArchetypes m)) e) as [Hle|Hlt].
    + repeat split; try done; try lia; eauto.
    + case_bool_decide as Hcur.
      * split; [done|]. split; [split; [done|intros [_ ?]; lia]|].
        split; [done|]. intros r [= <-]. simpl. done.
      * split; [done|]. split; [split; [done|intros [_ ?]; lia]|].
        split; [done|]. intros r [= <-]. cbn [fst snd entityArchetypes queryArchetypes].
        split; [done|]. split; [apply array_get_set_eq|].
        split; [intros e' He'; by apply array_get_set_ne|].
        split; [by apply array_set_length|done].
  - rewrite bool_decide_false by (intros [? ?]; done). cbn [negb].
    split; [done|]. split; [split; [done|intros [[? ?] _]; done]|].
    split; [intros [? ?]; done|]. done.
Qed.

(** X5. [ArchetypeManager.update] is idempotent: running it again for the
    same entity with the same components returns the same archetype and
    changes nothing, because the entity is then already seated in the
    archetype of that component list. *)
Theorem archetypeManager_update_idempotent (m : t) (e : nat) (cs : list ComponentInstance) :
  update (snd (update m e cs)) e cs = update m e cs.
Proof.
  unfold update at 2 3. case_bool_decide as Hold; cbn [snd].
  - unfold update. by rewrite bool_decide_true.
  - unfold update. cbn [entityArchetypes]. unfold scratch. cbn [componentCount].
    rewrite array_get_set_eq. by rewrite bool_decide_true.
Qed.

(** X6. The archetype that [ArchetypeManager.update] picks depends only on
    the set of component ids: two component lists, with ids below the
    component count, lead to the same archetype if and only if they hold
    the same ids, whatever their order and repetitions; the entity and its
    former archetype play no part. *)
Theorem archetypeManager_update_by_id_set (m : t) (e e' : nat) (cs cs' : list ComponentInstance)
    (Hcs : Forall (λ c, ci_id c < componentCount m)%nat cs)
    (Hcs' : Forall (λ c, ci_id c < componentCount m)%nat cs') :
  fst (update m e cs) = fst (update m e' cs')
  ↔ ∀ i, i ∈ ci_id <$> cs ↔ i ∈ ci_id <$> cs'.
Proof.
  rewrite !update_fst. split.
  - intros Heq i. rewrite <- !(scratch_get m) by done.
    unfold BooleanArray.get, BooleanArray.word. by rewrite Heq.
  - intros Hids. f_equal.
    apply (ba_bits_ext (componentCount m)).
    + rewrite scratch_ids. apply ba_setAll_wf, ba_wf_clear, ba_wf_new.
    + rewrite scratch_ids. apply ba_setAll_wf, ba_wf_clear, ba_wf_new.
    + rewrite scratch_ids. apply ba_setAll_uint32, uint32Words_clear.
    + rewrite scratch_ids. apply ba_setAll_uint32, uint32Words_clear.
    + intros i. apply eq_true_iff_eq. rewrite !scratch_get by done. apply Hids.
Qed.

Lemma archetypeManager_update_by_id_set_witness :
  fst (update (new 4 3) 0 [mkInstance 0 positionComponent; mkInstance 2 activeComponent])
  = fst (update (new 4 3) 1 [mkInstance 2 activeComponent; mkInstance 0 positionComponent;
                             mkInstance 2 activeComponent]).
Proof.
  apply archetypeManager_update_by_id_set.
  - repeat constructor.
  - repeat constructor.
  - intros i. cbn [fmap list_fmap ci_id]. rewrite !elem_of_cons, !elem_of_nil. naive_solver.
Defined.

(** X7. [ArchetypeManager.init] on a consistent manager returns normally
    and seats every entity below the capacity in the root archetype: the
    archetype of each of them is the root, the root then counts each of
    them as a member, and no entity at or past the capacity has an
    archetype ([getEntityArchetype] is undefined for it). *)
Theorem archetypeManager_init_seats_root (m : t) (Hinv : arch_inv m) :
  ∃ m', init m = Ok m'
        ∧ root m' = root m
        ∧ (∀ e, isEntityInRoot m' e = bool_decide (e < capacity m)%nat)
        ∧ (∀ e, (e < capacity m)%nat → getEntityArchetype m' e = Some (root m))
        ∧ (∀ e, (capacity m <= e)%nat → getEntityArchetype m' e = None)
        ∧ ∃ a, registry m' !! root m = Some a
               ∧ ∀ e, (e < capacity m)%nat →
                      BooleanArray.get (Archetype.entities a) e = true.
Proof.
  destruct (init_spec m Hinv) as (m' & Hinit & Hinv' & (Hcap & Hroot & Hcc) & Hseat).
  exists m'. split; [done|]. split; [done|].
  destruct Hinv' as (Hreg & _ & Hlen & Hwf & Hin & Hout).
  assert (∀ e, (capacity m <= e)%nat → getEntityArchetype m' e = None) as Hpast.
  { intros e He. unfold getEntityArchetype, JS.array_get.
    rewrite lookup_ge_None_2 by lia. done. }
  split; [|split; [|split; [exact Hpast|]]].
  - intros e. unfold isEntityInRoot. rewrite Hroot.
    destruct (decide (e < capacity m)%nat) as [He|He].
    + rewrite (bool_decide_true (e < capacity m)%nat) by done.
      apply bool_decide_true. by apply Hseat.
    + rewrite (bool_decide_false (e < capacity m)%nat) by done.
      apply bool_decide_false. rewrite Hpast by lia. done.
  - exact Hseat.
  - rewrite Hroot in Hreg. destruct Hreg as [a Ha]. exists a. split; [done|].
    intros e He. destruct (Hin e (root m) (Hseat e He)) as (a' & Ha' & Hget).
    congruence.
Qed.

Lemma archetypeManager_init_seats_root_witness :
  ∃ m', init (new 3 2) = Ok m'
        ∧ root m' = root (new 3 2)
        ∧ (∀ e, isEntityInRoot m' e = bool_decide (e < capacity (new 3 2))%nat)
        ∧ (∀ e, (e < capacity (new 3 2))%nat → getEntityArchetype m' e = Some (root (new 3 2)))
        ∧ (∀ e, (capacity (new 3 2) <= e)%nat → getEntityArchetype m' e = None)
        ∧ ∃ a, registry m' !! root (new 3 2) = Some a
               ∧ ∀ e, (e < capacity (new 3 2))%nat →
                      BooleanArray.get (Archetype.entities a) e = true.
Proof. apply archetypeManager_init_seats_root, arch_inv_new. Defined.

(** X8. After [ArchetypeManager.destroy] the manager knows no archetype,
    not even its root: no entity has an archetype, no query has a set,
    and [set] and [reset] throw NotRegisteredError for every entity. *)
Theorem archetypeManager_destroy_forgets (m : t) (k : ArchId) (e : nat) (q : QueryInstance) :
  has (destroy m) k = false
  ∧ getEntityArchetype (destroy m) e = None
  ∧ isEntityInRoot (destroy m) e = false
  ∧ query (destroy m) q = None
  ∧ set (destroy m) k e = Throw NotRegisteredError
  ∧ reset (destroy m) e = Throw NotRegisteredError.
Proof.
  assert (has (destroy m) k = false) as Hhas.
  { unfold has, destroy. cbn [registry]. rewrite lookup_empty.
    apply bool_decide_false. by intros [? ?]. }
  assert (∀ k', set (destroy m) k' e = Throw NotRegisteredError) as Hset.
  { intros k'. unfold set, has, destroy. cbn [registry]. rewrite lookup_empty.
    rewrite bool_decide_false by (by intros [? ?]). done. }
  repeat split; try done.
Qed.
Lemma isCandidate_cache_mono a q id :
  is_Some (Archetype.candidateCache a !! id) →
  is_Some (Archetype.candidateCache (snd (Archetype.isCandidate a q)) !! id).
Proof.
  intros Hid. unfold Archetype.isCandidate.
  destruct (Archetype.candidateCache a !! q_id q) eqn:Hc; simpl; [done|].
  destruct (decide (q_id q = id)) as [<-|Hne].
  - rewrite lookup_insert_eq. eauto.
  - by rewrite lookup_insert_ne.
Qed.

Lemma isCandidate_cache_self a q :
  is_Some (Archetype.candidateCache (snd (Archetype.isCandidate a q)) !! q_id q).
Proof.
  unfold Archetype.isCandidate.
  destruct (Archetype.candidateCache a !! q_id q) eqn:Hc; simpl.
  - rewrite Hc. eauto.
  - rewrite lookup_insert_eq. eauto.
Qed.

Lemma isCandidate_fold_cache_mono qs : ∀ a id,
  is_Some (Archetype.candidateCache a !! id) →
  is_Some (Archetype.candidateCache
             (foldl (λ a q, snd (Archetype.isCandidate a q)) a qs) !! id).
Proof.
  induction qs as [|q0 qs IH]; intros a id Hid; simpl; [done|].
  by apply IH, isCandidate_cache_mono.
Qed.

Lemma isCandidate_fold_cache qs : ∀ a q,
  q ∈ qs →
  is_Some (Archetype.candidateCache
             (foldl (λ a q, snd (Archetype.isCandidate a q)) a qs) !! q_id q).
Proof.
  induction qs as [|q0 qs IH]; intros a q Hq; simpl.
  - by apply elem_of_nil in Hq.
  - apply elem_of_cons in Hq as [->|Hq].
    + apply isCandidate_fold_cache_mono, isCandidate_cache_self.
    + by apply IH.
Qed.

(** X9. [ArchetypeManager.refresh] rebuilds the query sets from scratch:
    exactly the queries passed in get a set, the set kept by the manager
    and the one kept by the query instance are the same, and an archetype
    is in it exactly when it is registered, is a candidate for the query
    and has at least one member.  The seats and the members stay, every
    archetype ends with empty entered and exited sets, and its candidate
    cache then has an entry for every query passed in. *)
Theorem archetypeManager_refresh_sets (m : t) (queries : gmap QueryId QueryInstance) :
  dom (queryArchetypes (fst (refresh m queries))) = dom queries
  ∧ dom (snd (refresh m queries)) = dom queries
  ∧ entityArchetypes (fst (refresh m queries)) = entityArchetypes m
  ∧ (∀ id q, queries !! id = Some q →
       ∃ q', snd (refresh m queries) !! id = Some q'
             ∧ queryArchetypes (fst (refresh m queries)) !! id = Some (q_archetypes q')
             ∧ q_id q' = q_id q
             ∧ ∀ k, k ∈ q_archetypes q'
                    ↔ ∃ a, registry m !! k = Some a
                           ∧ fst (Archetype.isCandidate a q) = true
                           ∧ (0 < Archetype.getPopulationCount a)%nat)
  ∧ (∀ k, registry (fst (refresh m queries)) !! k = None ↔ registry m !! k = None)
  ∧ (∀ k a', registry (fst (refresh m queries)) !! k = Some a' →
       ∃ a, registry m !! k = Some a
            ∧ Archetype.getEntities a' = Archetype.getEntities a
            ∧ Archetype.getEntered a' = []
            ∧ Archetype.getExited a' = []
            ∧ Archetype.isDirty a' = false
            ∧ ∀ id q, queries !! id = Some q →
                      is_Some (Archetype.candidateCache a' !! q_id q)).
Proof.
  unfold refresh. cbn [fst snd queryArchetypes entityArchetypes registry].
  split; [by rewrite dom_fmap_L|]. split; [by rewrite dom_fmap_L|]. split; [done|].
  split; [|split].
  - intros id q Hq.
    exists (mkQueryInstance (q_and q) (q_or q) (q_not q) (matching (registry m) q)
                            (q_components q) (q_isDirty q) (q_id q)).
    rewrite !lookup_fmap, Hq. cbn [q_archetypes q_id].
    split; [done|]. split; [done|]. split; [done|].
    intros k. unfold matching. rewrite elem_of_dom. split.
    + intros [a Ha]. apply map_lookup_filter_Some in Ha as [Ha [Hc Hp]]. eauto.
    + intros (a & Ha & Hc & Hp). exists a. by apply map_lookup_filter_Some.
  - intros k. rewrite lookup_fmap. by destruct (registry m !! k).
  - intros k a' Ha'. rewrite lookup_fmap in Ha'.
    destruct (registry m !! k) as [a|] eqn:Ha; [|done]. injection Ha' as <-.
    exists a. split; [done|].
    unfold refreshArchetype, Archetype.getEntities, Archetype.getEntered,
      Archetype.getExited, Archetype.isDirty, Archetype.refresh.
    cbn [Archetype.entities Archetype.entered Archetype.exited Archetype.candidateCache].
    rewrite !ba_truthyIndices_clear, !ba_getTruthyCount_clear.
    split.
    { f_equal. clear. generalize (snd <$> map_to_list queries). intros qs. revert a.
      induction qs as [|q0 qs IH]; intros a; simpl; [done|].
      by rewrite IH, isCandidate_entities. }
    split; [done|]. split; [done|]. split; [done|].
    intros id q Hq. apply isCandidate_fold_cache.
    apply list_elem_of_fmap. exists (id, q). split; [done|].
    by apply elem_of_map_to_list.
Qed.
End ArchetypeManagerFacts.

(** ** The component manager *)

Section ComponentManagerMore.
Import ComponentManager.

Lemma register_registry_fresh cap cm c :
  c_ref c ∉ (registry cm).*1 →
  registry (register cap cm c)
  = registry cm ++ [(c_ref c, mkInstance (length (registry cm)) c)].
Proof. intros Hc. unfold register. cbn [registry]. by apply map_set_fresh. Qed.

Lemma new_registry_from cap cs : ∀ cm,
  NoDup ((registry cm).*1 ++ (c_ref <$> cs)) →
  registry (foldl (register cap) cm cs)
  = registry cm
    ++ imap (λ i c, (c_ref c, mkInstance (length (registry cm) + i) c)) cs.
Proof.
  induction cs as [|c cs IH]; intros cm Hnd; simpl.
  - by rewrite app_nil_r.
  - assert (c_ref c ∉ (registry cm).*1) as Hc.
    { apply NoDup_app in Hnd as (_ & Hdis & _). intros Hin.
      apply (Hdis _ Hin). apply elem_of_cons. by left. }
    rewrite IH.
    + rewrite register_registry_fresh by done.
      rewrite <- app_assoc. f_equal. simpl. rewrite Nat.add_0_r. f_equal.
      apply imap_ext. intros i x _. simpl. rewrite length_app. simpl.
      do 2 f_equal. lia.
    + rewrite register_registry_fresh by done.
      rewrite fmap_app. simpl. rewrite <- app_assoc. done.
Qed.

Lemma new_registry cap cs :
  NoDup (c_ref <$> cs) →
  registry (new cap cs) = imap (λ i c, (c_ref c, mkInstance i c)) cs.
Proof.
  intros Hnd. unfold new. rewrite new_registry_from by done. done.
Qed.

Lemma new_registry_keys cap cs :
  NoDup (c_ref <$> cs) → (registry (new cap cs)).*1 = c_ref <$> cs.
Proof.
  intros Hnd. rewrite new_registry by done.
  apply list_eq. intros i. rewrite !list_lookup_fmap, list_lookup_imap.
  by destruct (cs !! i).
Qed.

Lemma register_byName_other cap cs : ∀ cm name,
  name ∉ c_name <$> cs →
  registryByName (foldl (register cap) cm cs) !! name = registryByName cm !! name.
Proof.
  induction cs as [|c cs IH]; intros cm name Hname; simpl; [done|].
  apply not_elem_of_cons in Hname as [Hne Hname].
  rewrite IH by done. unfold register. cbn [registryByName].
  by rewrite lookup_insert_ne.
Qed.

Lemma new_byName_from cap cs : ∀ cm i c,
  NoDup ((registry cm).*1 ++ (c_ref <$> cs)) →
  NoDup (c_name <$> cs) →
  cs !! i = Some c →
  registryByName (foldl (register cap) cm cs) !! c_name c
  = Some (mkInstance (length (registry cm) + i) c).
Proof.
  induction cs as [|c0 cs IH]; intros cm i c Hnd Hnames Hi; [done|].
  simpl. apply NoDup_cons in Hnames as [Hc0 Hnames].
  assert (c_ref c0 ∉ (registry cm).*1) as Hfresh.
  { apply NoDup_app in Hnd as (_ & Hdis & _). intros Hin.
    apply (Hdis _ Hin). apply elem_of_cons. by left. }
  destruct i as [|i]; simpl in Hi.
  - injection Hi as ->. rewrite register_byName_other by done.
    unfold register. cbn [registryByName]. rewrite lookup_insert_eq.
    by rewrite Nat.add_0_r.
  - rewrite (IH _ i c); [| |done|done].
    + rewrite register_registry_fresh by done. rewrite length_app. simpl.
      do 2 f_equal. lia.
    + rewrite register_registry_fresh by done.
      rewrite fmap_app. simpl. by rewrite <- app_assoc.
Qed.

Lemma new_bits_from cap cs : ∀ cm,
  (∀ k o, owners cm !! k = Some o → o = BooleanArray.new cap) →
  (∀ k o, changed cm !! k = Some o → o = BooleanArray.new cap) →
  (∀ k o, owners (foldl (register cap) cm cs) !! k = Some o → o = BooleanArray.new cap)
  ∧ (∀ k o, changed (foldl (register cap) cm cs) !! k = Some o → o = BooleanArray.new cap).
Proof.
  induction cs as [|c cs IH]; intros cm Ho Hc; simpl; [done|].
  apply IH; intros k o; unfold register; cbn [owners changed];
    (destruct (decide (c_ref c = k)) as [->|Hne];
     [rewrite lookup_insert_eq; congruence|rewrite lookup_insert_ne by done; eauto]).
Qed.

Lemma new_bits cap cs p e :
  ownerBit (new cap cs) p e = false ∧ changedBit (new cap cs) p e = false.
Proof.
  destruct (new_bits_from cap cs (mk ∅ ∅ [] ∅ ∅ ∅)) as [Ho Hc]; [done..|].
  unfold ownerBit, changedBit, new. split.
  - destruct (owners _ !! p) as [o|] eqn:Hp; [|done].
    rewrite (Ho _ _ Hp). apply ba_get_new.
  - destruct (changed _ !! p) as [o|] eqn:Hp; [|done].
    rewrite (Hc _ _ Hp). apply ba_get_new.
Qed.

(** X10. The constructor of the component manager, given distinct
    components with distinct names, numbers the instances densely in
    registration order: the component at position [i] gets the instance
    with id [i], found under its descriptor and under its name, and the
    count is the number of components.  A descriptor outside the list is
    not registered, and no entity owns a component or is marked changed
    in the new manager. *)
Theorem componentManager_new_dense (cap : nat) (cs : list Component)
    (Hrefs : NoDup (c_ref <$> cs)) (Hnames : NoDup (c_name <$> cs)) :
  count (new cap cs) = length cs
  ∧ (∀ i c, cs !! i = Some c →
       getInstance (new cap cs) (ByRef c) = Some (Found (mkInstance i c))
       ∧ getInstance (new cap cs) (ByName (c_name c)) = Some (Found (mkInstance i c)))
  ∧ (∀ c, isRegistered (new cap cs) (ByRef c) = true ↔ c_ref c ∈ c_ref <$> cs)
  ∧ (∀ p e, ownerBit (new cap cs) p e = false ∧ changedBit (new cap cs) p e = false)
  ∧ (∀ e, getEntityComponentsDirect (new cap cs) e = []).
Proof.
  split; [|split; [|split; [|split]]].
  - unfold count. rewrite new_registry by done. by rewrite length_imap.
  - intros i c Hi. split.
    + apply getInstance_Found. apply map_get_NoDup.
      * by rewrite new_registry_keys.
      * rewrite new_registry by done.
        apply elem_of_lookup_imap. by exists i, c.
    + apply getInstance_Found. unfold new.
      rewrite (new_byName_from cap cs _ i c) by done. done.
  - intros c. unfold isRegistered, getInstance.
    rewrite bool_decide_eq_true, fmap_is_Some, <- not_eq_None_Some, map_get_None.
    rewrite new_registry_keys by done.
    split; [apply dec_stable|by intros ? ?].
  - intros p e. apply new_bits.
  - intros e. unfold getEntityComponentsDirect.
    induction (registry (new cap cs)) as [|pi l IH]; [done|].
    rewrite filter_cons_False; [done|].
    destruct (new_bits cap cs pi.1 e) as [-> _]. done.
Qed.

Lemma componentManager_new_dense_witness :
  getInstance (new 4 [positionComponent; activeComponent]) (ByRef activeComponent)
  = Some (Found (mkInstance 1 activeComponent))
  ∧ count (new 4 [positionComponent; activeComponent]) = 2%nat.
Proof.
  assert (NoDup (c_ref <$> [positionComponent; activeComponent])) as Hrefs.
  { cbn. apply NoDup_cons. split; [|apply NoDup_singleton].
    rewrite list_elem_of_singleton. done. }
  assert (NoDup (c_name <$> [positionComponent; activeComponent])) as Hnames.
  { cbn. apply NoDup_cons. split; [|apply NoDup_singleton].
    rewrite list_elem_of_singleton. done. }
  destruct (componentManager_new_dense 4 [positionComponent; activeComponent] Hrefs Hnames)
    as (Hcount & Hinst & _).
  split; [|exact Hcount].
  exact (proj1 (Hinst 1%nat activeComponent eq_refl)).
Defined.
Lemma addToEntity_bits cap cm component e data i :
  cm_wf cap cm → (e < cap)%nat → getInstance cm component = Some (Found i) →
  ∃ cm',
    addToEntity cm component e data = Ok (getEntityComponentsDirect cm' e, cm')
    ∧ (∀ p e', ownerBit cm' p e'
               = if decide (p = c_ref (ci_type i) ∧ e' = e) then true else ownerBit cm p e')
    ∧ (∀ p e', changedBit cm' p e'
               = if decide (p = c_ref (ci_type i) ∧ e' = e) then true else changedBit cm p e')
    ∧ registry cm' = registry cm
    ∧ registryByName cm' = registryByName cm
    ∧ proxies cm' = proxies cm.
Proof.
  intros Hwf He Hi.
  destruct (cm_wf_getInstance cap cm component i Hwf Hi) as (o & c & Ho & Hwo & Hc & Hwc).
  unfold addToEntity. rewrite Hi, Ho, Hc. eexists. split; [reflexivity|].
  split; [|split; [|done]].
  - intros p e'. unfold ownerBit. cbn [owners].
    destruct (decide (p = c_ref (ci_type i))) as [->|Hne].
    + rewrite lookup_insert_eq, Ho, (ba_get_set_wf cap) by done.
      destruct (decide (e = e')); case_decide; naive_solver.
    + rewrite lookup_insert_ne by done. case_decide; naive_solver.
  - intros p e'. unfold changedBit. cbn [changed].
    destruct (decide (p = c_ref (ci_type i))) as [->|Hne].
    + rewrite lookup_insert_eq, Hc, (ba_get_set_wf cap) by done.
      destruct (decide (e = e')); case_decide; naive_solver.
    + rewrite lookup_insert_ne by done. case_decide; naive_solver.
Qed.

Lemma removeFromEntity_bits cap cm component e i :
  cm_wf cap cm → (e < cap)%nat → getInstance cm component = Some (Found i) →
  (∀ p e', ownerBit (snd (removeFromEntity cm component e)) p e'
           = if decide (p = c_ref (ci_type i) ∧ e' = e) then false else ownerBit cm p e')
  ∧ (∀ p e', changedBit (snd (removeFromEntity cm component e)) p e'
             = if decide (p = c_ref (ci_type i) ∧ e' = e) then false else changedBit cm p e').
Proof.
  intros Hwf He Hi.
  destruct (cm_wf_getInstance cap cm component i Hwf Hi) as (o & c & Ho & Hwo & Hc & Hwc).
  unfold removeFromEntity. rewrite Hi. cbn [snd]. split.
  - intros p e'. unfold ownerBit. cbn [owners].
    destruct (decide (p = c_ref (ci_type i))) as [->|Hne].
    + rewrite lookup_alter_eq, Ho. cbn. rewrite (ba_get_set_wf cap) by done.
      destruct (decide (e = e')); case_decide; naive_solver.
    + rewrite lookup_alter_ne by done. case_decide; naive_solver.
  - intros p e'. unfold changedBit. cbn [changed].
    destruct (decide (p = c_ref (ci_type i))) as [->|Hne].
    + rewrite lookup_alter_eq, Hc. cbn. rewrite (ba_get_set_wf cap) by done.
      destruct (decide (e = e')); case_decide; naive_solver.
    + rewrite lookup_alter_ne by done. case_decide; naive_solver.
Qed.

(** X11. [removeFromEntity] of a registered component clears the owner
    bit and the changed bit of that component at that entity and nothing
    else: every other owner bit and changed bit, the registries, the
    stored field values and the proxies are as before.  So the removal
    itself is not reported by the changed set, and the data of the
    removed component stays in its storage. *)
Theorem componentManager_remove_bits (cap : nat) (cm : t) (component : ComponentArg)
    (e : nat) (i : ComponentInstance)
    (Hwf : cm_wf cap cm) (He : (e < cap)%nat)
    (Hi : getInstance cm component = Some (Found i)) :
  let cm' := snd (removeFromEntity cm component e) in
  fst (removeFromEntity cm component e) = getEntityComponentsDirect cm' e
  ∧ (∀ p e', ownerBit cm' p e'
             = if decide (p = c_ref (ci_type i) ∧ e' = e) then false else ownerBit cm p e')
  ∧ (∀ p e', changedBit cm' p e'
             = if decide (p = c_ref (ci_type i) ∧ e' = e) then false else changedBit cm p e')
  ∧ entityHas cm' component e = false
  ∧ registry cm' = registry cm
  ∧ registryByName cm' = registryByName cm
  ∧ storages cm' = storages cm
  ∧ proxies cm' = proxies cm.
Proof.
  intros cm'. subst cm'.
  destruct (removeFromEntity_bits cap cm component e i Hwf He Hi) as [Ho Hc].
  split; [|split; [done|split; [done|split]]].
  - unfold removeFromEntity. by rewrite Hi.
  - assert (getInstance (snd (removeFromEntity cm component e)) component = Some (Found i))
      as Hi'.
    { rewrite (getInstance_sameShape cap cm); [done|]. apply removeFromEntity_sameShape. }
    unfold entityHas. destruct component as [name|c].
    + rewrite Hi'. cbn. rewrite Ho. by rewrite decide_True.
    + destruct Hwf as [Hreg _]. apply getInstance_Found in Hi.
      destruct (Hreg (c_ref c) i Hi) as [Href _].
      rewrite Ho, <- Href. by rewrite decide_True.
  - unfold removeFromEntity. by rewrite Hi.
Qed.

Lemma componentManager_remove_bits_witness :
  let cm := new 4 [positionComponent; activeComponent] in
  entityHas (snd (removeFromEntity cm (ByName "active") 1)) (ByName "active") 1 = false.
Proof.
  intros cm.
  refine (proj1 (proj2 (proj2 (proj2
    (componentManager_remove_bits 4 cm (ByName "active") 1 (mkInstance 1 activeComponent)
       (cm_wf_new 4 _) _ eq_refl))))).
  lia.
Defined.

(** X12. Adding a registered component to an entity and removing it again
    restores every owner bit when the entity did not own the component
    before; the changed bit of the component at the entity ends cleared
    whatever it was, and the field values written by the addition stay in
    the storage. *)
Theorem componentManager_add_remove (cap : nat) (cm : t) (component : ComponentArg)
    (e : nat) (data : option (list (string * JSNumber.t))) (i : ComponentInstance)
    (Hwf : cm_wf cap cm) (He : (e < cap)%nat)
    (Hi : getInstance cm component = Some (Found i)) :
  ∃ l cm',
    addToEntity cm component e data = Ok (l, cm')
    ∧ let cm'' := snd (removeFromEntity cm' component e) in
      (ownerBit cm (c_ref (ci_type i)) e = false → ∀ p e', ownerBit cm'' p e' = ownerBit cm p e')
      ∧ (∀ p e', changedBit cm'' p e'
                 = if decide (p = c_ref (ci_type i) ∧ e' = e) then false else changedBit cm p e')
      ∧ (ownerBit cm (c_ref (ci_type i)) e = false →
         fst (removeFromEntity cm' component e) = getEntityComponentsDirect cm e)
      ∧ storages cm'' = storages cm'.
Proof.
  destruct (addToEntity_bits cap cm component e data i Hwf He Hi)
    as (cm' & Hadd & Ho & Hc & Hreg & Hname & Hprox).
  exists (getEntityComponentsDirect cm' e), cm'. split; [done|].
  assert (sameShape cap cm cm') as Hshape by (by eapply addToEntity_sameShape).
  assert (cm_wf cap cm') as Hwf' by (by eapply cm_wf_sameShape).
  assert (getInstance cm' component = Some (Found i)) as Hi'
    by (by rewrite (getInstance_sameShape cap cm)).
  destruct (removeFromEntity_bits cap cm' component e i Hwf' He Hi') as [Ho' Hc'].
  assert (ownerBit cm (c_ref (ci_type i)) e = false →
          ∀ p e', ownerBit (snd (removeFromEntity cm' component e)) p e' = ownerBit cm p e')
    as Hrestore.
  { intros Hnot p e'. rewrite Ho', Ho. case_decide as Hpe; [|done].
    destruct Hpe as [-> ->]. done. }
  cbn zeta. split; [done|]. split; [|split].
  - intros p e'. rewrite Hc', Hc. by case_decide.
  - intros Hnot. unfold removeFromEntity at 1. rewrite Hi'. cbn [fst].
    unfold getEntityComponentsDirect. cbn [registry]. rewrite Hreg. f_equal.
    apply list_filter_iff. intros [p j]. cbn [fst].
    specialize (Hrestore Hnot p e). unfold removeFromEntity in Hrestore.
    rewrite Hi' in Hrestore. cbn [snd] in Hrestore.
    unfold ownerBit in *. cbn [owners] in *. by rewrite Hrestore.
  - unfold removeFromEntity. by rewrite Hi'.
Qed.

Lemma componentManager_add_remove_witness :
  let cm := new 4 [positionComponent; activeComponent] in
  ∃ l cm',
    addToEntity cm (ByRef positionComponent) 2 (Some [("x"%string, JSNumber.ofZ 7)])
    = Ok (l, cm')
    ∧ fst (removeFromEntity cm' (ByRef positionComponent) 2) = getEntityComponentsDirect cm 2.
Proof.
  intros cm.
  assert (2 < 4)%nat as Hlt by lia.
  destruct (componentManager_add_remove 4 cm (ByRef positionComponent) 2
              (Some [("x"%string, JSNumber.ofZ 7)]) (mkInstance 0 positionComponent)
              (cm_wf_new 4 _) Hlt eq_refl)
    as (l & cm' & Hadd & _ & _ & Hlist & _).
  exists l, cm'. split; [exact Hadd|]. apply Hlist. reflexivity.
Defined.

(** X13. [ComponentManager.refresh] clears every changed bit and nothing
    else: the owner bits, the registries, the stored values and the
    proxies are as before, the changed set of every registered component
    is empty afterwards, and a second refresh changes nothing. *)
Theorem componentManager_refresh_clears (cm : t) :
  (∀ p e, changedBit (refresh cm) p e = false)
  ∧ owners (refresh cm) = owners cm
  ∧ storages (refresh cm) = storages cm
  ∧ proxies (refresh cm) = proxies cm
  ∧ (∀ component, getInstance (refresh cm) component = getInstance cm component)
  ∧ (∀ component, getOwners (refresh cm) component = getOwners cm component)
  ∧ (∀ component, getChanged (refresh cm) component = (λ _, []) <$> getChanged cm component)
  ∧ refresh (refresh cm) = refresh cm.
Proof.
  split; [|split; [done|split; [done|split; [done|split; [done|split; [done|split]]]]]].
  - intros p e. unfold changedBit, refresh. cbn [changed]. rewrite lookup_fmap.
    destruct (changed cm !! p); [|done]. cbn. apply ba_get_clear.
  - intros component. unfold getChanged, refresh.
    cbn [changed]. change (getInstance (mk _ _ _ _ _ _) component) with (getInstance cm component).
    destruct (getInstance cm component) as [[i|]|]; [|done|done]. cbn.
    rewrite lookup_fmap. destruct (changed cm !! _) as [c|]; [|done].
    change (Some (BooleanArray.truthyIndices (BooleanArray.clear c)) = Some []).
    by rewrite ba_truthyIndices_clear.
  - unfold refresh. cbn [changed owners registry registryByName storages proxies].
    f_equal. rewrite <- map_fmap_compose. apply map_fmap_ext. intros k a _.
    unfold compose, BooleanArray.clear. cbn. by rewrite length_replicate.
Qed.

(** X14. For a registered component the owners list and [entityHas] agree:
    an entity is listed by [getOwners] exactly when it is below the
    capacity and [entityHas] holds for it, no entity is listed twice, and
    the changed list holds exactly the entities below the capacity whose
    changed bit is set.  For a component that the lookup does not find
    both lists are undefined and [isRegistered] is false.  For a name
    that the lookup finds only in [Object.prototype] both lists are
    undefined and no entity has the component, although [isRegistered]
    is true. *)
Theorem componentManager_owner_lists (cap : nat) (cm : t) (component : ComponentArg)
    (Hwf : cm_wf cap cm) :
  match getInstance cm component with
  | Some (Found i) =>
      ∃ lo lc,
        getOwners cm component = Some lo
        ∧ getChanged cm component = Some lc
        ∧ NoDup lo ∧ NoDup lc
        ∧ (∀ e, e ∈ lo ↔ (e < cap)%nat ∧ entityHas cm component e = true)
        ∧ (∀ e, e ∈ lc ↔ (e < cap)%nat ∧ changedBit cm (c_ref (ci_type i)) e = true)
        ∧ isRegistered cm component = true
  | Some Inherited =>
      getOwners cm component = None ∧ getChanged cm component = None
      ∧ (∀ e, entityHas cm component e = false)
      ∧ isRegistered cm component = true
  | None =>
      getOwners cm component = None ∧ getChanged cm component = None
      ∧ isRegistered cm component = false
  end.
Proof.
  destruct (getInstance cm component) as [[i|]|] eqn:Hi.
  - destruct (cm_wf_getInstance cap cm component i Hwf Hi) as (o & c & Ho & Hwo & Hc & Hwc).
    exists (BooleanArray.truthyIndices o), (BooleanArray.truthyIndices c).
    unfold getOwners, getChanged, isRegistered. rewrite Hi. cbn. rewrite Ho, Hc. cbn.
    split; [done|]. split; [done|].
    split; [apply ba_truthyIndices_NoDup|]. split; [apply ba_truthyIndices_NoDup|].
    assert (entityHas cm component = ownerBit cm (c_ref (ci_type i))) as ->.
    { unfold entityHas. destruct component as [name|c0].
      - by rewrite Hi.
      - destruct Hwf as [Hreg _]. apply getInstance_Found in Hi.
        destruct (Hreg (c_ref c0) i Hi) as [Href _].
        by rewrite Href. }
    unfold ownerBit, changedBit. rewrite Ho, Hc.
    destruct Hwo as [<- _], Hwc as [Hsc _].
    split; [|split]; [intros e; by rewrite ba_truthyIndices_elem
                     |intros e; by rewrite ba_truthyIndices_elem, Hsc
                     |done].
  - unfold getOwners, getChanged, isRegistered, entityHas. rewrite Hi.
    split; [done|]. split; [done|]. split.
    + intros e. destruct component as [name|c0]; [done|].
      simpl in Hi. by destruct (JS.map_get (c_ref c0) (registry cm)).
    + apply bool_decide_true. by eexists.
  - unfold getOwners, getChanged, isRegistered. rewrite Hi.
    split; [done|]. split; [done|]. apply bool_decide_false. by intros [? ?].
Qed.

Lemma componentManager_owner_lists_witness :
  let cm := new 4 [positionComponent; activeComponent] in
  (getOwners cm (ByName "ghost") = None ∧ isRegistered cm (ByName "ghost") = false)
  ∧ (getOwners cm (ByName "toString") = None
     ∧ entityHas cm (ByName "toString") 1 = false
     ∧ isRegistered cm (ByName "toString") = true)
  ∧ (∃ lo, getOwners cm (ByName "active") = Some lo
           ∧ ∀ e, e ∈ lo ↔ (e < 4)%nat ∧ entityHas cm (ByName "active") e = true).
Proof.
  intros cm.
  pose proof (componentManager_owner_lists 4 cm (ByName "ghost") (cm_wf_new 4 _)) as Hghost.
  pose proof (componentManager_owner_lists 4 cm (ByName "toString") (cm_wf_new 4 _)) as Hproto.
  pose proof (componentManager_owner_lists 4 cm (ByName "active") (cm_wf_new 4 _)) as Hactive.
  assert (getInstance cm (ByName "ghost") = None) as E1 by (vm_compute; reflexivity).
  assert (getInstance cm (ByName "toString") = Some Inherited) as E2
    by (vm_compute; reflexivity).
  assert (getInstance cm (ByName "active") = Some (Found (mkInstance 1 activeComponent)))
    as E3 by (vm_compute; reflexivity).
  rewrite E1 in Hghost. rewrite E2 in Hproto. rewrite E3 in Hactive.
  destruct Hghost as (Ho1 & _ & Hr1).
  destruct Hproto as (Ho2 & _ & Hh2 & Hr2).
  destruct Hactive as (lo & lc & Ho3 & _ & _ & _ & Hlo & _).
  split; [by split|]. split; [by split|].
  exists lo. by split.
Defined.

(** X15. [setEntityData] followed by [getEntityData]: for a registered
    component with storage, the record read back has one entry per field
    of the partition; a field named in the written value reads as that
    number converted to the field's element kind (rounded to binary32 on
    an [f32] field, an infinity where it overflows; truncated and wrapped
    on an integer field), every other field and every other entity read
    as before, and keys that are no field of the partition are ignored.
    The write touches neither the owner bits nor the changed bits, and it
    stores what [addToEntity] stores for the same data. *)
Theorem setEntityData_getEntityData (cm : t) (component : ComponentArg) (e : nat)
    (data : list (string * JSNumber.t)) (i : ComponentInstance) (storage : Storage)
    (Hi : getInstance cm component = Some (Found i))
    (Hst : storages cm !! c_ref (ci_type i) = Some storage)
    (Hnd : NoDup data.*1) :
  let cm' := setEntityData cm component e (Some data) in
  owners cm' = owners cm
  ∧ changed cm' = changed cm
  ∧ (∀ l cm2, addToEntity cm component e (Some data) = Ok (l, cm2) →
              storages cm2 = storages cm')
  ∧ ∀ e', ∃ r r0,
      getEntityData cm' component e' = Some r
      ∧ getEntityData cm component e' = Some r0
      ∧ dom r = dom storage
      ∧ ∀ key view, storage !! key = Some view →
          r0 !! key = Some (default JSNumber.NaN (TypedArray.get view e'))
          ∧ r !! key
            = match JS.map_get key data with
              | Some v =>
                  if decide (e' = e ∧ e < length (TypedArray.elems view))%nat
                  then Some (TypedArray.convert (TypedArray.kind view) v)
                  else r0 !! key
              | None => r0 !! key
              end.
Proof.
  intros cm'. subst cm'. unfold setEntityData. rewrite Hi. cbn [mbind option_bind instanceOf].
  rewrite Hst.
  split; [done|]. split; [done|]. split.
  - intros l cm2 Hadd. unfold addToEntity in Hadd. rewrite Hi, Hst in Hadd.
    destruct (owners cm !! _); [|done]. destruct (changed cm !! _); [|done].
    by injection Hadd as _ <-.
  - intros e'. unfold getEntityData.
    change (getInstance (mk _ _ _ _ _ _) component) with (getInstance cm component).
    rewrite Hi. cbn [mbind option_bind instanceOf]. rewrite Hst. cbn [storages].
    rewrite lookup_insert_eq.
    eexists _, _. split; [reflexivity|]. split; [reflexivity|]. split.
    + rewrite dom_fmap_L. apply set_eq. intros key. rewrite !elem_of_dom.
      rewrite copyData_lookup by done.
      destruct (storage !! key), (JS.map_get key data); done.
    + intros key view Hview. rewrite !lookup_fmap, copyData_lookup, Hview by done.
      split; [done|].
      destruct (JS.map_get key data) as [v|]; [|done]. cbn.
      rewrite typed_get_set. by case_decide.
Qed.

Lemma setEntityData_getEntityData_witness :
  let cm := new 4 [positionComponent; activeComponent] in
  ∃ r, getEntityData (setEntityData cm (ByName "position") 2
                        (Some [("x"%string, JSNumber.ofZ (2 ^ 128))]))
                     (ByName "position") 2 = Some r
       ∧ r !! "x"%string = Some (SpecFloat.S754_infinity false)
       ∧ r !! "y"%string = Some (JSNumber.ofZ 0).
Proof.
  intros cm.
  assert (NoDup [("x"%string, JSNumber.ofZ (2 ^ 128))].*1) as Hnd by apply NoDup_singleton.
  destruct (setEntityData_getEntityData cm (ByName "position") 2
              [("x"%string, JSNumber.ofZ (2 ^ 128))]
              (mkInstance 0 positionComponent) _ eq_refl eq_refl Hnd)
    as (_ & _ & _ & Hread).
  destruct (Hread 2%nat) as (r & r0 & Hr & Hr0 & _ & Hfields).
  exists r. split; [exact Hr|].
  split.
  - destruct (Hfields "x"%string (TypedArray.new F32 4) eq_refl) as [_ ->].
    vm_compute. reflexivity.
  - destruct (Hfields "y"%string (TypedArray.new F32 4) eq_refl) as [-> ->].
    vm_compute. reflexivity.
Defined.
End ComponentManagerMore.

(** ** The storage proxy *)

Section StorageProxyFacts.
Import StorageProxy.

Lemma ba_get_set_true_mono a i j :
  BooleanArray.get a j = true → BooleanArray.get (BooleanArray.set a i true) j = true.
Proof.
  intros Hj. destruct (decide (i = j)) as [->|Hne].
  - destruct (decide (j / 32 < length (BooleanArray.buffer a))%nat) as [Hlt|Hge].
    + by apply ba_get_set_eq.
    + unfold BooleanArray.set, BooleanArray.get, BooleanArray.word in *.
      cbn [BooleanArray.buffer]. by rewrite list_insert_ge by lia.
  - by rewrite ba_get_set_ne.
Qed.

(** X16. A write through the proxy touches one slot only: the slot of the
    written field at the cursor.  Every other field, and every other
    entity of the written field, reads as before; the storage keeps its
    fields; no changed bit other than the cursor's is altered and no
    changed bit is ever cleared; a key that is no field of the storage
    changes nothing. *)
Theorem storageProxy_write_frame (p : t) (storage : Storage) (changed : BooleanArray.t)
    (key : string) (value : JSNumber.t) :
  let storage' := fst (setField p storage changed key value) in
  let changed' := snd (setField p storage changed key value) in
  (∀ key' e', key' ≠ key ∨ e' ≠ entity p →
     storage' !! key' ≫= (λ view, TypedArray.get view e')
     = storage !! key' ≫= (λ view, TypedArray.get view e'))
  ∧ dom storage' = dom storage
  ∧ (∀ e', e' ≠ entity p → BooleanArray.get changed' e' = BooleanArray.get changed e')
  ∧ (∀ e', BooleanArray.get changed e' = true → BooleanArray.get changed' e' = true)
  ∧ (storage !! key = None → storage' = storage ∧ changed' = changed).
Proof.
  cbn zeta. unfold setField.
  destruct (storage !! key) as [store|] eqn:Hkey; [|done].
  destruct (differs _ _); cbn [fst snd]; [|done].
  split; [|split; [|split; [|split; [|done]]]].
  - intros key' e' Hframe. destruct (decide (key' = key)) as [->|Hk].
    + rewrite lookup_insert_eq, Hkey. cbn. rewrite typed_get_set.
      rewrite decide_False; [done|]. intros [-> _]. by destruct Hframe.
    + by rewrite lookup_insert_ne.
  - apply set_eq. intros k. rewrite !elem_of_dom.
    destruct (decide (k = key)) as [->|Hk].
    + rewrite lookup_insert_eq, Hkey. split; eauto.
    + by rewrite lookup_insert_ne.
  - intros e' He'. by apply ba_get_set_ne.
  - intros e'. apply ba_get_set_true_mono.
Qed.
End StorageProxyFacts.

(** ** Query matching, bit by bit *)

Section QueryMatchBits.
Import BooleanArray.

Lemma ba_get_at a i k :
  (k < 32)%nat → get a (i * 32 + k) = Z.testbit (word a i) (Z.of_nat k).
Proof.
  intros Hk. unfold get.
  assert (((i * 32 + k) / 32)%nat = i) as ->
    by (symmetry; apply Nat.div_unique with k; lia).
  assert (((i * 32 + k) mod 32)%nat = k) as ->
    by (symmetry; apply Nat.mod_unique with i; lia).
  done.
Qed.

Lemma word_out_of_range a i : (length a <= i)%nat → word a i = 0.
Proof. intros Hi. unfold word, length in *. by rewrite lookup_ge_None_2. Qed.

Lemma words_and_bits t a :
  uint32Words t → uint32Words a → length a = length t →
  (∀ i, (i < length t)%nat → Z.land (word t i) (word a i) = word a i)
  ↔ (∀ j, get a j = true → get t j = true).
Proof.
  intros Ht Ha Hlen. split.
  - intros Hw j Hj. unfold get in *.
    destruct (decide (j / 32 < length t)%nat) as [Hlt|Hge].
    + rewrite <- (Hw _ Hlt), Z.land_spec in Hj. by apply andb_true_iff in Hj as [? _].
    + rewrite word_out_of_range, Z.bits_0 in Hj by lia. done.
  - intros Hb i Hi. apply Z.bits_inj'. intros k Hk. rewrite Z.land_spec.
    destruct (Z.lt_ge_cases k 32) as [Hlow|Hhigh].
    + specialize (Hb (i * 32 + Z.to_nat k)%nat). rewrite !ba_get_at in Hb by lia.
      rewrite Z2Nat.id in Hb by lia.
      destruct (Z.testbit (word a i) k); [|by rewrite andb_false_r].
      by rewrite Hb.
    + rewrite (uint32_high_bits (word a i)) by auto using word_uint32.
      by rewrite andb_false_r.
Qed.

Lemma words_disjoint_bits t a :
  uint32Words t → uint32Words a → length a = length t →
  (∀ i, (i < length t)%nat → Z.land (word t i) (word a i) = 0)
  ↔ (∀ j, get a j = true → get t j = false).
Proof.
  intros Ht Ha Hlen. split.
  - intros Hw j Hj. unfold get in *.
    destruct (decide (j / 32 < length t)%nat) as [Hlt|Hge].
    + pose proof (f_equal (λ w, Z.testbit w (Z.of_nat (j mod 32))) (Hw _ Hlt)) as Hbit.
      cbv beta in Hbit. rewrite Z.land_spec, Hj, Z.bits_0, andb_true_r in Hbit. done.
    + rewrite word_out_of_range, Z.bits_0 in Hj by lia. done.
  - intros Hb i Hi. apply Z.bits_inj'. intros k Hk. rewrite Z.land_spec, Z.bits_0.
    destruct (Z.lt_ge_cases k 32) as [Hlow|Hhigh].
    + specialize (Hb (i * 32 + Z.to_nat k)%nat). rewrite !ba_get_at in Hb by lia.
      rewrite Z2Nat.id in Hb by lia.
      destruct (Z.testbit (word a i) k); [|by rewrite andb_false_r].
      by rewrite Hb.
    + rewrite (uint32_high_bits (word a i)) by auto using word_uint32.
      by rewrite andb_false_r.
Qed.

Lemma words_overlap_bits t a :
  uint32Words t → uint32Words a → length a = length t →
  (∃ i, (i < length t)%nat ∧ Z.land (word t i) (word a i) ≠ 0)
  ↔ (∃ j, get a j = true ∧ get t j = true).
Proof.
  intros Ht Ha Hlen. split.
  - intros (i & Hi & Hnz).
    pose proof (word_uint32 t i Ht) as [Ht0 _].
    pose proof (word_uint32 a i Ha) as Hai.
    assert (0 <= Z.land (word t i) (word a i)) as Hnn
      by (apply Z.land_nonneg; left; done).
    assert (Z.testbit (Z.land (word t i) (word a i))
                      (Z.log2 (Z.land (word t i) (word a i))) = true) as Hbit
      by (apply Z.bit_log2; lia).
    pose proof (Z.log2_nonneg (Z.land (word t i) (word a i))) as Hlog.
    rewrite Z.land_spec in Hbit. apply andb_true_iff in Hbit as [Hbt Hba].
    destruct (Z.lt_ge_cases (Z.log2 (Z.land (word t i) (word a i))) 32) as [Hlow|Hhigh].
    + exists (i * 32 + Z.to_nat (Z.log2 (Z.land (word t i) (word a i))))%nat.
      rewrite !ba_get_at by lia. rewrite Z2Nat.id by lia. done.
    + rewrite (uint32_high_bits (word a i)) in Hba by done. done.
  - intros (j & Hja & Hjt). unfold get in *.
    destruct (decide (j / 32 < length t)%nat) as [Hlt|Hge].
    + exists (j / 32)%nat. split; [done|]. intros Hz.
      pose proof (f_equal (λ w, Z.testbit w (Z.of_nat (j mod 32))) Hz) as Hbit.
      cbv beta in Hbit. rewrite Z.land_spec, Hja, Hjt, Z.bits_0 in Hbit. done.
    + rewrite word_out_of_range, Z.bits_0 in Hjt by lia. done.
Qed.

Lemma words_zero_bits a :
  uint32Words a → Forall (λ w, w = 0) (buffer a) ↔ (∀ j, get a j = false).
Proof.
  intros Ha. split.
  - intros Hz j. unfold get, word.
    destruct (buffer a !! (j / 32)%nat) as [w|] eqn:Hw; cbn.
    + rewrite (Forall_lookup_1 _ _ _ _ Hz Hw). apply Z.bits_0.
    + apply Z.bits_0.
  - intros Hb. apply Forall_lookup. intros i w Hw.
    apply Z.bits_inj'. intros k Hk. rewrite Z.bits_0.
    destruct (Z.lt_ge_cases k 32) as [Hlow|Hhigh].
    + specialize (Hb (i * 32 + Z.to_nat k)%nat). rewrite ba_get_at in Hb by lia.
      unfold word in Hb. rewrite Hw, Z2Nat.id in Hb by lia. done.
    + apply uint32_high_bits; [|done]. by eapply (Forall_lookup_1 _ _ _ _ Ha).
Qed.

Lemma getTruthyCount_pos_bits a :
  uint32Words a → (0 < getTruthyCount a)%nat ↔ ∃ j, get a j = true.
Proof.
  intros Ha. split.
  - intros Hpos.
    destruct (decide (Forall (λ w, w = 0) (buffer a))) as [Hz|Hnz].
    + apply (getTruthyCount_zero_iff a Ha) in Hz. lia.
    + apply not_Forall_Exists in Hnz; [|apply _].
      apply Exists_exists in Hnz as (w & Hin & Hw). unfold compose in Hw.
      apply list_elem_of_lookup in Hin as [i Hi].
      assert (word a i = w) as Hwi by (unfold word; by rewrite Hi).
      pose proof (word_uint32 a i Ha) as [Hw0 Hw1]. rewrite Hwi in Hw0, Hw1.
      assert (Z.testbit w (Z.log2 w) = true) as Hbit by (apply Z.bit_log2; lia).
      pose proof (Z.log2_nonneg w) as Hlog.
      destruct (Z.lt_ge_cases (Z.log2 w) 32) as [Hlow|Hhigh].
      * exists (i * 32 + Z.to_nat (Z.log2 w))%nat.
        rewrite ba_get_at by lia. rewrite Hwi, Z2Nat.id by lia. done.
      * rewrite uint32_high_bits in Hbit; [done| |done]. unfold JS.uint32. lia.
  - intros [j Hj].
    destruct (decide (getTruthyCount a = 0)%nat) as [Hz|Hnz]; [|lia].
    apply (getTruthyCount_zero_iff a Ha) in Hz.
    pose proof (proj1 (words_zero_bits a Ha) Hz j) as Hfalse. congruence.
Qed.

(** The match condition of [isQueryMatch], bit by bit, for masks with as
    many words as the target. *)
Lemma isQueryMatch_bitwise (t : BooleanArray.t) (q : QueryInstance)
    (Hla : length (q_and q) = length t) (Hlo : length (q_or q) = length t)
    (Hln : length (q_not q) = length t)
    (Ht : uint32Words t) (Ha : uint32Words (q_and q))
    (Ho : uint32Words (q_or q)) (Hn : uint32Words (q_not q))
    (Hlow : Forall (λ w, w < 2 ^ 31) (buffer (q_and q))) :
  isQueryMatch t q = true
  ↔ (∃ j, get t j = true)
    ∧ (∀ j, get (q_and q) j = true → get t j = true)
    ∧ (∀ j, get (q_not q) j = true → get t j = false)
    ∧ ((∀ j, get (q_or q) j = false) ∨ ∃ j, get (q_or q) j = true ∧ get t j = true).
Proof.
  rewrite <- (getTruthyCount_pos_bits t Ht).
  rewrite <- (words_and_bits t (q_and q) Ht Ha Hla).
  rewrite <- (words_disjoint_bits t (q_not q) Ht Hn Hln).
  rewrite <- (words_overlap_bits t (q_or q) Ht Ho Hlo).
  rewrite <- (words_zero_bits (q_or q) Ho).
  unfold isQueryMatch.
  pose proof (and_check_iff t q (length t) Ht Ha Hlow) as Hand.
  pose proof (not_check_iff t (q_not q) (length t) Ht Hn) as Hnot.
  pose proof (or_check_iff t (q_or q) (length t) Ht Ho) as Hor.
  pose proof (getTruthyCount_zero_iff (q_or q) Ho) as Hzero.
  destruct (Nat.eqb_spec (getTruthyCount t) 0) as [Hempty|Hne].
  { split; [done|]. intros [Hpos _]. lia. }
  destruct (forallb _ _) eqn:Hfa in |- *; cbn [negb].
  2:{ split; [done|]. intros (_ & Hc & _). apply Hand in Hc. congruence. }
  destruct (forallb _ _) eqn:Hfn in |- *; cbn [negb].
  2:{ split; [done|]. intros (_ & _ & Hc & _). apply Hnot in Hc. congruence. }
  destruct (Nat.ltb_spec 0 (getTruthyCount (q_or q))) as [Hsome|Hnone].
  - rewrite Hor. split.
    + intros Hex. split; [lia|]. split; [by apply Hand|]. split; [by apply Hnot|by right].
    + intros (_ & _ & _ & [Hz|Hex]); [|done]. apply Hzero in Hz. lia.
  - split; [|done]. intros _. split; [lia|]. split; [by apply Hand|].
    split; [by apply Hnot|]. left. apply Hzero. lia.
Qed.

(** X17. [isQueryMatch] read bit by bit.  For masks of the same size as
    the target, with the [and] mask clear of bit 31 of every word, the
    match holds exactly when the target has some bit set, has every bit
    of the [and] mask, has no bit of the [not] mask and, unless the [or]
    mask is empty, has a bit of the [or] mask. *)
Theorem isQueryMatch_bits (n : nat) (t : BooleanArray.t) (q : QueryInstance)
    (Hwt : wf n t) (Hwa : wf n (q_and q)) (Hwo : wf n (q_or q)) (Hwn : wf n (q_not q))
    (Ht : uint32Words t) (Ha : uint32Words (q_and q))
    (Ho : uint32Words (q_or q)) (Hn : uint32Words (q_not q))
    (Hlow : Forall (λ w, w < 2 ^ 31) (buffer (q_and q))) :
  isQueryMatch t q = true
  ↔ (∃ j, get t j = true)
    ∧ (∀ j, get (q_and q) j = true → get t j = true)
    ∧ (∀ j, get (q_not q) j = true → get t j = false)
    ∧ ((∀ j, get (q_or q) j = false) ∨ ∃ j, get (q_or q) j = true ∧ get t j = true).
Proof.
  assert (∀ a, wf n a → length a = length t) as Hlen.
  { intros a [_ Hl]. destruct Hwt as [_ Hl']. unfold length. congruence. }
  apply isQueryMatch_bitwise; auto.
Qed.

Lemma isQueryMatch_bits_witness :
  isQueryMatch (BooleanArray.mk 3 [5])
               (queryOfMasks (BooleanArray.mk 3 [1]) (BooleanArray.mk 3 [4]) (BooleanArray.mk 3 [2]))
  = true
  ↔ (∃ j, get (BooleanArray.mk 3 [5]) j = true)
    ∧ (∀ j, get (BooleanArray.mk 3 [1]) j = true → get (BooleanArray.mk 3 [5]) j = true)
    ∧ (∀ j, get (BooleanArray.mk 3 [2]) j = true → get (BooleanArray.mk 3 [5]) j = false)
    ∧ ((∀ j, get (BooleanArray.mk 3 [4]) j = false)
       ∨ ∃ j, get (BooleanArray.mk 3 [4]) j = true ∧ get (BooleanArray.mk 3 [5]) j = true).
Proof.
  apply (isQueryMatch_bits 3 (BooleanArray.mk 3 [5])
           (queryOfMasks (BooleanArray.mk 3 [1]) (BooleanArray.mk 3 [4]) (BooleanArray.mk 3 [2])));
    try (split; reflexivity);
    unfold uint32Words, JS.uint32; cbn;
    repeat (apply Forall_cons; split); try apply Forall_nil; lia.
Defined.
End QueryMatchBits.

(** ** Query instances *)

Section QueryInstanceFacts.
Import QueryManager.

Lemma maskOf_ids n insts :
  maskOf n insts = foldl (λ b i, BooleanArray.set b i true) (BooleanArray.new n) (ci_id <$> insts).
Proof.
  unfold maskOf. generalize (BooleanArray.new n).
  induction insts as [|i insts IH]; intros b; simpl; [done|]. apply IH.
Qed.

Lemma maskOf_wf n insts : BooleanArray.wf n (maskOf n insts).
Proof. rewrite maskOf_ids. apply ba_setAll_wf, ba_wf_new. Qed.

Lemma maskOf_uint32 n insts : uint32Words (maskOf n insts).
Proof. rewrite maskOf_ids. apply ba_setAll_uint32, uint32Words_new. Qed.

Lemma maskOf_get n insts j :
  Forall (λ i, ci_id i < n)%nat insts →
  BooleanArray.get (maskOf n insts) j = true ↔ j ∈ ci_id <$> insts.
Proof.
  intros Hids. rewrite maskOf_ids, (ba_setAll_get n).
  - rewrite ba_get_new. naive_solver.
  - apply ba_wf_new.
  - by apply Forall_fmap.
Qed.

Lemma new_getInstance_ref cap comps c' i :
  NoDup (c_ref <$> comps) →
  ComponentManager.getInstance (ComponentManager.new cap comps) (ByRef c') ≫= instanceOf
  = Some i
  ↔ ∃ idx c, comps !! idx = Some c ∧ c_ref c = c_ref c' ∧ i = mkInstance idx c.
Proof.
  intros Hnd. rewrite getInstance_ByRef. split.
  - intros Hget. apply map_get_Some_elem in Hget.
    rewrite new_registry in Hget by done.
    apply elem_of_lookup_imap in Hget as (idx & c & [= Href ->] & Hc). eauto.
  - intros (idx & c & Hc & Href & ->). apply map_get_NoDup.
    + by rewrite new_registry_keys.
    + rewrite new_registry by done. apply elem_of_lookup_imap.
      exists idx, c. by rewrite Href.
Qed.

Lemma resolved_ids cap comps l j :
  NoDup (c_ref <$> comps) →
  j ∈ ci_id <$> omap id (ComponentManager.getInstances (ComponentManager.new cap comps) l)
  ↔ ∃ c, comps !! j = Some c ∧ c_ref c ∈ c_ref <$> l.
Proof.
  intros Hnd. rewrite list_elem_of_fmap. split.
  - intros (i & -> & Hi). apply list_elem_of_omap in Hi as (oi & Hoi & Hid).
    unfold ComponentManager.getInstances in Hoi.
    apply list_elem_of_fmap in Hoi as (c' & -> & Hc'). cbn in Hid.
    apply (new_getInstance_ref cap comps c' i Hnd) in Hid as (idx & c & Hc & Href & ->).
    exists c. split; [done|]. rewrite Href. apply list_elem_of_fmap. eauto.
  - intros (c & Hc & Href). apply list_elem_of_fmap in Href as (c' & Href & Hc').
    exists (mkInstance j c). split; [done|].
    apply list_elem_of_omap. exists (Some (mkInstance j c)). split; [|done].
    unfold ComponentManager.getInstances. apply list_elem_of_fmap. exists c'.
    split; [|done]. symmetry. apply new_getInstance_ref; [done|]. eauto.
Qed.

Lemma resolved_bound cap comps l :
  NoDup (c_ref <$> comps) →
  Forall (λ i, ci_id i < length comps)%nat
         (omap id (ComponentManager.getInstances (ComponentManager.new cap comps) l)).
Proof.
  intros Hnd. apply Forall_forall. intros i Hi.
  assert (ci_id i ∈ ci_id <$>
            omap id (ComponentManager.getInstances (ComponentManager.new cap comps) l)) as Hin
    by (apply list_elem_of_fmap; eauto).
  apply resolved_ids in Hin as (c & Hc & _); [|done].
  by eapply lookup_lt_Some.
Qed.

(** X18. [createQueryInstance] over a component manager built from
    distinct components: bit [j] of the [and] mask is set exactly when
    the component registered at position [j] is in the query's [all]
    list, likewise the [or] mask for [any] and the [not] mask for [none];
    components of the query that are not registered leave no trace.  The
    instance starts with no archetypes and marked dirty, and its id is
    made of the words of the three masks. *)
Theorem createQueryInstance_masks (cap : nat) (comps : list Component) (query : Query)
    (Hrefs : NoDup (c_ref <$> comps)) :
  let cm := ComponentManager.new cap comps in
  let qi := createQueryInstance (ComponentManager.getInstances cm)
                                (ComponentManager.count cm) query in
  (∀ j, BooleanArray.get (q_and qi) j = true
        ↔ ∃ c, comps !! j = Some c ∧ c_ref c ∈ c_ref <$> q_all query)
  ∧ (∀ j, BooleanArray.get (q_or qi) j = true
          ↔ ∃ c, comps !! j = Some c ∧ c_ref c ∈ c_ref <$> q_any query)
  ∧ (∀ j, BooleanArray.get (q_not qi) j = true
          ↔ ∃ c, comps !! j = Some c ∧ c_ref c ∈ c_ref <$> q_none query)
  ∧ q_archetypes qi = ∅
  ∧ q_isDirty qi = true
  ∧ q_id qi = (BooleanArray.buffer (q_and qi), BooleanArray.buffer (q_or qi),
               BooleanArray.buffer (q_not qi)).
Proof.
  cbn zeta. unfold createQueryInstance. cbn [q_and q_or q_not q_archetypes q_isDirty q_id].
  assert (ComponentManager.count (ComponentManager.new cap comps) = length comps) as ->.
  { unfold ComponentManager.count. rewrite new_registry by done. by rewrite length_imap. }
  split; [|split; [|split; [|done]]]; intros j;
    (rewrite maskOf_get by (by apply resolved_bound)); by apply resolved_ids.
Qed.

Lemma createQueryInstance_masks_witness :
  let cm := ComponentManager.new 4 [positionComponent; activeComponent] in
  let qi := createQueryInstance (ComponentManager.getInstances cm) (ComponentManager.count cm)
              (mkQuery 0 [activeComponent; ghostComponent] [] []) in
  BooleanArray.get (q_and qi) 1 = true.
Proof.
  intros cm qi.
  assert (NoDup (c_ref <$> [positionComponent; activeComponent])) as Hrefs.
  { cbn. apply NoDup_cons. split; [|apply NoDup_singleton].
    rewrite list_elem_of_singleton. done. }
  destruct (createQueryInstance_masks 4 [positionComponent; activeComponent]
              (mkQuery 0 [activeComponent; ghostComponent] [] []) Hrefs) as (Hand & _).
  apply Hand. exists activeComponent. split; [reflexivity|].
  cbn. apply elem_of_cons. by left.
Defined.
Lemma low_words a :
  uint32Words a →
  (∀ j, (j mod 32 = 31)%nat → BooleanArray.get a j = false) →
  Forall (λ w, w < 2 ^ 31) (BooleanArray.buffer a).
Proof.
  intros Ha Hb. apply Forall_lookup. intros i w Hw.
  assert (JS.uint32 w) as [Hw0 Hw1] by (by eapply (Forall_lookup_1 _ _ _ _ Ha)).
  destruct (Z.lt_ge_cases w (2 ^ 31)) as [|Hge]; [done|].
  specialize (Hb (i * 32 + 31)%nat).
  rewrite ba_get_at in Hb by lia. unfold BooleanArray.word in Hb. rewrite Hw in Hb.
  change (default 0 (Some w)) with w in Hb. change (Z.of_nat 31) with 31 in Hb.
  assert (Z.testbit w 31 = true) as Hbit.
  { apply Z.testbit_true; [lia|].
    assert (w / 2 ^ 31 = 1) as -> by (symmetry; apply Z.div_unique with (w - 2 ^ 31); lia).
    done. }
  rewrite Hb in Hbit; [done|].
  symmetry. apply Nat.mod_unique with i; lia.
Qed.

(** X19. Query matching in terms of components.  In a world of at most 31
    distinct components, the mask that [ArchetypeManager.update] builds
    for a component list matches the instance that [createQueryInstance]
    builds for a query exactly when the list is not empty, holds every
    registered component of [all], holds no registered component of
    [none] and, unless no component of [any] is registered, holds one of
    them. *)
Theorem query_selects_by_components (cap : nat) (comps : list Component) (query : Query)
    (m : ArchetypeManager.t) (cs : list ComponentInstance)
    (Hrefs : NoDup (c_ref <$> comps))
    (Hsmall : (length comps <= 31)%nat)
    (Hcc : ArchetypeManager.componentCount m = length comps)
    (Hcs : Forall (λ c, ci_id c < length comps)%nat cs) :
  let cm := ComponentManager.new cap comps in
  let qi := createQueryInstance (ComponentManager.getInstances cm)
                                (ComponentManager.count cm) query in
  isQueryMatch (ArchetypeManager.scratch m cs) qi = true
  ↔ cs ≠ []
    ∧ (∀ j c, comps !! j = Some c → c_ref c ∈ c_ref <$> q_all query → j ∈ ci_id <$> cs)
    ∧ (∀ j c, comps !! j = Some c → c_ref c ∈ c_ref <$> q_none query → j ∉ ci_id <$> cs)
    ∧ ((∀ j c, comps !! j = Some c → c_ref c ∉ c_ref <$> q_any query)
       ∨ ∃ j c, comps !! j = Some c ∧ c_ref c ∈ c_ref <$> q_any query ∧ j ∈ ci_id <$> cs).
Proof.
  cbn zeta.
  assert (ComponentManager.count (ComponentManager.new cap comps) = length comps) as Hcount.
  { unfold ComponentManager.count. rewrite new_registry by done. by rewrite length_imap. }
  assert (∀ l j, BooleanArray.get
                   (maskOf (length comps)
                      (omap id (ComponentManager.getInstances (ComponentManager.new cap comps) l))) j
                 = true
                 ↔ ∃ c, comps !! j = Some c ∧ c_ref c ∈ c_ref <$> l) as Hmask.
  { intros l j. rewrite maskOf_get by (by apply resolved_bound). by apply resolved_ids. }
  assert (∀ j, BooleanArray.get (ArchetypeManager.scratch m cs) j = true ↔ j ∈ ci_id <$> cs)
    as Hscr.
  { intros j. apply scratch_get. by rewrite Hcc. }
  assert (∀ a, BooleanArray.wf (length comps) a →
               BooleanArray.length a = BooleanArray.length (ArchetypeManager.scratch m cs))
    as Hlen.
  { intros a [_ Hl]. unfold BooleanArray.length. rewrite Hl.
    rewrite scratch_ids, Hcc.
    by destruct (ba_setAll_wf (length comps) (ci_id <$> cs)
                   (BooleanArray.clear (BooleanArray.new (length comps)))
                   (ba_wf_clear _ _ (ba_wf_new _))) as [_ ->]. }
  rewrite isQueryMatch_bitwise.
  - unfold createQueryInstance. cbn [q_and q_or q_not]. rewrite Hcount.
    split.
    + intros ([j Hj] & Hand & Hnot & Hor). split; [|split; [|split]].
      * apply Hscr in Hj. intros ->. by apply elem_of_nil in Hj.
      * intros j' c Hc Hin. apply Hscr, Hand, Hmask. eauto.
      * intros j' c Hc Hin Hj'. apply Hscr in Hj'.
        rewrite Hnot in Hj'; [done|]. apply Hmask. eauto.
      * destruct Hor as [Hnone|(j' & Hj' & Ht)].
        -- left. intros j' c Hc Hin.
           assert (BooleanArray.get
                     (maskOf (length comps)
                        (omap id (ComponentManager.getInstances
                                    (ComponentManager.new cap comps) (q_any query)))) j' = true)
             as Hset by (apply Hmask; eauto).
           by rewrite Hnone in Hset.
        -- right. apply Hmask in Hj' as (c & Hc & Hin). exists j', c.
           split; [done|]. split; [done|]. by apply Hscr.
    + intros (Hne & Hand & Hnot & Hor). split; [|split; [|split]].
      * destruct cs as [|c0 cs']; [done|]. exists (ci_id c0). apply Hscr.
        cbn. apply elem_of_cons. by left.
      * intros j Hj. apply Hmask in Hj as (c & Hc & Hin). apply Hscr. eauto.
      * intros j Hj. apply Hmask in Hj as (c & Hc & Hin).
        apply not_true_is_false. intros Ht. apply Hscr in Ht.
        by apply (Hnot j c).
      * destruct Hor as [Hnone|(j & c & Hc & Hin & Hj)].
        -- left. intros j. apply not_true_is_false. intros Ht.
           apply Hmask in Ht as (c & Hc & Hin). by apply (Hnone j c).
        -- right. exists j. split; [apply Hmask; eauto|by apply Hscr].
  - apply Hlen. unfold createQueryInstance. cbn [q_and]. rewrite Hcount. apply maskOf_wf.
  - apply Hlen. unfold createQueryInstance. cbn [q_or]. rewrite Hcount. apply maskOf_wf.
  - apply Hlen. unfold createQueryInstance. cbn [q_not]. rewrite Hcount. apply maskOf_wf.
  - rewrite scratch_ids. apply ba_setAll_uint32, uint32Words_clear.
  - apply maskOf_uint32.
  - apply maskOf_uint32.
  - apply maskOf_uint32.
  - unfold createQueryInstance. cbn [q_and]. rewrite Hcount.
    apply low_words; [apply maskOf_uint32|].
    intros j Hj. apply not_true_is_false. intros Ht.
    apply Hmask in Ht as (c & Hc & _). apply lookup_lt_Some in Hc.
    rewrite Nat.mod_small in Hj by lia. lia.
Qed.

Lemma query_selects_by_components_witness :
  let comps := [positionComponent; activeComponent] in
  let cm := ComponentManager.new 4 comps in
  let qi := createQueryInstance (ComponentManager.getInstances cm) (ComponentManager.count cm)
              (mkQuery 0 [activeComponent] [] []) in
  isQueryMatch (ArchetypeManager.scratch (ArchetypeManager.new 4 2) [mkInstance 1 activeComponent])
               qi = true.
Proof.
  intros comps cm qi.
  assert (NoDup (c_ref <$> comps)) as Hrefs.
  { cbn. apply NoDup_cons. split; [|apply NoDup_singleton].
    rewrite list_elem_of_singleton. done. }
  assert (length comps <= 31)%nat as Hsmall by (cbn; lia).
  assert (Forall (λ c : ComponentInstance, ci_id c < length comps)%nat
                 [mkInstance 1 activeComponent]) as Hcs.
  { apply Forall_cons. split; [cbn; lia|constructor]. }
  apply (query_selects_by_components 4 comps (mkQuery 0 [activeComponent] [] [])
           (ArchetypeManager.new 4 2) [mkInstance 1 activeComponent] Hrefs Hsmall eq_refl Hcs).
  split; [done|]. split; [|split].
  - intros j c Hc Hin. cbn in Hin. apply list_elem_of_singleton in Hin.
    destruct j as [|[|j]]; cbn in Hc; [| |done].
    + injection Hc as <-. done.
    + cbn. apply elem_of_cons. by left.
  - intros j c Hc Hin. cbn in Hin. by apply elem_of_nil in Hin.
  - left. intros j c Hc Hin. cbn in Hin. by apply elem_of_nil in Hin.
Defined.
End QueryInstanceFacts.

(** ** Query results: pool, cache and manager *)

Section QueryResultFacts.
Import QueryManager.

Lemma pool_acquire_wf cap p :
  Forall (BooleanArray.wf cap) (QueryResultPool.entityArrays p) →
  QueryResultPool.size p = cap →
  BooleanArray.wf cap (fst (QueryResultPool.acquireEntityArray p))
  ∧ Forall (BooleanArray.wf cap)
           (QueryResultPool.entityArrays (snd (QueryResultPool.acquireEntityArray p)))
  ∧ QueryResultPool.size (snd (QueryResultPool.acquireEntityArray p)) = cap.
Proof.
  intros Hall Hsize. unfold QueryResultPool.acquireEntityArray.
  destruct (last (QueryResultPool.entityArrays p)) as [a|] eqn:Hlast.
  - apply last_Some in Hlast as [l' Hl]. cbn [fst snd QueryResultPool.entityArrays
      QueryResultPool.size]. rewrite Hl, removelast_last. rewrite Hl in Hall.
    apply Forall_app in Hall as [Hl' Ha]. rewrite Forall_singleton in Ha.
    split; [exact Ha|]. split; [exact Hl'|exact Hsize].
  - cbn [fst snd]. rewrite Hsize. split; [apply ba_wf_new|done].
Qed.

Lemma visit_fold cap members : ∀ r v,
  BooleanArray.wf cap r → BooleanArray.wf cap v →
  (∀ e, BooleanArray.get r e = BooleanArray.get v e) →
  Forall (λ e, e < cap)%nat members →
  let rv := foldl (λ rv entity,
                     if BooleanArray.get (snd rv) entity then rv
                     else (BooleanArray.set (fst rv) entity true,
                           BooleanArray.set (snd rv) entity true))
                  (r, v) members in
  BooleanArray.wf cap (fst rv) ∧ BooleanArray.wf cap (snd rv)
  ∧ ∀ e, BooleanArray.get (fst rv) e = true ↔ e ∈ members ∨ BooleanArray.get r e = true.
Proof.
  induction members as [|x members IH]; intros r v Hr Hv Hsame Hlt; cbn zeta.
  - cbn. split; [done|]. split; [done|]. intros e. rewrite elem_of_nil. naive_solver.
  - apply Forall_cons in Hlt as [Hx Hlt]. cbn [foldl snd fst].
    destruct (BooleanArray.get v x) eqn:Hvx.
    + destruct (IH r v Hr Hv Hsame Hlt) as (Hr' & Hv' & Hget).
      split; [done|]. split; [done|]. intros e. rewrite Hget, elem_of_cons.
      split; [naive_solver|]. intros [[->|?]|?]; auto. right. by rewrite Hsame.
    + destruct (IH (BooleanArray.set r x true) (BooleanArray.set v x true)) as (Hr' & Hv' & Hget).
      * by apply ba_wf_set.
      * by apply ba_wf_set.
      * intros e. rewrite !(ba_get_set_wf cap) by done. case_decide; [done|apply Hsame].
      * done.
      * split; [done|]. split; [done|]. intros e. rewrite Hget, elem_of_cons.
        rewrite (ba_get_set_wf cap) by done. case_decide; naive_solver.
Qed.

(** X20. The result pool is a stack of cleared bit sets: releasing a bit
    set and acquiring again hands back that bit set with every bit
    cleared and the pool as it was before; an empty pool hands out a
    fresh bit set of the pool's size and stays empty. *)
Theorem queryResultPool_lifo (p : QueryResultPool.t) (a : BooleanArray.t) (n : nat) :
  QueryResultPool.acquireEntityArray (QueryResultPool.releaseEntityArray p a)
  = (BooleanArray.clear a, p)
  ∧ (∀ i, BooleanArray.get
            (fst (QueryResultPool.acquireEntityArray (QueryResultPool.releaseEntityArray p a))) i
          = false)
  ∧ QueryResultPool.acquireEntityArray (QueryResultPool.new n)
    = (BooleanArray.new n, QueryResultPool.new n).
Proof.
  assert (QueryResultPool.acquireEntityArray (QueryResultPool.releaseEntityArray p a)
          = (BooleanArray.clear a, p)) as Heq.
  { unfold QueryResultPool.acquireEntityArray, QueryResultPool.releaseEntityArray.
    cbn [QueryResultPool.entityArrays QueryResultPool.size].
    rewrite last_snoc, removelast_last. by destruct p. }
  split; [done|]. split; [|done].
  intros i. rewrite Heq. apply ba_get_clear.
Qed.

(** X21. The bit set that [getEntitiesFromQuery] computes holds exactly
    the members of the archetypes of the query instance: an entity is in
    the result if and only if it is a member of one of them.  The
    scratch bit set [visited] is left with no bit set, and the pool keeps
    bit sets of the right size. *)
Theorem computeEntities_union (cap : nat) (archs : gmap ArchId Archetype.t)
    (instance : QueryInstance) (pool : QueryResultPool.t) (visited : BooleanArray.t)
    (Hpool : Forall (BooleanArray.wf cap) (QueryResultPool.entityArrays pool))
    (Hsize : QueryResultPool.size pool = cap)
    (Hvisited : BooleanArray.wf cap visited)
    (Harchs : ∀ k a, k ∈ q_archetypes instance → archs !! k = Some a →
                     BooleanArray.wf cap (Archetype.entities a)) :
  let r := computeEntities archs instance pool visited in
  BooleanArray.wf cap r.1.1
  ∧ (∀ e, BooleanArray.get r.1.1 e = true
          ↔ ∃ k a, k ∈ q_archetypes instance ∧ archs !! k = Some a
                   ∧ e ∈ Archetype.getEntities a)
  ∧ (∀ e, BooleanArray.get r.2 e = false)
  ∧ BooleanArray.wf cap r.2
  ∧ Forall (BooleanArray.wf cap) (QueryResultPool.entityArrays r.1.2)
  ∧ QueryResultPool.size r.1.2 = cap.
Proof.
  cbn zeta. unfold computeEntities.
  destruct (pool_acquire_wf cap pool Hpool Hsize) as (Hres & Hpool' & Hsize').
  destruct (QueryResultPool.acquireEntityArray pool) as [res pool'] eqn:Hacq.
  cbn [fst snd] in Hres, Hpool', Hsize'.
  set (members := mjoin _).
  assert (∀ e, e ∈ members ↔ ∃ k a, k ∈ q_archetypes instance ∧ archs !! k = Some a
                                    ∧ e ∈ Archetype.getEntities a) as Hmem.
  { intros e. subst members. rewrite list_elem_of_join. split.
    - intros (l & He & Hl). apply list_elem_of_fmap in Hl as (k & -> & Hk).
      apply elem_of_elements in Hk.
      destruct (archs !! k) as [a|] eqn:Ha; [eauto|]. by apply elem_of_nil in He.
    - intros (k & a & Hk & Ha & He). exists (Archetype.getEntities a). split; [done|].
      apply list_elem_of_fmap. exists k. rewrite Ha. split; [done|].
      by apply elem_of_elements. }
  assert (Forall (λ e, e < cap)%nat members) as Hlt.
  { apply Forall_forall. intros e He. apply Hmem in He as (k & a & Hk & Ha & He).
    apply ba_truthyIndices_elem in He as [He _].
    destruct (Harchs k a Hk Ha) as [Hs _]. lia. }
  destruct (visit_fold cap members (BooleanArray.clear res) (BooleanArray.clear visited))
    as (Hr & Hv & Hget).
  { by apply ba_wf_clear. }
  { by apply ba_wf_clear. }
  { intros e. by rewrite !ba_get_clear. }
  { done. }
  destruct (foldl _ _ members) as [r v] eqn:Hfold. cbn [fst snd] in *.
  split; [done|]. split.
  { intros e. rewrite Hget, ba_get_clear, <- Hmem. naive_solver. }
  split; [intros e; apply ba_get_clear|].
  split; [by apply ba_wf_clear|]. done.
Qed.

Lemma computeEntities_union_witness :
  let a := Archetype.addEntity (Archetype.new 4 [] None) 2 in
  let instance := mkQueryInstance (BooleanArray.new 1) (BooleanArray.new 1) (BooleanArray.new 1)
                                  {[ Archetype.id a ]} ∅ true ([0], [0], [0]) in
  BooleanArray.get
    (computeEntities {[ Archetype.id a := a ]} instance (QueryResultPool.new 4)
                     (BooleanArray.new 4)).1.1 2
  = true.
Proof.
  intros a instance.
  assert (Forall (BooleanArray.wf 4) (QueryResultPool.entityArrays (QueryResultPool.new 4)))
    as Hpool by constructor.
  assert (∀ k a0, k ∈ q_archetypes instance →
                  ({[ Archetype.id a := a ]} : gmap ArchId Archetype.t) !! k = Some a0 →
                  BooleanArray.wf 4 (Archetype.entities a0)) as Harchs.
  { intros k a0 _ Hk. apply lookup_singleton_Some in Hk as [_ <-]. split; reflexivity. }
  destruct (computeEntities_union 4 {[ Archetype.id a := a ]} instance (QueryResultPool.new 4)
              (BooleanArray.new 4) Hpool eq_refl (ba_wf_new 4) Harchs) as (_ & Hres & _).
  apply Hres. exists (Archetype.id a), a.
  split; [subst instance; cbn [q_archetypes]; by apply elem_of_singleton|].
  split; [by apply lookup_singleton_eq|].
  apply ba_truthyIndices_elem. split; [|reflexivity].
  change (2 < 4)%nat. lia.
Defined.

Lemma entitiesOf_shape qm archs instance :
  ∃ res ec p v,
    entitiesOf qm archs instance
    = (res,
       mk (QueryCache.mk (QueryCache.componentCache (cache qm)) ec
                         (QueryCache.globalVersion (cache qm)))
          (<[q_id instance := QueryCache.globalVersion (cache qm)]> (lastQueryVersion qm))
          p (instancesByID qm) (idsByQuery qm) v)
    ∧ ec !! q_id instance = Some res
    ∧ ∀ id, id ≠ q_id instance → ec !! id = QueryCache.entityCache (cache qm) !! id.
Proof.
  unfold entitiesOf, QueryCache.getEntities.
  destruct (default 0%nat (lastQueryVersion qm !! q_id instance)
            <? QueryCache.globalVersion (cache qm))%nat.
  - rewrite lookup_delete_eq.
    destruct (computeEntities archs instance _ (visited qm)) as [[res pool'] v'].
    eexists _, _, _, _. split; [reflexivity|]. split; [by rewrite lookup_insert_eq|].
    intros id Hid. rewrite lookup_insert_ne by done. by rewrite lookup_delete_ne.
  - destruct (QueryCache.entityCache (cache qm) !! q_id instance) as [cached|] eqn:Hcached.
    + eexists _, _, _, _. split; [reflexivity|]. split; [done|]. done.
    + destruct (computeEntities archs instance _ (visited qm)) as [[res pool'] v'].
      eexists _, _, _, _. split; [reflexivity|]. split; [by rewrite lookup_insert_eq|].
      intros id Hid. by rewrite lookup_insert_ne.
Qed.

(** X22. The query manager memoises: right after [getEntitiesFromQuery]
    has run for a query instance, running it again returns the same bit
    set and leaves the manager untouched, whatever the archetypes have
    become in between.  The first run leaves the version, the registered
    queries, and the cache entries and last-seen versions of the other
    queries as they were. *)
Theorem queryManager_entities_memo (qm : t) (archs archs' : gmap ArchId Archetype.t)
    (instance : QueryInstance) :
  entitiesOf (snd (entitiesOf qm archs instance)) archs' instance
  = entitiesOf qm archs instance
  ∧ QueryCache.entityCache (cache (snd (entitiesOf qm archs instance))) !! q_id instance
    = Some (fst (entitiesOf qm archs instance))
  ∧ lastQueryVersion (snd (entitiesOf qm archs instance)) !! q_id instance
    = Some (QueryCache.version (cache qm))
  ∧ QueryCache.version (cache (snd (entitiesOf qm archs instance)))
    = QueryCache.version (cache qm)
  ∧ (∀ id, id ≠ q_id instance →
       QueryCache.entityCache (cache (snd (entitiesOf qm archs instance))) !! id
       = QueryCache.entityCache (cache qm) !! id
       ∧ lastQueryVersion (snd (entitiesOf qm archs instance)) !! id
         = lastQueryVersion qm !! id)
  ∧ instancesByID (snd (entitiesOf qm archs instance)) = instancesByID qm
  ∧ idsByQuery (snd (entitiesOf qm archs instance)) = idsByQuery qm.
Proof.
  destruct (entitiesOf_shape qm archs instance) as (res & ec & p & v & -> & Hres & Hother).
  cbn [fst snd cache lastQueryVersion instancesByID idsByQuery QueryCache.entityCache
       QueryCache.version QueryCache.globalVersion].
  split.
  - unfold entitiesOf, QueryCache.getEntities.
    cbn [cache lastQueryVersion pool visited instancesByID idsByQuery
         QueryCache.entityCache QueryCache.globalVersion QueryCache.componentCache
         QueryCache.version].
    rewrite lookup_insert_eq. cbn [default]. rewrite Nat.ltb_irrefl, Hres.
    by rewrite insert_insert_eq.
  - split; [done|]. split; [by rewrite lookup_insert_eq|]. split; [done|].
    split; [|done]. intros id Hid. split; [by apply Hother|].
    by rewrite lookup_insert_ne.
Qed.
End QueryResultFacts.

(** ** The query constructor *)

Section QueryClassFacts.
Import QueryClass.

Lemma uniqueFrom_elem seen l c :
  c ∈ uniqueFrom seen l → c ∈ l ∧ c_ref c ∉ seen.
Proof.
  revert seen. induction l as [|c0 l IH]; intros seen; simpl.
  - intros Hc. by apply elem_of_nil in Hc.
  - case_bool_decide as Hseen.
    + intros Hc. destruct (IH _ Hc) as [Hin Hns]. split; [by apply elem_of_cons; right|done].
    + intros Hc. apply elem_of_cons in Hc as [->|Hc].
      * split; [by apply elem_of_cons; left|done].
      * destruct (IH _ Hc) as [Hin Hns]. split; [by apply elem_of_cons; right|].
        intros Hs. apply Hns. by apply elem_of_cons; right.
Qed.

Lemma uniqueFrom_NoDup seen l : NoDup (c_ref <$> uniqueFrom seen l).
Proof.
  revert seen. induction l as [|c0 l IH]; intros seen; simpl; [constructor|].
  case_bool_decide as Hseen; [apply IH|].
  cbn. apply NoDup_cons. split; [|apply IH].
  intros Hin. apply list_elem_of_fmap in Hin as (c & Href & Hc).
  apply uniqueFrom_elem in Hc as [_ Hns]. apply Hns. rewrite <- Href.
  apply elem_of_cons. by left.
Qed.

Lemma uniqueFrom_complete seen l r :
  r ∈ c_ref <$> l → r ∉ seen → r ∈ c_ref <$> uniqueFrom seen l.
Proof.
  revert seen. induction l as [|c0 l IH]; intros seen; simpl.
  - intros Hr. by apply elem_of_nil in Hr.
  - intros Hr Hns. apply elem_of_cons in Hr.
    case_bool_decide as Hseen.
    + destruct Hr as [->|Hr]; [done|]. by apply IH.
    + cbn. apply elem_of_cons. destruct (decide (r = c_ref c0)) as [->|Hne]; [by left|].
      right. destruct Hr as [->|Hr]; [done|]. apply IH; [done|].
      rewrite not_elem_of_cons. done.
Qed.

Lemma uniqueFrom_refs l r : r ∈ c_ref <$> uniqueFrom [] l ↔ r ∈ c_ref <$> l.
Proof.
  split.
  - intros Hr. apply list_elem_of_fmap in Hr as (c & -> & Hc).
    apply uniqueFrom_elem in Hc as [Hc _]. apply list_elem_of_fmap. eauto.
  - intros Hr. apply uniqueFrom_complete; [done|apply not_elem_of_nil].
Qed.

Lemma uniqueFrom_sublist seen l : uniqueFrom seen l `sublist_of` l.
Proof.
  revert seen. induction l as [|c0 l IH]; intros seen; simpl; [done|].
  case_bool_decide; [by apply sublist_cons|by apply sublist_skip].
Qed.

Lemma uniqueFrom_id seen l :
  NoDup (c_ref <$> l) → (∀ r, r ∈ c_ref <$> l → r ∉ seen) → uniqueFrom seen l = l.
Proof.
  revert seen. induction l as [|c0 l IH]; intros seen Hnd Hseen; simpl; [done|].
  cbn in Hnd. apply NoDup_cons in Hnd as [Hc0 Hnd].
  rewrite bool_decide_false by (apply Hseen; cbn; apply elem_of_cons; by left).
  f_equal. apply IH; [done|]. intros r Hr. rewrite not_elem_of_cons. split.
  - intros ->. done.
  - apply Hseen. cbn. apply elem_of_cons. by right.
Qed.

Lemma someIncluded_true a b :
  someIncluded a b = true
  ↔ ∃ r, r ∈ c_ref <$> default [] a ∧ r ∈ c_ref <$> default [] b.
Proof.
  destruct a as [a|], b as [b|]; cbn.
  - rewrite existsb_exists. split.
    + intros (c & Hc & Hinc). apply bool_decide_eq_true in Hinc.
      exists (c_ref c). split; [|done]. apply list_elem_of_fmap. exists c.
      split; [done|]. by apply list_elem_of_In.
    + intros (r & Hr & Hb). apply list_elem_of_fmap in Hr as (c & -> & Hc).
      exists c. split; [by apply list_elem_of_In|]. by apply bool_decide_eq_true.
  - split; [done|]. intros (r & _ & Hr). by apply elem_of_nil in Hr.
  - split; [done|]. intros (r & Hr & _). by apply elem_of_nil in Hr.
  - split; [done|]. intros (r & Hr & _). by apply elem_of_nil in Hr.
Qed.

Lemma isValidQuerySpec_unfold spec :
  isValidQuerySpec spec
  = negb (bool_decide (spec_all spec = None ∧ spec_any spec = None ∧ spec_none spec = None))
    && negb (someIncluded (spec_all spec) (spec_any spec))
    && negb (someIncluded (spec_all spec) (spec_none spec))
    && negb (someIncluded (spec_any spec) (spec_all spec))
    && negb (someIncluded (spec_any spec) (spec_none spec))
    && negb (someIncluded (spec_none spec) (spec_all spec))
    && negb (someIncluded (spec_none spec) (spec_any spec)).
Proof.
  unfold isValidQuerySpec.
  destruct spec as [[a|] [b|] [n|]]; cbn [spec_all spec_any spec_none]; try done;
    rewrite bool_decide_false by (intros (? & ? & ?); done); cbn [negb andb];
    repeat (match goal with |- context [if ?x then _ else _] => destruct x end; cbn [negb andb];
            try done).
Qed.

Lemma isValidQuerySpec_iff spec :
  isValidQuerySpec spec = true
  ↔ ¬ (spec_all spec = None ∧ spec_any spec = None ∧ spec_none spec = None)
    ∧ (∀ r, r ∈ c_ref <$> default [] (spec_all spec) →
            r ∉ c_ref <$> default [] (spec_any spec))
    ∧ (∀ r, r ∈ c_ref <$> default [] (spec_all spec) →
            r ∉ c_ref <$> default [] (spec_none spec))
    ∧ (∀ r, r ∈ c_ref <$> default [] (spec_any spec) →
            r ∉ c_ref <$> default [] (spec_none spec)).
Proof.
  assert (∀ a b, negb (someIncluded a b) = true
                 ↔ ∀ r, r ∈ c_ref <$> default [] a → r ∉ c_ref <$> default [] b) as Hfalse.
  { intros a b. rewrite negb_true_iff, <- not_true_iff_false, someIncluded_true. naive_solver. }
  rewrite isValidQuerySpec_unfold, !andb_true_iff, !Hfalse, negb_true_iff,
    bool_decide_eq_false.
  naive_solver.
Qed.

Lemma omap_id_cons {A} (o : option A) (l : list (option A)) :
  omap id (o :: l) = match o with Some x => x :: omap id l | None => omap id l end.
Proof. by destruct o. Qed.

Lemma uniqueFrom_imap seen l :
  uniqueFrom seen l
  = omap id (imap (λ i c, if bool_decide (c_ref c ∈ seen ∨ c_ref c ∈ c_ref <$> take i l)
                          then None else Some c) l).
Proof.
  revert seen. induction l as [|c rest IH]; intros seen; [done|].
  cbn [uniqueFrom]. rewrite imap_cons, omap_id_cons. cbn beta. cbn [take fmap list_fmap].
  rewrite (bool_decide_ext (c_ref c ∈ seen ∨ c_ref c ∈ []) (c_ref c ∈ seen)).
  2:{ split; [intros [?|Hnil]; [done|by apply elem_of_nil in Hnil]|by left]. }
  case_bool_decide as Hc; rewrite IH.
  - f_equal. apply imap_ext. intros i c' _. cbn [compose take fmap list_fmap].
    rewrite (bool_decide_ext (c_ref c' ∈ seen ∨ c_ref c' ∈ c_ref <$> take i rest)
               (c_ref c' ∈ seen ∨ c_ref c' ∈ c_ref c :: (c_ref <$> take i rest))); [done|].
    rewrite elem_of_cons.
    split; [intros [?|?]; [by left|right; by right]|].
    intros [?|[Heq|?]]; [by left|left; by rewrite Heq|by right].
  - f_equal. f_equal. apply imap_ext. intros i c' _. cbn [compose take fmap list_fmap].
    rewrite (bool_decide_ext (c_ref c' ∈ c_ref c :: seen ∨ c_ref c' ∈ c_ref <$> take i rest)
               (c_ref c' ∈ seen ∨ c_ref c' ∈ c_ref c :: (c_ref <$> take i rest))); [done|].
    rewrite !elem_of_cons.
    split; [intros [[?|?]|?]; [right; by left|by left|right; by right]|].
    intros [?|[?|?]]; [left; by right|left; by left|by right].
Qed.

Lemma uniqueFrom_firstOccurrences l : uniqueFrom [] l = firstOccurrences l.
Proof.
  rewrite uniqueFrom_imap. unfold firstOccurrences. f_equal.
  apply imap_ext. intros i c _. cbn.
  rewrite (bool_decide_ext (c_ref c ∈ [] ∨ c_ref c ∈ c_ref <$> take i l)
             (c_ref c ∈ c_ref <$> take i l)); [done|].
  split; [intros [Hnil|?]; [by apply elem_of_nil in Hnil|done]|by right].
Qed.

(** X23. The constructor of [Query] throws SpecError exactly when none
    of the three arrays is given or a component occurs in two of them.
    Otherwise each list of the query holds the components of its array
    once each, in the order of their first occurrence (it is the array
    without the elements that an earlier element equals), and the three
    lists are pairwise disjoint.  Composing no query at all gives a
    query with three empty lists, and composing a single constructed
    query gives back its lists. *)
Theorem query_constructor (ref : nat) (spec : QuerySpec) :
  (new ref spec = Throw SpecError
   ↔ (spec_all spec = None ∧ spec_any spec = None ∧ spec_none spec = None)
     ∨ ∃ r, (r ∈ c_ref <$> default [] (spec_all spec)
             ∧ r ∈ c_ref <$> default [] (spec_any spec))
            ∨ (r ∈ c_ref <$> default [] (spec_all spec)
               ∧ r ∈ c_ref <$> default [] (spec_none spec))
            ∨ (r ∈ c_ref <$> default [] (spec_any spec)
               ∧ r ∈ c_ref <$> default [] (spec_none spec)))
  ∧ (∀ q, new ref spec = Ok q →
       query_ref q = ref
       ∧ q_all q = firstOccurrences (default [] (spec_all spec))
       ∧ q_any q = firstOccurrences (default [] (spec_any spec))
       ∧ q_none q = firstOccurrences (default [] (spec_none spec))
       ∧ NoDup (c_ref <$> q_all q) ∧ NoDup (c_ref <$> q_any q) ∧ NoDup (c_ref <$> q_none q)
       ∧ sublist (q_all q) (default [] (spec_all spec))
       ∧ sublist (q_any q) (default [] (spec_any spec))
       ∧ sublist (q_none q) (default [] (spec_none spec))
       ∧ (∀ r, r ∈ c_ref <$> q_all q ↔ r ∈ c_ref <$> default [] (spec_all spec))
       ∧ (∀ r, r ∈ c_ref <$> q_any q ↔ r ∈ c_ref <$> default [] (spec_any spec))
       ∧ (∀ r, r ∈ c_ref <$> q_none q ↔ r ∈ c_ref <$> default [] (spec_none spec))
       ∧ (∀ r, r ∈ c_ref <$> q_all q → (r ∉ c_ref <$> q_any q) ∧ (r ∉ c_ref <$> q_none q))
       ∧ (∀ r, r ∈ c_ref <$> q_any q → r ∉ c_ref <$> q_none q)
       ∧ ∀ ref', compose ref' [q] = Ok (mkQuery ref' (q_all q) (q_any q) (q_none q)))
  ∧ compose ref [] = Ok (mkQuery ref [] [] []).
Proof.
  pose proof (isValidQuerySpec_iff spec) as Hvalid.
  split; [|split; [|done]].
  - unfold new. destruct (isValidQuerySpec spec) eqn:Hv; cbn [negb].
    + split; [done|]. apply proj1 in Hvalid.
      destruct (Hvalid eq_refl) as (Hsome & H1 & H2 & H3).
      intros [Hnone|(r & [[Ha Hb]|[[Ha Hb]|[Ha Hb]]])]; naive_solver.
    + split; [|done]. intros _.
      destruct (decide (spec_all spec = None ∧ spec_any spec = None ∧ spec_none spec = None))
        as [Hnone|Hsome]; [by left|]. right.
      destruct (someIncluded (spec_all spec) (spec_any spec)) eqn:H1.
      { apply someIncluded_true in H1 as (r & ? & ?). exists r. auto. }
      destruct (someIncluded (spec_all spec) (spec_none spec)) eqn:H2.
      { apply someIncluded_true in H2 as (r & ? & ?). exists r. auto. }
      destruct (someIncluded (spec_any spec) (spec_none spec)) eqn:H3.
      { apply someIncluded_true in H3 as (r & ? & ?). exists r. auto. }
      exfalso. assert (false = true) as Hf; [|discriminate Hf].
      apply Hvalid. split; [done|].
      split; [|split]; intros r Ha Hb.
      * assert (someIncluded (spec_all spec) (spec_any spec) = true); [|congruence].
        apply someIncluded_true. eauto.
      * assert (someIncluded (spec_all spec) (spec_none spec) = true); [|congruence].
        apply someIncluded_true. eauto.
      * assert (someIncluded (spec_any spec) (spec_none spec) = true); [|congruence].
        apply someIncluded_true. eauto.
  - intros q Hq. unfold new in Hq.
    destruct (isValidQuerySpec spec) eqn:Hv; cbn [negb] in Hq; [|done].
    injection Hq as <-. cbn [query_ref q_all q_any q_none].
    apply proj1 in Hvalid. destruct (Hvalid eq_refl) as (Hsome & H1 & H2 & H3).
    split; [done|].
    split; [apply uniqueFrom_firstOccurrences|].
    split; [apply uniqueFrom_firstOccurrences|].
    split; [apply uniqueFrom_firstOccurrences|].
    split; [apply uniqueFrom_NoDup|]. split; [apply uniqueFrom_NoDup|].
    split; [apply uniqueFrom_NoDup|].
    split; [apply uniqueFrom_sublist|]. split; [apply uniqueFrom_sublist|].
    split; [apply uniqueFrom_sublist|].
    split; [apply uniqueFrom_refs|]. split; [apply uniqueFrom_refs|].
    split; [apply uniqueFrom_refs|].
    split; [|split].
    + intros r Hr. rewrite !uniqueFrom_refs in *. split; [by apply H1|by apply H2].
    + intros r Hr. rewrite !uniqueFrom_refs in *. by apply H3.
    + intros ref'. unfold compose, new.
      assert (isValidQuerySpec
                (mkQuerySpec
                   (Some ([mkQuery ref (uniqueFrom [] (default [] (spec_all spec)))
                             (uniqueFrom [] (default [] (spec_any spec)))
                             (uniqueFrom [] (default [] (spec_none spec)))] ≫= q_all))
                   (Some ([mkQuery ref (uniqueFrom [] (default [] (spec_all spec)))
                             (uniqueFrom [] (default [] (spec_any spec)))
                             (uniqueFrom [] (default [] (spec_none spec)))] ≫= q_any))
                   (Some ([mkQuery ref (uniqueFrom [] (default [] (spec_all spec)))
                             (uniqueFrom [] (default [] (spec_any spec)))
                             (uniqueFrom [] (default [] (spec_none spec)))] ≫= q_none)))
              = true) as ->.
      { apply isValidQuerySpec_iff. cbn. rewrite !app_nil_r.
        split; [by intros [? _]|].
        split; [|split]; intros r Hr; rewrite !uniqueFrom_refs in *; auto. }
      cbn. rewrite !app_nil_r.
      rewrite (uniqueFrom_id [] (uniqueFrom [] (default [] (spec_all spec)))),
        (uniqueFrom_id [] (uniqueFrom [] (default [] (spec_any spec)))),
        (uniqueFrom_id [] (uniqueFrom [] (default [] (spec_none spec)))); [done|..];
        first [apply uniqueFrom_NoDup|intros r _; apply not_elem_of_nil].
Qed.
End QueryClassFacts.

(** ** The world *)

Section WorldFacts.
Import World.

Lemma init_state w w' : init w = Ok w' → state w = uninitialized ∧ state w' = initialized.
Proof.
  unfold init, assertWorldState. intros Hinit.
  destruct (decide (state w = uninitialized)) as [Hs|]; [|done]. cbn [rbind] in Hinit.
  destruct (ArchetypeManager.init (archetypeManager w)) as [am|]; [|done].
  cbn [rbind] in Hinit.
  destruct (refresh _ false) as [w1|] eqn:Hr; [|done]. cbn [rbind] in Hinit.
  destruct (decide (state w1 = initialized)) as [Hs1|]; [|done]. cbn [rbind] in Hinit.
  injection Hinit as <-. done.
Qed.

Lemma destroyEntity_state w e w' : destroyEntity w e = Ok w' → state w' = state w.
Proof.
  unfold destroyEntity. intros Hd.
  destruct (ArchetypeManager.reset (archetypeManager w) e) as [am|]; [|done].
  cbn [rbind] in Hd.
  destruct (EntityManager.destroy (entityManager w) e) as [em|]; [|done].
  cbn [rbind] in Hd. by injection Hd as <-.
Qed.

Lemma step_state valid w w' :
  step valid w w' →
  state w' = state w
  ∨ (state w = uninitialized ∧ state w' = initialized)
  ∨ (state w = initialized ∧ state w' = destroyed).
Proof.
  intros Hstep. destruct Hstep as
    [w w' H|w w' H|w b w' H|w e w' H|w e w' _ H|w c e d w' _ H|w c e w' _ H
    |w q i w' H|w q r w' H|w q r w' H|w p v cm H|w p k v].
  - right. left. by apply init_state.
  - destruct (quietStep_destroy w w' H) as (_ & _ & _ & [?|?]); auto.
  - destruct (refresh_shape w b w' H) as (Hs & _ & _ & _ & Hs'). left. congruence.
  - destruct (createEntity_shape w e w' H) as (_ & _ & ? & _). by left.
  - left. by eapply destroyEntity_state.
  - destruct (addComponentToEntity_shape w c e d w' H) as (? & ? & ? & _ & _ & Hau).
    destruct Hau as (_ & _ & ? & _). by left.
  - destruct (removeComponentFromEntity_shape w c e w' H) as (? & _ & Hau).
    destruct Hau as (_ & _ & ? & _). by left.
  - destruct (registerQuery_shape w q i w' H) as (_ & _ & _ & [?|?]); auto.
  - destruct (queryEntities_shape w q r w' H) as (_ & _ & _ & [?|?]); auto.
  - destruct (queryComponents_shape w q r w' H) as (_ & _ & _ & [?|?]); auto.
  - by left.
  - by left.
Qed.

Lemma steps_state valid w w' :
  rtc (step valid) w w' →
  (stateRank (state w) <= stateRank (state w'))%nat
  ∧ (state w ≠ error → state w' ≠ error).
Proof.
  induction 1 as [w|w w1 w' Hstep _ [IHle IHerr]]; [done|].
  destruct (step_state valid w w1 Hstep) as [Hs|[[Hs Hs1]|[Hs Hs1]]].
  - rewrite <- Hs. done.
  - rewrite Hs1 in IHle, IHerr. rewrite Hs. cbn in *. split; [lia|]. intros _. by apply IHerr.
  - rewrite Hs1 in IHle, IHerr. rewrite Hs. cbn in *. split; [lia|]. intros _. by apply IHerr.
Qed.

(** X24. The life cycle of a world only moves forward.  Along any
    sequence of operations the state never goes back in the order
    uninitialized, initialized, destroyed, and the error state is never
    entered by an operation that returns normally.  [init] returns
    normally only from the uninitialized state, [refresh] and [destroy]
    only from the initialized one; so a destroyed world stays destroyed,
    and [init], [refresh] and [destroy] throw WorldStateError on it. *)
Theorem world_lifecycle (valid : World.t → nat → Prop) (w w' : World.t)
    (Hsteps : rtc (step valid) w w') :
  (stateRank (state w) <= stateRank (state w'))%nat
  ∧ (state w ≠ error → state w' ≠ error)
  ∧ (state w = destroyed →
     state w' = destroyed
     ∧ init w' = Throw WorldStateError
     ∧ (∀ retainChanged, refresh w' retainChanged = Throw WorldStateError)
     ∧ destroy w' = Throw WorldStateError)
  ∧ (∀ w1, init w = Ok w1 → state w = uninitialized ∧ state w1 = initialized)
  ∧ (∀ retainChanged w1, refresh w retainChanged = Ok w1 →
       state w = initialized ∧ state w1 = initialized)
  ∧ (∀ w1, destroy w = Ok w1 → state w = initialized ∧ state w1 = destroyed).
Proof.
  destruct (steps_state valid w w' Hsteps) as [Hle Herr].
  split; [done|]. split; [done|]. split; [|split; [|split]].
  - intros Hd. rewrite Hd in Hle. cbn in Hle.
    assert (state w' = destroyed) as Hd'.
    { destruct (state w') eqn:Hs'; cbn in Hle; try lia; [done|].
      exfalso. apply Herr; [by rewrite Hd|done]. }
    split; [done|].
    unfold init, refresh, destroy, assertWorldState. rewrite Hd'. done.
  - intros w1. apply init_state.
  - intros b w1 Hr. destruct (refresh_shape w b w1 Hr) as (? & _ & _ & _ & ?). done.
  - intros w1 Hd. unfold destroy, assertWorldState in Hd.
    destruct (decide (state w = initialized)); [|done]. cbn [rbind] in Hd.
    by injection Hd as <-.
Qed.

Lemma world_lifecycle_witness :
  (stateRank (state sampleWorld) <= stateRank (state sampleWorldReady))%nat.
Proof.
  assert (rtc (step inRange) sampleWorld sampleWorldReady) as Hsteps.
  { apply rtc_once. apply step_init. exact sampleWorldReady_init. }
  exact (proj1 (world_lifecycle inRange sampleWorld sampleWorldReady Hsteps)).
Defined.
Lemma cm_refresh_changedBit cm p e :
  ComponentManager.changedBit (ComponentManager.refresh cm) p e = false.
Proof.
  unfold ComponentManager.changedBit, ComponentManager.refresh.
  cbn [ComponentManager.changed]. rewrite lookup_fmap.
  destruct (ComponentManager.changed cm !! p); [|done]. cbn. apply ba_get_clear.
Qed.

Lemma reachable_world_inv w : reachable inRange w → world_inv w.
Proof. intros Hr. by apply reachable_pool. Qed.

(** X25. [World.init] on a reachable world that is not yet initialized
    returns normally and leaves the world initialized, with every entity
    of the capacity seated in the root archetype and no changed bit set.
    The owner bits, the stored values and the entity pool are as before:
    components added before [init] are still owned afterwards, although
    their entities now sit in the root archetype. *)
Theorem world_init_seats_root (w : World.t)
    (Hreach : reachable inRange w) (Hstate : state w = uninitialized) :
  ∃ w', init w = Ok w'
        ∧ state w' = initialized
        ∧ entityManager w' = entityManager w
        ∧ (∀ e, inRange w e → ArchetypeManager.isEntityInRoot (archetypeManager w') e = true)
        ∧ (∀ p e, ComponentManager.ownerBit (componentManager w') p e
                  = ComponentManager.ownerBit (componentManager w) p e)
        ∧ (∀ p e, ComponentManager.changedBit (componentManager w') p e = false)
        ∧ ComponentManager.storages (componentManager w')
          = ComponentManager.storages (componentManager w).
Proof.
  pose proof (reachable_world_inv w Hreach) as Hinv.
  pose proof Hinv as (Harch & Hcap & Hcm & Hseated).
  destruct (init_spec (archetypeManager w) Harch) as (am & Ham & _).
  destruct (refresh_initialized
              (mk am (componentManager w) (entityManager w) (queryManager w) initialized) false
              eq_refl) as [w' Hrefresh].
  destruct (refresh_shape _ _ _ Hrefresh) as (_ & _ & Hcm' & _ & Hs').
  cbn [componentManager] in Hcm'.
  assert (init w = Ok w') as Hinit.
  { unfold init, assertWorldState. rewrite Hstate, decide_True by done. cbn [rbind].
    rewrite Ham. cbn [rbind]. rewrite Hrefresh. cbn [rbind].
    by rewrite Hs', decide_True by done. }
  exists w'. split; [done|].
  destruct (init_world w w' Hinit Hinv) as (Hinv' & _ & Hem & Hroot).
  split; [done|]. split; [done|]. split.
  { intros e He. unfold ArchetypeManager.isEntityInRoot. apply bool_decide_eq_true.
    apply Hroot. destruct Hinv' as (_ & Hcap' & _). unfold inRange in He. rewrite <- Hcap', Hem.
    done. }
  rewrite Hcm'. split; [done|]. split; [|done].
  intros p e. apply cm_refresh_changedBit.
Qed.

Lemma world_init_seats_root_witness :
  ∃ w', init sampleWorld = Ok w' ∧ state w' = initialized.
Proof.
  assert (reachable inRange sampleWorld) as Hreach.
  { exists 1024%nat, 2%nat, [activeComponent], sampleWorld.
    split; [exact sampleWorld_new|apply rtc_refl]. }
  destruct (world_init_seats_root sampleWorld Hreach eq_refl) as (w' & Hinit & Hs & _).
  exists w'. split; [exact Hinit|exact Hs].
Defined.

Lemma release_self p e : BitPool.isOccupied (BitPool.release p e) e = false.
Proof.
  unfold BitPool.isOccupied, BitPool.release. cbn [BitPool.occupied].
  destruct (decide (e < length (BitPool.occupied p))%nat) as [Hlt|Hge].
  - by rewrite list_lookup_insert_eq.
  - rewrite list_insert_ge by lia. by rewrite lookup_ge_None_2 by lia.
Qed.

(** X26. [entities.destroy] on a reachable world.  For an entity id
    below the capacity, active or not, it returns normally: the entity is
    then inactive and seated in the root archetype, every other entity
    keeps its activity and its archetype, the state is unchanged and the
    query caches are invalidated.  For an id at or past the capacity it
    throws RangeError, raised by the archetype manager before the entity
    manager is asked. *)
Theorem world_destroyEntity (w : World.t) (e : nat) (Hreach : reachable inRange w) :
  (inRange w e →
   ∃ w', destroyEntity w e = Ok w'
         ∧ EntityManager.isActive (entityManager w') e = false
         ∧ ArchetypeManager.isEntityInRoot (archetypeManager w') e = true
         ∧ state w' = state w
         ∧ (∀ e', e' ≠ e →
              EntityManager.isActive (entityManager w') e'
              = EntityManager.isActive (entityManager w) e'
              ∧ ArchetypeManager.getEntityArchetype (archetypeManager w') e'
                = ArchetypeManager.getEntityArchetype (archetypeManager w) e')
         ∧ QueryCache.version (QueryManager.cache (queryManager w'))
           = S (QueryCache.version (QueryManager.cache (queryManager w))))
  ∧ (¬ inRange w e → destroyEntity w e = Throw RangeError).
Proof.
  pose proof (reachable_world_inv w Hreach) as Hinv.
  split.
  - intros He.
    destruct (destroyEntity_then_create w e Hreach He) as (w' & Hd & _).
    exists w'. split; [done|].
    destruct (destroyEntity_shape w e w' Hd Hinv He)
      as (_ & Hs & (_ & Hroot & _) & Hseat & Hothers & Hem).
    assert (QueryCache.version (QueryManager.cache (queryManager w'))
            = S (QueryCache.version (QueryManager.cache (queryManager w)))) as Hver.
    { unfold destroyEntity in Hd.
      destruct (ArchetypeManager.reset (archetypeManager w) e) as [am|]; [|done].
      cbn [rbind] in Hd.
      destruct (EntityManager.destroy (entityManager w) e) as [em|]; [|done].
      cbn [rbind] in Hd. by injection Hd as <-. }
    split; [|split; [|split; [done|split; [|done]]]].
    + rewrite Hem. unfold EntityManager.isActive. cbn [EntityManager.pool].
      by rewrite release_self, andb_false_r.
    + unfold ArchetypeManager.isEntityInRoot. apply bool_decide_eq_true. by rewrite Hroot.
    + intros e' Hne. split; [|by apply Hothers].
      rewrite Hem. unfold EntityManager.isActive, EntityManager.isEntity, EntityManager.capacity.
      cbn [EntityManager.pool]. by rewrite release_others.
  - intros He. unfold inRange in He.
    destruct Hinv as ((Hreg & _ & Hlen & _) & Hcap & _).
    unfold destroyEntity, ArchetypeManager.reset, ArchetypeManager.set, ArchetypeManager.has.
    rewrite bool_decide_true by done. cbn [negb].
    destruct (Nat.leb_spec (length (ArchetypeManager.entityArchetypes (archetypeManager w))) e)
      as [_|Hlt]; [done|]. lia.
Qed.

Lemma world_destroyEntity_witness :
  destroyEntity sampleWorldReady 5 = Throw RangeError.
Proof.
  apply (world_destroyEntity sampleWorldReady 5 (sampleWorldReady_reachable inRange)).
  unfold inRange. vm_compute. lia.
Defined.
(** X27. Registering a query is idempotent: once [register] has returned
    an instance for a query object, registering the same object again
    returns that instance and changes nothing.  The query object is then
    known to the manager under the id of the instance. *)
Theorem registerQuery_idempotent (w w' : World.t) (query : Query) (instance : QueryInstance)
    (Hreg : registerQuery w query = Ok (instance, w')) :
  registerQuery w' query = Ok (instance, w')
  ∧ QueryManager.registered (queryManager w') query = Some instance
  ∧ state w' = state w
  ∧ entityManager w' = entityManager w
  ∧ componentManager w' = componentManager w.
Proof.
  assert (QueryManager.registered (queryManager w') query = Some instance
          ∧ state w' = state w ∧ entityManager w' = entityManager w
          ∧ componentManager w' = componentManager w) as Hknown.
  { unfold registerQuery in Hreg.
    destruct (QueryManager.registered (queryManager w) query) as [i|] eqn:Hq.
    { injection Hreg as <- <-. done. }
    destruct (decide (state w = initialized)) as [Hs|Hs].
    - unfold refresh, assertWorldState in Hreg.
      cbn [state archetypeManager componentManager entityManager queryManager] in Hreg.
      rewrite decide_True in Hreg by done. cbn [rbind] in Hreg.
      unfold ArchetypeManager.refresh in Hreg. cbn [rbind] in Hreg.
      injection Hreg as <- <-.
      cbn [queryManager state entityManager componentManager QueryManager.instancesByID
           QueryManager.invalidate].
      split; [|done].
      unfold QueryManager.registered, QueryManager.invalidate.
      cbn [QueryManager.idsByQuery QueryManager.instancesByID].
      rewrite lookup_insert_eq. cbn. rewrite lookup_fmap, lookup_insert_eq. done.
    - injection Hreg as <- <-. cbn [queryManager state entityManager componentManager].
      split; [|done].
      unfold QueryManager.registered.
      cbn [QueryManager.idsByQuery QueryManager.instancesByID].
      rewrite lookup_insert_eq. cbn. by rewrite lookup_insert_eq. }
  split; [|done].
  unfold registerQuery. by rewrite (proj1 Hknown).
Qed.

Lemma registerQuery_idempotent_witness :
  ∃ instance w',
    registerQuery sampleWorldReady sampleQuery = Ok (instance, w')
    ∧ registerQuery w' sampleQuery = Ok (instance, w').
Proof.
  destruct (registerQuery sampleWorldReady sampleQuery) as [[instance w']|err] eqn:Hreg.
  - exists instance, w'. split; [reflexivity|].
    exact (proj1 (registerQuery_idempotent sampleWorldReady w' sampleQuery instance Hreg)).
  - exfalso. vm_compute in Hreg. discriminate Hreg.
Defined.

Lemma addToEntity_result cm component e data l cm' :
  ComponentManager.addToEntity cm component e data = Ok (l, cm') →
  l = ComponentManager.getEntityComponentsDirect cm' e.
Proof.
  unfold ComponentManager.addToEntity. intros Hadd.
  destruct (ComponentManager.getInstance cm component) as [[i|]|]; [|done|done].
  destruct (ComponentManager.owners cm !! _); [|done].
  destruct (ComponentManager.changed cm !! _); [|done].
  by injection Hadd as <- <-.
Qed.

Lemma removeFromEntity_result cm component e :
  fst (ComponentManager.removeFromEntity cm component e)
  = ComponentManager.getEntityComponentsDirect
      (snd (ComponentManager.removeFromEntity cm component e)) e.
Proof.
  unfold ComponentManager.removeFromEntity.
  by destruct (ComponentManager.getInstance cm component) as [[i|]|].
Qed.

Lemma afterUpdate_seats w cm1 instances w' e :
  world_inv w → inRange w e →
  afterUpdate w cm1 (snd (ArchetypeManager.update (archetypeManager w) e instances)) w' →
  ArchetypeManager.getEntityArchetype (archetypeManager w') e
  = Some (BooleanArray.buffer (ArchetypeManager.scratch (archetypeManager w') instances))
  ∧ ∀ e', e' ≠ e →
      ArchetypeManager.getEntityArchetype (archetypeManager w') e'
      = ArchetypeManager.getEntityArchetype (archetypeManager w) e'.
Proof.
  intros (Harch & Hcap & _) He (_ & _ & _ & Ham).
  unfold inRange in He. rewrite Hcap in He.
  destruct (update_spec (archetypeManager w) e instances Harch He)
    as (_ & (_ & _ & Hcc) & Hseat & Hothers).
  assert (ArchetypeManager.entityArchetypes (archetypeManager w')
          = ArchetypeManager.entityArchetypes
              (snd (ArchetypeManager.update (archetypeManager w) e instances))
          ∧ ArchetypeManager.componentCount (archetypeManager w')
            = ArchetypeManager.componentCount (archetypeManager w)) as [Harr Hcc'].
  { rewrite Ham. destruct (decide (state w = initialized)); [|done].
    unfold ArchetypeManager.refresh. cbn. done. }
  unfold ArchetypeManager.getEntityArchetype in *. rewrite Harr.
  unfold ArchetypeManager.scratch in *. rewrite Hcc'. done.
Qed.

(** X28. After [addComponentToEntity] or [removeComponentFromEntity] on
    a reachable world, the archetype of the entity is the one whose id
    is the mask of the components the entity owns: the archetype manager
    and the owner bits of the component manager agree on that entity.
    Every other entity keeps its archetype. *)
Theorem world_archetype_is_owner_mask (w w' : World.t) (component : ComponentArg) (e : nat)
    (data : option (list (string * JSNumber.t)))
    (Hreach : reachable inRange w) (He : inRange w e)
    (Hop : addComponentToEntity w component e data = Ok w'
           ∨ removeComponentFromEntity w component e = Ok w') :
  ArchetypeManager.getEntityArchetype (archetypeManager w') e
  = Some (BooleanArray.buffer
            (ArchetypeManager.scratch (archetypeManager w')
               (ComponentManager.getEntityComponentsDirect (componentManager w') e)))
  ∧ ∀ e', e' ≠ e →
      ArchetypeManager.getEntityArchetype (archetypeManager w') e'
      = ArchetypeManager.getEntityArchetype (archetypeManager w) e'.
Proof.
  pose proof (reachable_world_inv w Hreach) as Hinv.
  destruct Hop as [Hadd|Hrem].
  - destruct (addComponentToEntity_shape w component e data w' Hadd)
      as (type & instances & cm1 & _ & Haddcm & Hau).
    pose proof Hau as (_ & -> & _).
    rewrite <- (addToEntity_result _ _ _ _ _ _ Haddcm).
    eapply afterUpdate_seats; [exact Hinv|exact He|exact Hau].
  - destruct (removeComponentFromEntity_shape w component e w' Hrem) as (type & _ & Hau).
    pose proof Hau as (_ & -> & _).
    rewrite <- removeFromEntity_result.
    eapply afterUpdate_seats; [exact Hinv|exact He|exact Hau].
Qed.

Lemma world_archetype_is_owner_mask_witness :
  ∃ w', addComponentToEntity sampleWorldReady (ByRef activeComponent) 0 None = Ok w'
        ∧ ArchetypeManager.getEntityArchetype (archetypeManager w') 0
          = Some (BooleanArray.buffer
                    (ArchetypeManager.scratch (archetypeManager w')
                       (ComponentManager.getEntityComponentsDirect (componentManager w') 0))).
Proof.
  destruct (addComponentToEntity sampleWorldReady (ByRef activeComponent) 0 None)
    as [w'|err] eqn:Hadd.
  - exists w'. split; [reflexivity|].
    assert (inRange sampleWorldReady 0) as He by (unfold inRange; vm_compute; lia).
    exact (proj1 (world_archetype_is_owner_mask sampleWorldReady w' (ByRef activeComponent) 0
                    None (sampleWorldReady_reachable inRange) He (or_introl Hadd))).
  - exfalso. vm_compute in Hadd. discriminate Hadd.
Defined.
Lemma truthyIndices_none a :
  (∀ e, BooleanArray.get a e = false) → BooleanArray.truthyIndices a = [].
Proof.
  intros Hnone. unfold BooleanArray.truthyIndices.
  induction (seq 0 (BooleanArray.size a)) as [|i l IH]; [done|].
  rewrite filter_cons_False; [done|]. by rewrite Hnone.
Qed.

Lemma join_nil {A B} (f : A → list B) l : (∀ x, f x = []) → mjoin (f <$> l) = [].
Proof.
  intros Hf. induction l as [|x l IH]; [done|].
  change (f x ++ mjoin (f <$> l) = []). by rewrite Hf, IH.
Qed.

Lemma queryMoved_quiet pick w query :
  state w = initialized →
  (∀ k a, ArchetypeManager.registry (archetypeManager w) !! k = Some a → pick a = []) →
  (∀ qs k a, ArchetypeManager.registry
               (fst (ArchetypeManager.refresh (archetypeManager w) qs)) !! k = Some a →
             pick a = []) →
  ∃ w1, queryMoved pick w query = Ok ([], w1).
Proof.
  intros Hs Hnow Hafter.
  assert (∀ w1 i, (∀ k a, ArchetypeManager.registry (archetypeManager w1) !! k = Some a →
                          pick a = []) →
                  ∃ w2, (let am := archetypeManager w1 in
                         match ArchetypeManager.query am i with
                         | None => Ok ([], w1)
                         | Some archetypes =>
                             Ok (yieldOnce
                                   (BooleanArray.clear
                                      (BooleanArray.new
                                         (EntityManager.capacity (entityManager w1))))
                                   (mjoin ((λ k, match ArchetypeManager.registry am !! k with
                                                 | Some a => pick a
                                                 | None => []
                                                 end) <$> elements archetypes)),
                                 w1)
                         end) = Ok ([], w2)) as Hbody.
  { intros w1 i Hq. cbn zeta. destruct (ArchetypeManager.query _ i); [|by eexists].
    rewrite join_nil; [by eexists|].
    intros k. destruct (ArchetypeManager.registry _ !! k) eqn:Hk; [|done]. by eapply Hq. }
  unfold queryMoved, registerQuery.
  destruct (QueryManager.registered (queryManager w) query) as [i|]; cbn [rbind].
  { by apply Hbody. }
  rewrite decide_True by done.
  unfold refresh, assertWorldState. cbn [state]. rewrite decide_True by done. cbn [rbind].
  cbn [archetypeManager queryManager componentManager entityManager].
  destruct (ArchetypeManager.refresh (archetypeManager w) _) as [am qs] eqn:Hr.
  cbn [rbind]. apply Hbody. cbn [archetypeManager].
  intros k a Hk. eapply (Hafter _ k). rewrite Hr. exact Hk.
Qed.

(** X29. In an initialized world, right after [addComponentToEntity] or
    [removeComponentFromEntity] has returned, [queryEntered] and
    [queryExited] yield no entity, for every query: the refresh that
    these operations run has already emptied the entered and exited sets
    of every archetype. *)
Theorem world_moved_empty_after_update (w w' : World.t) (component : ComponentArg) (e : nat)
    (data : option (list (string * JSNumber.t))) (query : Query)
    (Hreach : reachable inRange w) (He : inRange w e) (Hstate : state w = initialized)
    (Hop : addComponentToEntity w component e data = Ok w'
           ∨ removeComponentFromEntity w component e = Ok w') :
  (∃ w1, queryEnteredEntities w' query = Ok ([], w1))
  ∧ (∃ w2, queryExitedEntities w' query = Ok ([], w2)).
Proof.
  pose proof (reachable_world_inv w Hreach) as Hinv.
  assert (settled w w') as (_ & Hs' & _ & _ & _ & Hclear).
  { destruct Hop as [Hadd|Hrem].
    - destruct (addComponentToEntity_shape w component e data w' Hadd)
        as (type & instances & cm1 & _ & Haddcm & Hau).
      eapply (afterUpdate_settled w cm1 instances w' e); try done.
      by eapply addToEntity_sameShape.
    - destruct (removeComponentFromEntity_shape w component e w' Hrem) as (type & _ & Hau).
      eapply (afterUpdate_settled w _ _ w' e); try done.
      apply removeFromEntity_sameShape. }
  assert (∀ qs k a,
            ArchetypeManager.registry
              (fst (ArchetypeManager.refresh (archetypeManager w') qs)) !! k = Some a →
            ∀ e', BooleanArray.get (Archetype.entered a) e' = false
                  ∧ BooleanArray.get (Archetype.exited a) e' = false) as Hafter.
  { intros qs k a Hk e'. unfold ArchetypeManager.refresh in Hk.
    cbn [fst ArchetypeManager.registry] in Hk.
    apply lookup_fmap_Some in Hk as (a0 & <- & _). apply refreshArchetype_cleared. }
  split.
  - apply queryMoved_quiet; [done| |].
    + intros k a Hk. apply truthyIndices_none. intros e'. by apply (Hclear k a e').
    + intros qs k a Hk. apply truthyIndices_none. intros e'. by apply (Hafter qs k a Hk e').
  - apply queryMoved_quiet; [done| |].
    + intros k a Hk. apply truthyIndices_none. intros e'. by apply (Hclear k a e').
    + intros qs k a Hk. apply truthyIndices_none. intros e'. by apply (Hafter qs k a Hk e').
Qed.

Lemma world_moved_empty_after_update_witness :
  ∃ w', addComponentToEntity sampleWorldReady (ByRef activeComponent) 0 None = Ok w'
        ∧ ∃ w1, queryEnteredEntities w' sampleQuery = Ok ([], w1).
Proof.
  destruct (addComponentToEntity sampleWorldReady (ByRef activeComponent) 0 None)
    as [w'|err] eqn:Hadd.
  - exists w'. split; [reflexivity|].
    assert (inRange sampleWorldReady 0) as He by (unfold inRange; vm_compute; lia).
    assert (state sampleWorldReady = initialized) as Hs by reflexivity.
    exact (proj1 (world_moved_empty_after_update sampleWorldReady w' (ByRef activeComponent) 0
                    None sampleQuery (sampleWorldReady_reachable inRange) He Hs
                    (or_introl Hadd))).
  - exfalso. vm_compute in Hadd. discriminate Hadd.
Defined.
(** X30. The constructor of the world.  It throws SpecError exactly when
    the capacity is 0 or no uint32 (above 4294967295) or the component
    list is empty, and RangeError exactly when the specification is
    valid and the capacity exceeds the bound of the entity pool.
    Otherwise the world is uninitialized with the given capacity: no
    entity is active, no entity has an archetype, no component is owned,
    and [refresh] and [destroy] throw WorldStateError until [init]. *)
Theorem world_constructor (MAX_CAPACITY capacity : nat) (components : list Component) :
  (new MAX_CAPACITY capacity components = Throw SpecError
   ↔ capacity = 0%nat ∨ 4294967295 < Z.of_nat capacity ∨ components = [])
  ∧ (new MAX_CAPACITY capacity components = Throw RangeError
     ↔ (0 < capacity)%nat ∧ Z.of_nat capacity <= 4294967295
       ∧ components ≠ [] ∧ (MAX_CAPACITY < capacity)%nat)
  ∧ (∀ w, new MAX_CAPACITY capacity components = Ok w →
       state w = uninitialized
       ∧ EntityManager.capacity (entityManager w) = capacity
       ∧ EntityManager.getActiveCount (entityManager w) = 0%nat
       ∧ (∀ e, EntityManager.isActive (entityManager w) e = false)
       ∧ (∀ e, ArchetypeManager.getEntityArchetype (archetypeManager w) e = None)
       ∧ (∀ p e, ComponentManager.ownerBit (componentManager w) p e = false)
       ∧ (∀ retainChanged, refresh w retainChanged = Throw WorldStateError)
       ∧ destroy w = Throw WorldStateError).
Proof.
  unfold new, EntityManager.new.
  destruct (Z.leb_spec (Z.of_nat capacity) 4294967295) as [Hu|Hover].
  2:{ cbn [andb negb]. split; [split; [intros _; right; by left|done]|].
      split; [split; [done|intros (_ & ? & _); lia]|done]. }
  destruct capacity as [|cap].
  - cbn. split; [naive_solver|]. split; [|done]. split; [done|]. intros [? _]. lia.
  - destruct components as [|c cs].
    + cbn [negb andb Nat.ltb Nat.leb length orb rbind].
      split; [split; [intros _; right; by right|done]|]. split; [|done].
      split; [done|]. intros (_ & _ & ? & _). done.
    + cbn [negb andb Nat.ltb Nat.leb length orb rbind].
      destruct (Nat.leb_spec MAX_CAPACITY cap) as [Hbig|Hok]; cbn [rbind].
      * split; [split; [done|intros [?|[?|?]]; [done|lia|done]]|]. split; [|done].
        split; [intros _; split; [lia|split; [done|split; [done|lia]]]|done].
      * split; [split; [done|intros [?|[?|?]]; [done|lia|done]]|].
        split; [split; [done|intros (_ & _ & _ & ?); lia]|].
        intros w [= <-].
        cbn [state entityManager archetypeManager componentManager].
        split; [done|]. split; [done|].
        assert (∀ e, BitPool.isOccupied (BitPool.new (S cap)) e = false) as Hfree.
        { intros e. unfold BitPool.isOccupied, BitPool.new. cbn [BitPool.occupied].
          destruct (replicate (S cap) false !! e) as [b|] eqn:Hb; [|done].
          apply lookup_replicate in Hb as [-> _]. done. }
        split; [|split; [|split; [|split; [|done]]]].
        -- unfold EntityManager.getActiveCount, BitPool.occupiedCount, BitPool.new.
           cbn [EntityManager.pool BitPool.occupied].
           clear. generalize (S cap). intros n.
           induction n as [|n IH]; [done|]. cbn [replicate].
           rewrite filter_cons_False by done. exact IH.
        -- intros e. unfold EntityManager.isActive. cbn [EntityManager.pool].
           by rewrite Hfree, andb_false_r.
        -- intros e. unfold ArchetypeManager.getEntityArchetype, ArchetypeManager.new,
             JS.array_get. cbn [ArchetypeManager.entityArchetypes].
           destruct (replicate (S cap) None !! e) as [o|] eqn:Ho; [|done].
           apply lookup_replicate in Ho as [-> _]. done.
        -- intros p e. apply new_bits.
Qed.

Lemma world_constructor_witness :
  new 1024 0 [activeComponent] = Throw SpecError.
Proof.
  apply (world_constructor 1024 0 [activeComponent]). by left.
Defined.
End WorldFacts.
